(** * simuPOP sandbox operators: infinite-sites mutation, selection,
      recombination and removal of fixed sites

    A shallow embedding of [src/src/sandbox.cpp], the properties its
    specification states about it, and further properties of the code.

    Conventions of the embedding.
    - An allele ([Allele], [ULONG]) is a [Z]; the value [0] is the empty
      entry of a genotype.
    - A [std::set<ULONG>] is the list of its elements in increasing order;
      a [std::map] used as a counter is the list of its (key, count) pairs
      in increasing key order; the selection map is a [gmap].
    - A C++ [double] is idealised as a real number: sums and products
      are exact and [exp] is the real exponential.  What is stated about a
      fitness value is either unaffected by rounding (the same operations
      on the same operands, bounds that rounding keeps) or is said to hold
      in exact arithmetic.
    - Conversions between integer types are the identity: site identifiers
      are taken to fit in every integer type they pass through.  Only the
      subtraction [loc - 1] of [locateVacantLocus], which can go below
      zero, is written with its wrap-around; so are, in
      [transmitGenotype1], the subtractions from [minAllele] and
      [maxAllele] and the decrement of [cnt].
    - The random number generator and the user's Python function are
      oracles indexed by the number of draws made so far.
    - Checks made by [DBG_FAILIF] exist in debug builds only and are left
      out. *)

From stdpp Require Import gmap list sorting.
From Stdlib Require Import Reals Lra.

#[global] Instance R_eq_dec : EqDecision R := Req_dec_T.

Local Open Scope Z_scope.

(** ** Genotypes *)

(** One chromosome of one homologous copy. *)
Abbreviation Slot := (list Z).

(** An individual: for every ploidy copy, for every chromosome, a slot. *)
Abbreviation Individual := (list (list Slot)).

(** [ind.genoBegin(p, ch) .. ind.genoEnd(p, ch)] *)
Definition genoPCh (ind : Individual) (p ch : nat) : Slot :=
  (ind !!! p) !!! ch.

(** [ind.genoBegin(p) .. ind.genoEnd(p)]: copy [p], all chromosomes. *)
Definition genoP (ind : Individual) (p : nat) : list Z :=
  mjoin (ind !!! p).

(** [ind.genoBegin() .. ind.genoEnd()]: all copies, all chromosomes. *)
Definition genoAll (ind : Individual) : list Z :=
  mjoin (mjoin ind).

Record Population := mkPop {
  ploidy : nat;
  numLoci : list nat;            (* loci per chromosome *)
  subPopSizes : list nat;        (* individuals per subpopulation *)
  individuals : list Individual;
  gen : Z;
}.

Definition popSize (pop : Population) : nat := length (individuals pop).
Definition totNumLoci (pop : Population) : nat := sum_list (numLoci pop).

(** [pop.genoBegin(false) .. pop.genoEnd(false)] *)
Definition popGeno (pop : Population) : list Z :=
  mjoin (genoAll <$> individuals pop).

(** [ind.genoBegin(p, ch)] of [pop.individual(indIndex)]. *)
Definition getSlot (pop : Population) (indIndex p ch : nat) : Slot :=
  genoPCh (individuals pop !!! indIndex) p ch.

Definition setSlot (pop : Population) (indIndex p ch : nat) (slot : Slot)
  : Population :=
  mkPop (ploidy pop) (numLoci pop) (subPopSizes pop)
        (alter (alter (<[ch := slot]>) p) indIndex (individuals pop))
        (gen pop).

(** Modelled from the spec: [Population::addLoci] is not part of the
    sources; growing chromosome [ch] by [n] loci keeps the existing
    entries of every slot of that chromosome and adds [n] empty ones
    after them. *)
Definition addLoci (ch n : nat) (pop : Population) : Population :=
  mkPop (ploidy pop)
        (alter (λ k, (k + n)%nat) ch (numLoci pop))
        (subPopSizes pop)
        ((λ ind : list (list (list Z)),
            (λ copy : list (list Z),
               alter (λ slot, slot ++ replicate n 0) ch copy) <$> ind)
           <$> individuals pop)
        (gen pop).

(** Every copy of an individual has one slot per chromosome, of the
    chromosome's number of loci. *)
Definition wf_copy (nl : list nat) (c : list Slot) : Prop :=
  length <$> c = nl.

Definition wf_ind (nl : list nat) (ploidy : nat) (ind : Individual) : Prop :=
  length ind = ploidy ∧ Forall (wf_copy nl) ind.

Definition wf_pop (ploidy : nat) (pop : Population) : Prop :=
  Forall (wf_ind (numLoci pop) ploidy) (individuals pop).

(** Packed left: no entry follows an empty one. *)
Fixpoint packed (s : Slot) : Prop :=
  match s with
  | [] => True
  | x :: s' => if decide (x = 0) then Forall (λ y, y = 0) s' else packed s'
  end.

(** The entries of a slot that hold a site. *)
Definition sites (s : list Z) : list Z := filter (λ x, x ≠ 0) s.

(** ** [std::set<ULONG>] *)

Module StdSet.

(** [s.insert(x)] *)
Fixpoint insert (x : Z) (s : list Z) : list Z :=
  match s with
  | [] => [x]
  | y :: s' =>
      if decide (x < y) then x :: s
      else if decide (x = y) then s
      else y :: insert x s'
  end.

(** [std::set<ULONG> s(first, last)] *)
Definition of_range (l : list Z) : list Z :=
  foldl (λ s x, insert x s) [] l.

(** [s.erase(x)] *)
Fixpoint erase (x : Z) (s : list Z) : list Z :=
  match s with
  | [] => []
  | y :: s' => if decide (y = x) then s' else y :: erase x s'
  end.

(** [std::set_intersection] of two increasing ranges. *)
Fixpoint set_intersection (a b : list Z) : list Z :=
  match a with
  | [] => []
  | x :: a' =>
      (fix go (b : list Z) : list Z :=
         match b with
         | [] => []
         | y :: b' =>
             if decide (x < y) then set_intersection a' b
             else if decide (y < x) then go b'
             else x :: set_intersection a' b'
         end) b
  end.

(** [std::set_difference] of two increasing ranges. *)
Fixpoint set_difference (a b : list Z) : list Z :=
  match a with
  | [] => []
  | x :: a' =>
      (fix go (b : list Z) : list Z :=
         match b with
         | [] => a
         | y :: b' =>
             if decide (x < y) then x :: set_difference a' b
             else if decide (y < x) then go b'
             else set_difference a' b'
         end) b
  end.

(** [s.find(x) != s.end()] *)
Definition mem (x : Z) (s : list Z) : bool := bool_decide (x ∈ s).

End StdSet.

(** ** RevertFixedSites *)

Module RevertFixedSites.

(** The loop that intersects [commonAlleles] with both copies of every
    individual; [None] is the [return true] taken inside the loop. *)
Fixpoint intersect_all (commonAlleles : list Z) (inds : list Individual)
  : option (list Z) :=
  match inds with
  | [] => Some commonAlleles
  | it :: rest =>
      let alleles1 := StdSet.of_range (genoP it 0) in
      let common :=
        StdSet.of_range (StdSet.set_intersection commonAlleles alleles1) in
      let alleles2 := StdSet.of_range (genoP it 1) in
      let commonAlleles :=
        StdSet.of_range (StdSet.set_intersection common alleles2) in
      if decide (length commonAlleles = 0%nat) then None
      else intersect_all commonAlleles rest
  end.

(** The contents of [new_alleles] after [std::fill] and
    [std::set_difference]. *)
Definition new_alleles (tot : nat) (old commonAlleles : list Z) : list Z :=
  let old_alleles := StdSet.erase 0 (StdSet.of_range old) in
  let kept := StdSet.set_difference old_alleles commonAlleles in
  kept ++ replicate (tot - length kept) 0.

(** [std::copy(new_alleles.begin(), new_alleles.end(), it->genoBegin(p))] *)
Definition write_copy (nl : list nat) (p : nat) (new : list Z)
    (ind : Individual) : Individual :=
  <[p := reshape nl new]> ind.

(** The body of the loop that rewrites the two copies of an individual. *)
Definition trim_ind (nl : list nat) (commonAlleles : list Z)
    (ind : Individual) : Individual :=
  let tot := sum_list nl in
  let ind := write_copy nl 0 (new_alleles tot (genoP ind 0) commonAlleles) ind in
  write_copy nl 1 (new_alleles tot (genoP ind 1) commonAlleles) ind.

(** One line of output: the generation and the fixed sites. *)
Abbreviation Line := (Z * list Z)%type.

(** [RevertFixedSites::apply]: the result, the population afterwards and
    what was written to the output. *)
Definition apply (noOutput : bool) (pop : Population)
  : bool * Population * list Line :=
  if decide (popSize pop = 0%nat ∨ totNumLoci pop = 0%nat) then
    (true, pop, [])
  else
    match individuals pop with
    | [] => (true, pop, [])
    | it :: _ =>
        let commonAlleles :=
          StdSet.erase 0 (StdSet.of_range (genoP it 0)) in
        if decide (length commonAlleles = 0%nat) then (true, pop, [])
        else
          match intersect_all commonAlleles (individuals pop) with
          | None => (true, pop, [])
          | Some commonAlleles =>
              let out :=
                if noOutput then [] else [(gen pop, commonAlleles)] in
              (true,
               mkPop (ploidy pop) (numLoci pop) (subPopSizes pop)
                     (trim_ind (numLoci pop) commonAlleles
                        <$> individuals pop)
                     (gen pop),
               out)
          end
    end.

(** The set [commonAlleles] with which [apply] reaches its second loop;
    [None] when it returns before. *)
Definition fixedSites (pop : Population) : option (list Z) :=
  if decide (popSize pop = 0%nat ∨ totNumLoci pop = 0%nat) then None
  else
    match individuals pop with
    | [] => None
    | it :: _ =>
        let commonAlleles :=
          StdSet.erase 0 (StdSet.of_range (genoP it 0)) in
        if decide (length commonAlleles = 0%nat) then None
        else intersect_all commonAlleles (individuals pop)
    end.

(** A site is fixed when both copies of every individual carry it. *)
Definition fixed (pop : Population) (x : Z) : Prop :=
  x ≠ 0 ∧ ∀ ind, ind ∈ individuals pop → x ∈ genoP ind 0 ∧ x ∈ genoP ind 1.

End RevertFixedSites.

(** ** [MutCounter]: a [std::map] from site to number of occurrences *)

Module MutCounter.

(** [mit = cnt.find(x); if (mit == cnt.end()) cnt[x] = 1;
     else ++mit->second;] *)
Fixpoint count (x : Z) (cnt : list (Z * nat)) : list (Z * nat) :=
  match cnt with
  | [] => [(x, 1%nat)]
  | (k, c) :: rest =>
      if decide (x < k) then (x, 1%nat) :: cnt
      else if decide (x = k) then (k, S c) :: rest
      else (k, c) :: count x rest
  end.

(** [cnt.find(x)->second], or [0] when [x] is not a key. *)
Fixpoint get (x : Z) (cnt : list (Z * nat)) : nat :=
  match cnt with
  | [] => 0%nat
  | (k, c) :: rest => if decide (x = k) then c else get x rest
  end.

End MutCounter.

(** ** InfSitesSelector *)

Module InfSitesSelector.

(** [SelCoef]: the pair (s, h). *)
Abbreviation SelCoef := (R * R)%type.

(** What the user's function returns: a number, a sequence (its first
    item and the others; an empty sequence is refused), or anything
    else. *)
Inductive PyObject :=
| PyNumber (x : R)
| PySequence (item0 : R) (items : list R)
| PyOther.

(** The user's function: its number of parameters, and its result at the
    [n]-th draw for the argument list [()] ([None]) or [(loc)]. *)
Record pyFunc := mkPyFunc {
  numArgs : nat;
  call : nat → option Z → PyObject;
}.

Inductive Mode := MULTIPLICATIVE | ADDITIVE | EXPONENTIAL | OTHER_MODE.

(** The mutable members of the operator, and the number of draws made from
    the random number generator or the user's function. *)
Record State := mkState {
  m_selFactory : gmap Z SelCoef;
  m_newMutants : list Z;
  m_additive : bool;
  draws : nat;
}.

(** [static_cast<int>] of a double: truncation towards zero. *)
Definition double_to_int (x : R) : Z :=
  if Rle_dec 0 x then Int_part x else - Int_part (- x).

Section Operator.

(** The value of the enumerator [CONSTANT]. *)
Variable CONSTANT : Z.
(** [m_selDist]: its list of numbers (empty when a function was given)
    and its function. *)
Variable m_selDist : list R.
Variable func : pyFunc.
(** [getRNG().randGamma(a, b)] at the [n]-th draw. *)
Variable randGamma : nat → R → R → R.
Variable m_mode : Mode.

(** [if (m_additive && h != 0.5) m_additive = false;] *)
Definition downgrade (additive : bool) (h : R) : bool :=
  if additive && bool_decide (h ≠ (1 / 2)%R) then false else additive.

Definition getFitnessValue (mutant : Z) (st : State) : SelCoef * State :=
  let sz := length m_selDist in
  if decide (sz = 0%nat) then
    (* call a function *)
    let res :=
      if decide (numArgs func = 0%nat) then call func (draws st) None
      else call func (draws st) (Some mutant) in
    let '(s, h) :=
      match res with
      | PyNumber x => (x, (1 / 2)%R)
      | PySequence item0 items =>
          (item0, match items with [] => (1 / 2)%R | item1 :: _ => item1 end)
      | PyOther => (0%R, (1 / 2)%R)
      end in
    ((s, h),
     mkState (m_selFactory st) (m_newMutants st)
             (downgrade (m_additive st) h) (S (draws st)))
  else
    let mode := double_to_int (nth 0 m_selDist 0%R) in
    let '(s, h, d) :=
      if decide (mode = CONSTANT) then
        (nth 1 m_selDist 0%R,
         if decide (2 < length m_selDist)%nat then nth 2 m_selDist 0%R
         else (1 / 2)%R,
         draws st)
      else
        (randGamma (draws st) (nth 1 m_selDist 0%R) (nth 2 m_selDist 0%R),
         if decide (3 < length m_selDist)%nat then nth 3 m_selDist 0%R
         else (1 / 2)%R,
         S (draws st)) in
    ((s, h),
     mkState (<[mutant := (s, h)]> (m_selFactory st))
             (m_newMutants st ++ [mutant])
             (downgrade (m_additive st) h) d).

(** The loop of [randomSelAddFitness] and [randomSelExpFitness]. *)
Fixpoint sumHalf (geno : list Z) (s : R) (st : State) : R * State :=
  match geno with
  | [] => (s, st)
  | a :: geno' =>
      if decide (a = 0) then sumHalf geno' s st
      else
        match m_selFactory st !! a with
        | None =>
            let '(sf, st') := getFitnessValue a st in
            sumHalf geno' (s + sf.1 / 2)%R st'
        | Some sc => sumHalf geno' (s + sc.1 / 2)%R st
        end
  end.

(** [1 - s > 0 ? 1 - s : 0] *)
Definition oneMinus (s : R) : R :=
  if Rlt_dec 0 (1 - s) then (1 - s)%R else 0%R.

Definition randomSelAddFitness (geno : list Z) (st : State) : R * State :=
  let '(s, st') := sumHalf geno 0%R st in (oneMinus s, st').

Definition randomSelExpFitness (geno : list Z) (st : State) : R * State :=
  let '(s, st') := sumHalf geno 0%R st in (exp (- s), st').

(** The first loop of the general forms: count the occurrences of every
    site. *)
Fixpoint countMutants (geno : list Z) (cnt : list (Z * nat))
  : list (Z * nat) :=
  match geno with
  | [] => cnt
  | a :: geno' =>
      if decide (a = 0) then countMutants geno' cnt
      else countMutants geno' (MutCounter.count a cnt)
  end.

(** The term of one site in the general forms: [s * h] for one
    occurrence, [s] otherwise. *)
Definition term (c : nat) (sf : SelCoef) : R :=
  if decide (c = 1%nat) then (sf.1 * sf.2)%R else sf.1.

(** The second loop of the general forms; [op] combines the accumulator
    with the term of a site. *)
Fixpoint foldSites (op : R → R → R) (cnt : list (Z * nat)) (s : R)
    (st : State) : R * State :=
  match cnt with
  | [] => (s, st)
  | (k, c) :: cnt' =>
      match m_selFactory st !! k with
      | None =>
          let '(sf, st') := getFitnessValue k st in
          foldSites op cnt' (op s (term c sf)) st'
      | Some sc => foldSites op cnt' (op s (term c sc)) st
      end
  end.

Definition randomSelMulFitnessExt (geno : list Z) (st : State) : R * State :=
  let cnt := countMutants geno [] in
  foldSites (λ s t, s * (1 - t))%R cnt 1%R st.

Definition randomSelAddFitnessExt (geno : list Z) (st : State) : R * State :=
  let cnt := countMutants geno [] in
  let '(s, st') := foldSites Rplus cnt 0%R st in (oneMinus s, st').

Definition randomSelExpFitnessExt (geno : list Z) (st : State) : R * State :=
  let cnt := countMutants geno [] in
  let '(s, st') := foldSites Rplus cnt 0%R st in (exp (- s), st').

(** [indFitness], on the genotype [ind->genoBegin() .. ind->genoEnd()]. *)
Definition indFitness (geno : list Z) (st : State) : R * State :=
  match m_mode with
  | MULTIPLICATIVE => randomSelMulFitnessExt geno st
  | ADDITIVE =>
      if m_additive st then randomSelAddFitness geno st
      else randomSelAddFitnessExt geno st
  | EXPONENTIAL =>
      if m_additive st then randomSelExpFitness geno st
      else randomSelExpFitnessExt geno st
  | OTHER_MODE => (0%R, st)
  end.

(** Modelled from the spec: [BaseSelector::apply] is not part of the
    sources; it walks the individuals, assigns each the value of
    [indFitness] and reports success. *)
Fixpoint BaseSelector_apply (inds : list Individual) (st : State)
  : bool * list R * State :=
  match inds with
  | [] => (true, [], st)
  | ind :: rest =>
      let '(f, st1) := indFitness (genoAll ind) st in
      let '(ok, fs, st2) := BaseSelector_apply rest st1 in
      (ok, f :: fs, st2)
  end.

(** One line of output: a new site and its coefficients. *)
Definition Line : Type := Z * R * R.

(** [InfSitesSelector::apply]: the result, the fitness values assigned,
    the output and the state afterwards. *)
Definition apply (noOutput : bool) (pop : Population) (st : State)
  : bool * list R * list Line * State :=
  let st := mkState (m_selFactory st) [] (m_additive st) (draws st) in
  let '(ok, fs, st') := BaseSelector_apply (individuals pop) st in
  if negb ok then (false, fs, [], st')
  else
    let out :=
      if negb (bool_decide (m_newMutants st' = [])) && negb noOutput then
        (λ it, let s := default (0%R, 0%R) (m_selFactory st' !! it) in
               (it, s.1, s.2)) <$> m_newMutants st'
      else [] in
    (true, fs, out, st').

(** The operations of the operator, and a sequence of them. *)
Inductive Op :=
| OpGetFitnessValue (mutant : Z)
| OpIndFitness (geno : list Z)
| OpApply (noOutput : bool) (pop : Population).

Definition runOp (o : Op) (st : State) : State :=
  match o with
  | OpGetFitnessValue mutant => (getFitnessValue mutant st).2
  | OpIndFitness geno => (indFitness geno st).2
  | OpApply noOutput pop => (apply noOutput pop st).2
  end.

Definition runOps (os : list Op) (st : State) : State :=
  foldl (λ st o, runOp o st) st os.

End Operator.

End InfSitesSelector.

(** ** InfSitesMutator *)

Module InfSitesMutator.

(** [ULONG] is an unsigned long of 64 bits; a subtraction wraps around. *)
Definition ULONG_modulus : Z := 2 ^ 64.
Definition usub (a b : Z) : Z := (a - b) mod ULONG_modulus.

(** One line of output: generation, position, individual, event code. *)
Abbreviation Line := (Z * Z * nat * Z)%type.

(** The population, the registry [m_mutants], the local variable
    [saturated] of [apply], the lines written to the output and the number
    of draws made from the random number generator. *)
Record State := mkState {
  pop : Population;
  m_mutants : list Z;
  saturated : bool;
  out : list Line;
  draws : nat;
}.

Definition set_pop (f : Population → Population) (st : State) : State :=
  mkState (f (pop st)) (m_mutants st) (saturated st) (out st) (draws st).
Definition set_mutants (f : list Z → list Z) (st : State) : State :=
  mkState (pop st) (f (m_mutants st)) (saturated st) (out st) (draws st).
Definition set_saturated (b : bool) (st : State) : State :=
  mkState (pop st) (m_mutants st) b (out st) (draws st).
Definition tick (st : State) : State :=
  mkState (pop st) (m_mutants st) (saturated st) (out st) (S (draws st)).

(** The elements of a set after the one at [loc]. *)
Definition after (loc : Z) (s : list Z) : list Z := filter (λ x, loc < x) s.

(** [for (; it1 != m_mutants.end() && loc1 != end; ++it1, ++loc1)
      if ( *it1 != loc1) return loc1;]
    over the elements [its] the iterator visits. *)
Fixpoint scanForward (its : list Z) (loc1 end_ : Z) : option Z :=
  match its with
  | [] => None
  | x :: its' =>
      if decide (loc1 = end_) then None
      else if decide (x ≠ loc1) then Some loc1
      else scanForward its' (loc1 + 1) end_
  end.

(** [for (; it2 != m_mutants.rend() && loc2 != beg; --it2, --loc2)
      if ( *it2 != loc2) return loc2;]
    over the elements [its] the iterator visits. *)
Fixpoint scanBackward (its : list Z) (loc2 beg : Z) : option Z :=
  match its with
  | [] => None
  | x :: its' =>
      if decide (loc2 = beg) then None
      else if decide (x ≠ loc2) then Some loc2
      else scanBackward its' (usub loc2 1) beg
  end.

(** The two scans around the element [loc] of the set [s].  The forward
    iterator starts at the successor of [loc].  The reverse iterator is
    built from the iterator at [loc] and decremented once, after which it
    designates [loc] itself; every further [--it2] moves it to the next
    greater element. *)
Definition scanAround (s : list Z) (loc beg end_ : Z) : option Z :=
  match scanForward (after loc s) (loc + 1) end_ with
  | Some l => Some l
  | None => scanBackward (loc :: after loc s) (usub loc 1) beg
  end.

Section Operator.

Variable m_ranges : list (Z * Z).
Variable m_model : Z.
Variable noOutput : bool.
(** [applicableSubPops(pop)] *)
Variable subPops : list nat.
(** [getRNG().randGeometric(m_rate)] and [getRNG().randInt(n)] at the
    [k]-th draw. *)
Variable randGeometric : nat → positive.
Variable randInt : nat → Z → Z.

(** [locateVacantLocus].  Up to the rebuild (lines 326 to 345) the model
    follows the source step by step.  After [m_mutants.clear()] the source
    copies the iterator [it] it obtained before (lines 358 and 364), which
    the rebuild has invalidated: C++ gives these two scans no meaning.
    The model takes [it] to stand at [loc] in the rebuilt set; the
    theorems below that say which location is returned concern the lines
    before the rebuild. *)
Definition locateVacantLocus (beg end_ : Z) (st : State) : Z * State :=
  let loc := randInt (draws st) (usub end_ beg) + beg in
  let st := tick st in
  if negb (StdSet.mem loc (m_mutants st)) then (loc, st)
  else
    (* look forward and backward *)
    match scanAround (m_mutants st) loc beg end_ with
    | Some l => (l, st)
    | None =>
        (* rebuild *)
        let st :=
          set_mutants (λ _, StdSet.of_range (sites (popGeno (pop st)))) st in
        (* try again *)
        match scanAround (m_mutants st) loc beg end_ with
        | Some l => (l, st)
        | None => (0, st)      (* still cannot find *)
        end
    end.

(** [if (out) ( *out) << ...] *)
Definition logLine (line : Line) (st : State) : State :=
  if noOutput then st
  else mkState (pop st) (m_mutants st) (saturated st) (out st ++ [line])
               (draws st).

(** The index of the first empty entry among [l], the entries from index
    [k] on. *)
Fixpoint firstZero (k : nat) (l : list Z) : option nat :=
  match l with
  | [] => None
  | a :: l' => if decide (a = 0) then Some k else firstZero (S k) l'
  end.

(** The back mutation at index [j]: the last site of the slot takes the
    place of the one at [j].  The boolean tells whether an empty entry
    was found after [j]. *)
Definition backMutation (j : nat) (geno : Slot) : Slot * bool :=
  match firstZero (S j) (drop (S j) geno) with
  | Some k =>
      (<[(k - 1)%nat := 0]> (<[j := geno !!! (k - 1)%nat]> geno), true)
  | None => (geno, false)
  end.

(** The loop over the entries [j] of the slot; [rest] are the entries
    from index [j] on.  The result is the slot and the event code put
    out, if any. *)
Fixpoint scanSlot (j : nat) (rest : list Z) (geno : Slot) (mutLoc : Z)
  : Slot * option Z :=
  match rest with
  | [] => (geno, None)
  | a :: rest' =>
      if decide (a = 0) then
        (* record mutation here *)
        (<[j := mutLoc]> geno, Some 0)
      else if decide (a = mutLoc) then
        (* back mutation *)
        let '(geno', found) := backMutation j geno in
        (geno', if found then Some 1 else None)
      else scanSlot (S j) rest' geno mutLoc
  end.

Definition placeInSlot (geno : Slot) (mutLoc : Z) : Slot * option Z :=
  scanSlot 0 geno geno mutLoc.

(** The end of the loop body: grow the chromosome if its last locus is
    taken, then write into the slot.  The source writes
    [ToAllele(mutLoc)]; the model writes [mutLoc], which is the same for
    the locations the allele type can store (the others are refused by the
    check of line 470 in a debug build). *)
Definition place (indIndex p ch : nat) (mutLoc : Z) (st : State) : State :=
  let geno := getSlot (pop st) indIndex p ch in
  let nLoci := numLoci (pop st) !!! ch in
  let pop1 :=
    if decide (geno !!! (nLoci - 1)%nat ≠ 0) then addLoci ch 10 (pop st)
    else pop st in
  let geno := getSlot pop1 indIndex p ch in
  let '(geno', event) := placeInSlot geno mutLoc in
  let st1 := set_pop (λ _, setSlot pop1 indIndex p ch geno') st in
  match event with
  | Some code => logLine (gen pop1, mutLoc, indIndex, code) st1
  | None => st1
  end.

(** The loop body once the position has been mapped to a copy [p], a
    chromosome [ch] and a location [mutLoc]. *)
Definition mutateAt (indIndex p ch : nat) (mutLoc : Z) (st : State) : State :=
  if decide (m_model = 2) then
    if saturated st then
      logLine (gen (pop st), mutLoc, indIndex, 3) st
    else
      (* under an infinite-site model *)
      if StdSet.mem mutLoc (m_mutants st) then
        (* there is an existing allele *)
        if bool_decide (mutLoc ∈ popGeno (pop st)) then
          (* hit an existing locus, find another one *)
          let '(newLoc, st1) :=
            locateVacantLocus (m_ranges !!! ch).1 (m_ranges !!! ch).2 st in
          let st2 :=
            logLine (gen (pop st1), mutLoc, indIndex,
                     if decide (newLoc = 0) then 3 else 2) st1 in
          if decide (newLoc ≠ 0) then
            place indIndex p ch newLoc
                  (set_mutants (StdSet.insert newLoc) st2)
          else
            (* ignore this mutation, and subsequent mutations *)
            set_saturated true st2
        else
          place indIndex p ch mutLoc (set_mutants (StdSet.insert mutLoc) st)
      else
        place indIndex p ch mutLoc (set_mutants (StdSet.insert mutLoc) st)
  else place indIndex p ch mutLoc st.

(** [width]: the cumulated widths of the ranges. *)
Fixpoint cumWidths (ranges : list (Z * Z)) (prev : Z) : list Z :=
  match ranges with
  | [] => []
  | (b, e) :: ranges' => (e - b + prev) :: cumWidths ranges' (e - b + prev)
  end.

Definition width : list Z := cumWidths m_ranges 0.
Definition ploidyWidth : Z := List.last width 0.
Definition indWidth (pop : Population) : Z :=
  Z.of_nat (ploidy pop) * ploidyWidth.

(** The first region whose cumulated width exceeds [mutLoc], or 0. *)
Fixpoint findRegion (ws : list Z) (reg : nat) (mutLoc : Z) : nat :=
  match ws with
  | [] => 0%nat
  | w :: ws' =>
      if decide (mutLoc < w) then reg else findRegion ws' (S reg) mutLoc
  end.

(** The loop body for the cursor [loc]. *)
Definition mutate (indIndex : nat) (loc : Z) (st : State) : State :=
  let p := (loc - 1) / ploidyWidth in
  (* chromosome and position on chromosome? *)
  let mutLoc := (loc - 1) - p * ploidyWidth in
  let ch := findRegion width 0 mutLoc in
  let mutLoc := mutLoc + (m_ranges !!! ch).1 in
  let mutLoc :=
    if decide (0 < ch)%nat then mutLoc - width !!! (ch - 1)%nat else mutLoc in
  mutateAt indIndex (Z.to_nat p) ch mutLoc st.

(** [while (true)]: the cursor advances by a geometric draw until it
    passes [iw], the width of an individual.  [None] when [fuel] runs
    out. *)
Fixpoint whileLoop (fuel : nat) (iw : Z) (indIndex : nat) (loc : Z)
    (st : State) : option State :=
  match fuel with
  | O => None
  | S fuel' =>
      let loc := loc + Z.pos (randGeometric (draws st)) in
      let st := tick st in
      if decide (loc > iw) then Some st
      else whileLoop fuel' iw indIndex loc (mutate indIndex loc st)
  end.

(** The loop over the individuals of a subpopulation. *)
Fixpoint indLoop (iw : Z) (indexes : list nat) (st : State) : option State :=
  match indexes with
  | [] => Some st
  | indIndex :: indexes' =>
      st' ← whileLoop (S (Z.to_nat iw)) iw indIndex 0 st;
      indLoop iw indexes' st'
  end.

(** The loop over the subpopulations. *)
Fixpoint spLoop (iw : Z) (sps : list nat) (st : State) : option State :=
  match sps with
  | [] => Some st
  | sp :: sps' =>
      st' ← indLoop iw (seq 0 (subPopSizes (pop st) !!! sp)) st;
      spLoop iw sps' st'
  end.

(** What remains of a call after an attempt: the rest of the loop of the
    current individual from the cursor [loc], the individuals [inds] that
    follow in the subpopulation, and the subpopulations [sps] that
    follow. *)
Definition restOfCall (fuel : nat) (iw : Z) (indIndex : nat) (loc : Z)
    (inds sps : list nat) (st : State) : option State :=
  st1 ← whileLoop fuel iw indIndex loc st;
  st2 ← indLoop iw inds st1;
  spLoop iw sps st2.

(** [InfSitesMutator::apply], from a population and a registry. *)
Definition apply (pop0 : Population) (mutants : list Z) (draws0 : nat)
  : option (bool * State) :=
  let st := mkState pop0 mutants false [] draws0 in
  st' ← spLoop (indWidth pop0) subPops st;
  Some (true, st').

End Operator.

End InfSitesMutator.

(** ** InfSitesRecombinator *)

Module InfSitesRecombinator.

(** The offspring population and the number of draws made from the random
    number generator. *)
Record State := mkState {
  offPop : Population;
  draws : nat;
}.

(** [parent.numChrom()] *)
Definition numChromOf (parent : Individual) : nat :=
  length (parent !!! 0%nat).

(** [for (; it != it_end; ++it) { if ( *it == 0) break; ... }]: count the
    sites up to the first empty entry. *)
Fixpoint countUntilZero (geno : list Z) (cnt : list (Z * nat))
  : list (Z * nat) :=
  match geno with
  | [] => cnt
  | a :: geno' =>
      if decide (a = 0) then cnt
      else countUntilZero geno' (MutCounter.count a cnt)
  end.

Section Operator.

(** [getRNG().randBit()] at the [k]-th draw. *)
Variable randBit : nat → bool.

(** The occurrences counted for chromosome [ch] of the parent. *)
Definition countParent (parent : Individual) (ch : nat) : list (Z * nat) :=
  if decide (numChromOf parent = 1%nat) then
    (* this is faster... for a most common case *)
    countUntilZero (genoAll parent) []
  else
    countUntilZero (genoPCh parent 1 ch)
      (countUntilZero (genoPCh parent 0 ch) []).

(** keep 1 count with probability 0.5, keep 2 count with probability 1 *)
Fixpoint keep (cnt : list (Z * nat)) (d : nat) : list Z * nat :=
  match cnt with
  | [] => ([], d)
  | (k, c) :: cnt' =>
      if decide (c = 2%nat) then
        let '(alleles, d') := keep cnt' d in (k :: alleles, d')
      else if randBit d then
        let '(alleles, d') := keep cnt' (S d) in (k :: alleles, d')
      else keep cnt' (S d)
  end.

(** The body of the loop over the chromosomes.  The iterators [it] and
    [it_end] of the offspring slot are taken before the chromosome is
    grown (lines 551 and 552).  When it is not grown, the slot is written
    from its beginning and filled with zeros to its end.  When it is grown
    (line 574), [addLoci] moves the genotypes and the two iterators no
    longer designate the slot: the writes of lines 577 to 581 go through
    them all the same and do not reach the offspring, whose slot is left
    as [addLoci] made it. *)
Definition transmitChrom (parent : Individual) (offIndex ploidy ch : nat)
    (st : State) : State :=
  let cnt := countParent parent ch in
  let slot := getSlot (offPop st) offIndex ploidy ch in
  if decide (cnt = []) then
    (* no valid allele *)
    mkState (setSlot (offPop st) offIndex ploidy ch
               (replicate (length slot) 0))
            (draws st)
  else
    let '(alleles, d) := keep cnt (draws st) in
    let nLoci := numLoci (offPop st) !!! ch in
    if decide (nLoci < length alleles + 1)%nat then
      (* not enough size *)
      mkState (addLoci ch (length alleles - nLoci + 2) (offPop st)) d
    else
      mkState (setSlot (offPop st) offIndex ploidy ch
                 (alleles ++ replicate (length slot - length alleles) 0))
              d.

(** [transmitGenotype0] *)
Definition transmitGenotype0 (parent : Individual) (offIndex ploidy : nat)
    (st : State) : State :=
  foldl (λ st ch, transmitChrom parent offIndex ploidy ch st) st
        (seq 0 (numChromOf parent)).

End Operator.

End InfSitesRecombinator.

(** ** InfSitesRecombinator: recombination at a given rate *)

Module Crossover.
Import InfSitesMutator InfSitesRecombinator.

(** Modelled from the spec: [copyChromosome] is not part of the sources;
    it copies chromosome [ch] of copy [p] of the parent, verbatim, into
    chromosome [ch] of copy [ploidy] of the offspring. *)
Definition copyChromosome (parent : Individual) (p offIndex ploidy ch : nat)
    (pop : Population) : Population :=
  setSlot pop offIndex ploidy ch (genoPCh parent p ch).

(** [a[p]] and [a[p] = x] for an array of two. *)
Definition sel {A} (p : nat) (a : A * A) : A :=
  match p with O => a.1 | _ => a.2 end.
Definition upd {A} (p : nat) (x : A) (a : A * A) : A * A :=
  match p with O => (x, a.2) | _ => (a.1, x) end.

(** [for (; it != it_end; ++it) { if ( *it == 0) break; ++cnt[p];
      if ( *it < minAllele[p]) minAllele[p] = *it;
      if ( *it > maxAllele[p]) maxAllele[p] = *it; }] *)
Fixpoint scanCopy (geno : list Z) (cnt mn mx : Z) : Z * Z * Z :=
  match geno with
  | [] => (cnt, mn, mx)
  | a :: geno' =>
      if decide (a = 0) then (cnt, mn, mx)
      else scanCopy geno' (cnt + 1) (if decide (a < mn) then a else mn)
                    (if decide (a > mx) then a else mx)
  end.

(** copy piece: the sites from [lo] to below [hi], up to the first empty
    entry. *)
Fixpoint copyPiece (geno : list Z) (lo hi : Z) (alleles : list Z) (cnt : Z)
  : list Z * Z :=
  match geno with
  | [] => (alleles, cnt)
  | a :: geno' =>
      if decide (a = 0) then (alleles, cnt)
      else if bool_decide (a >= lo) && bool_decide (a < hi) then
        copyPiece geno' lo hi (alleles ++ [a]) (usub cnt 1)
      else copyPiece geno' lo hi alleles cnt
  end.

(** last piece: every entry from [lo] to below [hi]. *)
Fixpoint lastPiece (geno : list Z) (lo hi : Z) (alleles : list Z) : list Z :=
  match geno with
  | [] => alleles
  | a :: geno' =>
      if bool_decide (a >= lo) && bool_decide (a < hi) then
        lastPiece geno' lo hi (alleles ++ [a])
      else lastPiece geno' lo hi alleles
  end.

(** The variables of the [do ... while] loop, and the number of draws. *)
Record Vars := mkVars {
  alleles : list Z;
  cnt : Z * Z;
  p : nat;
  beg : Z;
  end_ : Z;
  d : nat;
}.

(** set alleles: grow the chromosome if there is not enough size, write
    the alleles and fill the rest with 0. *)
Definition setAlleles (offIndex ploidy ch : nat) (alleles : list Z)
    (pop : Population) : Population :=
  let nLoci := numLoci pop !!! ch in
  let pop1 :=
    (* not enough size *)
    if decide (nLoci < length alleles + 1)%nat then
      addLoci ch (length alleles - nLoci + 2) pop
    else pop in
  let slot := getSlot pop1 offIndex ploidy ch in
  setSlot pop1 offIndex ploidy ch
          (alleles ++ replicate (length slot - length alleles) 0).

Section Operator.

Variable m_ranges : list (Z * Z).
(** [getRNG().randGeometric(m_rate)] and [getRNG().randBit()] at the
    [k]-th draw. *)
Variable randGeometric : nat → positive.
Variable randBit : nat → bool.

(** The body of the [do ... while] loop. *)
Definition piece (parent : Individual) (ch : nat) (r0 : Z)
    (minAllele maxAllele : Z * Z) (v : Vars) : Vars :=
  let '(alleles', cnt') :=
    if bool_decide (sel (p v) (cnt v) > 0) &&
       bool_decide (end_ v >= sel (p v) minAllele) &&
       bool_decide (beg v <= sel (p v) maxAllele) then
      let '(al, c) :=
        copyPiece (genoPCh parent (p v) ch) (beg v + r0) (end_ v + r0)
                  (alleles v) (sel (p v) (cnt v)) in
      (al, upd (p v) c (cnt v))
    else (alleles v, cnt v) in
  (* change ploidy, next step *)
  mkVars alleles' cnt' ((p v + 1) mod 2) (end_ v)
         (end_ v + Z.pos (randGeometric (d v))) (S (d v)).

(** [do { ... } while (end < width && (cnt[0] > 0 || cnt[1] > 0));]
    [None] when [fuel] runs out. *)
Fixpoint doWhile (fuel : nat) (parent : Individual) (ch : nat) (r0 width : Z)
    (minAllele maxAllele : Z * Z) (v : Vars) : option Vars :=
  match fuel with
  | O => None
  | S fuel' =>
      let v' := piece parent ch r0 minAllele maxAllele v in
      if bool_decide (end_ v' < width) &&
         (bool_decide ((cnt v').1 > 0) || bool_decide ((cnt v').2 > 0)) then
        doWhile fuel' parent ch r0 width minAllele maxAllele v'
      else Some v'
  end.

(** The body of the loop over the chromosomes. *)
Definition transmitChrom1 (parent : Individual) (offIndex ploidy ch : nat)
    (st : State) : option State :=
  let r := m_ranges !!! ch in
  let width := r.2 - r.1 in
  let end0 := Z.pos (randGeometric (draws st)) in
  let p0 := if randBit (S (draws st)) then 0%nat else 1%nat in
  let d0 := S (S (draws st)) in
  (* no recombination *)
  if bool_decide (end0 >= width) then
    Some (mkState (copyChromosome parent p0 offIndex ploidy ch (offPop st)) d0)
  else
    let '(cnt0, min0, max0) := scanCopy (genoPCh parent 0 ch) 0 r.2 r.1 in
    let '(cnt1, min1, max1) := scanCopy (genoPCh parent 1 ch) 0 r.2 r.1 in
    let minAllele := (usub min0 r.1, usub min1 r.1) in
    let maxAllele := (usub max0 r.1, usub max1 r.1) in
    v ← doWhile (Z.to_nat width) parent ch r.1 width minAllele maxAllele
                (mkVars [] (cnt0, cnt1) p0 0 end0 d0);
    let alleles :=
      if bool_decide ((cnt v).1 > 0) || bool_decide ((cnt v).2 > 0) then
        lastPiece (genoPCh parent (p v) ch) (beg v + r.1) r.2 (alleles v)
      else alleles v in
    Some (mkState (setAlleles offIndex ploidy ch alleles (offPop st)) (d v)).

(** [transmitGenotype1] *)
Fixpoint chromLoop (parent : Individual) (offIndex ploidy : nat)
    (chs : list nat) (st : State) : option State :=
  match chs with
  | [] => Some st
  | ch :: chs' =>
      st' ← transmitChrom1 parent offIndex ploidy ch st;
      chromLoop parent offIndex ploidy chs' st'
  end.

Definition transmitGenotype1 (parent : Individual) (offIndex ploidy : nat)
    (st : State) : option State :=
  chromLoop parent offIndex ploidy (seq 0 (numChromOf parent)) st.

Variable m_rate : R.

(** standard genotype transmitter: for every chromosome, one copy of mom
    chosen by a coin flip goes to copy 0 of the offspring, and one copy of
    dad to copy 1. *)
Fixpoint copyLoop (mom dad : Individual) (offIndex : nat) (chs : list nat)
    (st : State) : State :=
  match chs with
  | [] => st
  | ch :: chs' =>
      let st1 :=
        mkState (copyChromosome mom (if randBit (draws st) then 1 else 0)
                   offIndex 0 ch (offPop st))
                (S (draws st)) in
      let st2 :=
        mkState (copyChromosome dad (if randBit (draws st1) then 1 else 0)
                   offIndex 1 ch (offPop st1))
                (S (draws st1)) in
      copyLoop mom dad offIndex chs' st2
  end.

(** [applyDuringMating].  [applicable] is the value of
    [applicableToAllOffspring() || applicableToOffspring(offPop, offspring)],
    [numChrom] is [pop.numChrom()] and [offIndex] is
    [offspring - offPop.rawIndBegin()].
    Modelled from the spec: [initializeIfNeeded] is not part of the
    sources; it is the lazy initialization of the operator and leaves the
    populations as they are. *)
Definition applyDuringMating (applicable : bool) (numChrom : nat)
    (mom dad : Individual) (offIndex : nat) (st : State)
  : option (bool * State) :=
  (* if offspring does not belong to subPops, do nothing, but does not fail *)
  if negb applicable then Some (true, st)
  else if decide (m_rate = 0%R) then
    Some (true, copyLoop mom dad offIndex (seq 0 numChrom) st)
  else if decide (m_rate = (1 / 2)%R) then
    Some (true,
          transmitGenotype0 randBit dad offIndex 1
            (transmitGenotype0 randBit mom offIndex 0 st))
  else
    st1 ← transmitGenotype1 mom offIndex 0 st;
    st2 ← transmitGenotype1 dad offIndex 1 st1;
    Some (true, st2).

End Operator.

End Crossover.

(** ** Predicates and functions used in the statements *)

(** The slot of copy [p], chromosome [ch] of individual [indIndex]. *)
Definition slotAt (pop : Population) (indIndex p ch : nat) (slot : Slot)
  : Prop :=
  ∃ ind copy,
    individuals pop !! indIndex = Some ind ∧ ind !! p = Some copy ∧
    copy !! ch = Some slot.

(** The number of entries of [l] equal to [k]. *)
Definition occ (k : Z) (l : list Z) : nat := length (filter (λ y, y = k) l).

Fixpoint Rsum (l : list R) : R :=
  match l with
  | [] => 0%R
  | x :: l' => (x + Rsum l')%R
  end.

(** The coefficients stored for a site, [(0, 0)] if there are none. *)
Definition coef (st : InfSitesSelector.State) (a : Z) : R * R :=
  default (0%R, 0%R) (InfSitesSelector.m_selFactory st !! a).

(** The additive flag does not go from [false] to [true]. *)
Definition keeps_false (st st' : InfSitesSelector.State) : Prop :=
  InfSitesSelector.m_additive st = false →
  InfSitesSelector.m_additive st' = false.

(** Both coefficients lie between 0 and 1. *)
Definition unit_coef (sf : R * R) : Prop :=
  (0 <= sf.1 <= 1)%R ∧ (0 <= sf.2 <= 1)%R.

(** Neither coefficient is negative. *)
Definition nonneg_coef (sf : R * R) : Prop := (0 <= sf.1)%R ∧ (0 <= sf.2)%R.

(** The pairs for which the fitness stays in range: between 0 and 1 in
    the multiplicative mode, not negative in the others. *)
Definition admissible (mode : InfSitesSelector.Mode) (sf : R * R) : Prop :=
  match mode with
  | InfSitesSelector.MULTIPLICATIVE => unit_coef sf
  | _ => nonneg_coef sf
  end.

(** Every pair of the selection map satisfies [P]. *)
Definition cache_in (P : R * R → Prop) (st : InfSitesSelector.State) : Prop :=
  map_Forall (λ _ sf, P sf) (InfSitesSelector.m_selFactory st).

(** From [st] to [st'] the mutator has only written lines of code 3, and
    none without an output. *)
Definition frozen (noOutput : bool) (st st' : InfSitesMutator.State) : Prop :=
  InfSitesMutator.pop st' = InfSitesMutator.pop st ∧
  InfSitesMutator.m_mutants st' = InfSitesMutator.m_mutants st ∧
  InfSitesMutator.saturated st' = InfSitesMutator.saturated st ∧
  ∃ lines, InfSitesMutator.out st' = InfSitesMutator.out st ++ lines ∧
           Forall (λ l : Z * Z * nat * Z, l.2 = 3) lines ∧
           (noOutput = true → lines = []).

(** The selection map of [st] extends that of [st0] without changing an
    entry, and [m_newMutants] lists the sites it has more, each once. *)
Definition grows_from (st0 st : InfSitesSelector.State) : Prop :=
  (∀ k v, InfSitesSelector.m_selFactory st0 !! k = Some v →
          InfSitesSelector.m_selFactory st !! k = Some v) ∧
  NoDup (InfSitesSelector.m_newMutants st) ∧
  ∀ k, k ∈ InfSitesSelector.m_newMutants st ↔
       InfSitesSelector.m_selFactory st0 !! k = None ∧
       is_Some (InfSitesSelector.m_selFactory st !! k).

(** The copy, the chromosome and the location that the position [loc] of
    the cursor stands for: the first lines of the loop body of
    [InfSitesMutator::apply]. *)
Definition mapLoc (m_ranges : list (Z * Z)) (loc : Z) : nat * nat * Z :=
  let ploidyWidth := InfSitesMutator.ploidyWidth m_ranges in
  let width := InfSitesMutator.width m_ranges in
  let p := (loc - 1) / ploidyWidth in
  (* chromosome and position on chromosome? *)
  let mutLoc := (loc - 1) - p * ploidyWidth in
  let ch := InfSitesMutator.findRegion width 0 mutLoc in
  let mutLoc := mutLoc + (m_ranges !!! ch).1 in
  let mutLoc :=
    if decide (0 < ch)%nat then mutLoc - width !!! (ch - 1)%nat else mutLoc in
  (Z.to_nat p, ch, mutLoc).

(** The sites of a slot that are not below [b]. *)
Definition sitesFrom (b : Z) (g : list Z) : list Z :=
  filter (λ a, b ≤ a) (sites g).

(** Every slot of the population is packed left and holds no site
    twice. *)
Definition tidy (pop : Population) : Prop :=
  ∀ ind copy slot,
    ind ∈ individuals pop → copy ∈ ind → slot ∈ copy →
    packed slot ∧ NoDup (sites slot).

(** ** Example data *)

(** An example population: two diploid individuals, one chromosome of
    four loci.  Site 5 is on both copies of both individuals. *)
Definition pop_fixed5 : Population :=
  mkPop 2 [4%nat] [2%nat]
        [ [[[7; 5; 0; 0]]; [[5; 9; 7; 0]]];
          [[[5; 3; 5; 0]]; [[8; 5; 0; 0]]] ]
        12.

(** The same population without the second individual's second copy of
    site 5: nothing is fixed. *)
Definition pop_nofixed : Population :=
  mkPop 2 [4%nat] [2%nat]
        [ [[[7; 5; 0; 0]]; [[5; 9; 7; 0]]];
          [[[5; 3; 5; 0]]; [[8; 0; 0; 0]]] ]
        12.

(** A function of no parameter whose result is not a number. *)
Definition func_none : InfSitesSelector.pyFunc :=
  InfSitesSelector.mkPyFunc 0 (λ _ _, InfSitesSelector.PyOther).

(** A function of the site whose [n]-th call returns the number [n]. *)
Definition func_draw : InfSitesSelector.pyFunc :=
  InfSitesSelector.mkPyFunc 1 (λ n _, InfSitesSelector.PyNumber (INR n)).

(** A function that always returns the sequence [(0.1, 0.3)]. *)
Definition func_dom : InfSitesSelector.pyFunc :=
  InfSitesSelector.mkPyFunc 1
    (λ _ _, InfSitesSelector.PySequence (1 / 10)%R [(3 / 10)%R]).

Definition no_gamma : nat → R → R → R := λ _ _ _, 0%R.

Definition st_empty : InfSitesSelector.State :=
  InfSitesSelector.mkState ∅ [] true 0.

(** Site 7 with a negative coefficient (an advantageous mutation). *)
Definition st_neg : InfSitesSelector.State :=
  InfSitesSelector.mkState {[7 := ((-1)%R, (1 / 2)%R)]} [] false 0.

(** Site 7 with a coefficient above one. *)
Definition st_big : InfSitesSelector.State :=
  InfSitesSelector.mkState {[7 := (3%R, (1 / 2)%R)]} [] false 0.

(** Sites 5 and 7, both with dominance 0.5. *)
Definition st_half : InfSitesSelector.State :=
  InfSitesSelector.mkState
    (<[5 := ((1 / 10)%R, (1 / 2)%R)]> {[7 := ((2 / 10)%R, (1 / 2)%R)]})
    [] true 0.

(** A genotype of two slots: sites 5 and 7, then sites 7 and 9. *)
Definition geno_57_79 : list Z := [5; 7; 0; 7; 9; 0].

(** A diploid individual with two chromosomes of two loci; site 5 is the
    one site of each of its four slots. *)
Definition ind_site5 : Individual :=
  [ [[5; 0]; [5; 0]]; [[5; 0]; [5; 0]] ].

(** One diploid individual with one chromosome of three loci; site 1 on
    its first copy. *)
Definition pop_mut : Population :=
  mkPop 2 [3%nat] [1%nat] [ [[[1; 0; 0]]; [[0; 0; 0]]] ] 7.

(** The random number generator always draws 3 from the geometric
    distribution and 1 from the uniform one. *)
Definition geo3 : nat → positive := λ _, 3%positive.
Definition int1 : nat → Z → Z := λ _ _, 1.

(** The random number generator always draws 0 from the uniform
    distribution. *)
Definition int0 : nat → Z → Z := λ _ _, 0.

(** The registry holds site 1 only. *)
Definition st_mut : InfSitesMutator.State :=
  InfSitesMutator.mkState pop_mut [1] false [] 0.

(** The registry also holds site 4, which no genotype holds. *)
Definition st_stale : InfSitesMutator.State :=
  InfSitesMutator.mkState pop_mut [1; 4] false [] 0.

(** A parent with one chromosome, homozygous for site 5, and a parent
    with two chromosomes, homozygous for site 5 on the first. *)
Definition parent_one_chrom : Individual := [ [[5; 0; 0]]; [[5; 0; 0]] ].
Definition parent_two_chrom : Individual :=
  [ [[5; 0; 0]; [0; 0; 0]]; [[5; 0; 0]; [0; 0; 0]] ].

(** Offspring populations of one individual, not yet written. *)
Definition off_one_chrom : Population :=
  mkPop 2 [3%nat] [1%nat] [ [[[9; 9; 9]]; [[9; 9; 9]]] ] 7.
Definition off_two_chrom : Population :=
  mkPop 2 [3%nat; 3%nat] [1%nat]
        [ [[[9; 9; 9]; [9; 9; 9]]; [[9; 9; 9]; [9; 9; 9]]] ] 7.

(** Every coin flip fails. *)
Definition tails : nat → bool := λ _, false.

(** The registry holds sites 1, 2 and 4: location 3 is free. *)
Definition st_gap : InfSitesMutator.State :=
  InfSitesMutator.mkState pop_mut [1; 2; 4] false [] 0.

(** The registry holds every location from 1 to 4. *)
Definition st_taken : InfSitesMutator.State :=
  InfSitesMutator.mkState pop_mut [1; 2; 3; 4] false [] 0.

(** The random number generator always draws 3 from the uniform
    distribution. *)
Definition int3 : nat → Z → Z := λ _ _, 3.

(** One diploid individual with one chromosome of two loci; the slot of
    its first copy is full. *)
Definition pop_full : Population :=
  mkPop 2 [2%nat] [1%nat] [ [[[1; 2]]; [[0; 0]]] ] 7.
Definition st_full : InfSitesMutator.State :=
  InfSitesMutator.mkState pop_full [1; 2] false [] 0.

(** The ranges of two chromosomes. *)
Definition ranges_two : list (Z * Z) := [(0, 10); (10, 20)].

(** * Properties *)

(** ** Facts about the model of [std::set] *)

Section StdSetFacts.
Import StdSet.

Local Abbreviation inc := (StronglySorted Z.lt).

Lemma inc_cons_inv x s : inc (x :: s) → inc s ∧ ∀ y, y ∈ s → x < y.
Proof.
  intros H. apply StronglySorted_inv in H as [H1 H2].
  split; [done|]. by apply Forall_forall.
Qed.

Lemma inc_cons x s : inc s → (∀ y, y ∈ s → x < y) → inc (x :: s).
Proof. intros H1 H2. constructor; [done|]. by apply Forall_forall. Qed.

Lemma inc_not_elem x y s : inc (y :: s) → x < y → x ∉ y :: s.
Proof.
  intros [_ H]%inc_cons_inv Hlt [->|Hin]%elem_of_cons; [lia|].
  apply H in Hin. lia.
Qed.

Lemma elem_of_insert x s y : y ∈ insert x s ↔ y = x ∨ y ∈ s.
Proof.
  induction s as [|z s IH]; simpl.
  - rewrite list_elem_of_singleton. set_solver.
  - repeat case_decide; subst; rewrite ?elem_of_cons, ?IH; naive_solver.
Qed.

Lemma inc_insert x s : inc s → inc (insert x s).
Proof.
  induction s as [|z s IH]; simpl; intros Hs.
  - apply inc_cons; [done|]. intros y Hy. by apply elem_of_nil in Hy.
  - repeat case_decide; [|done|].
    + apply inc_cons; [done|]. intros y [->|Hy]%elem_of_cons; [done|].
      apply inc_cons_inv in Hs as [_ Hs]. apply Hs in Hy. lia.
    + apply inc_cons_inv in Hs as [Hs1 Hs2].
      apply inc_cons; [by apply IH|].
      intros y [->|Hy]%elem_of_insert; [lia|]. by apply Hs2.
Qed.

Lemma length_insert_le x s : (length (insert x s) ≤ S (length s))%nat.
Proof.
  induction s as [|z s IH]; simpl; [lia|].
  repeat case_decide; simpl; lia.
Qed.

Lemma of_range_acc l acc :
  inc acc →
  let r := foldl (λ s x, insert x s) acc l in
  inc r ∧ (∀ y, y ∈ r ↔ y ∈ acc ∨ y ∈ l) ∧
  (length r ≤ length acc + length l)%nat.
Proof.
  revert acc. induction l as [|x l IH]; simpl; intros acc Hacc.
  - split; [done|]. split; [set_solver|lia].
  - destruct (IH (insert x acc) (inc_insert x acc Hacc)) as (H1 & H2 & H3).
    split; [done|]. split.
    + intros y. rewrite H2, elem_of_insert, elem_of_cons. naive_solver.
    + pose proof (length_insert_le x acc). lia.
Qed.

Lemma inc_of_range l : inc (of_range l).
Proof. apply (of_range_acc l []). constructor. Qed.

Lemma elem_of_of_range l y : y ∈ of_range l ↔ y ∈ l.
Proof.
  destruct (of_range_acc l []) as (_ & H & _); [constructor|].
  unfold of_range. rewrite H. set_solver.
Qed.

Lemma length_of_range l : (length (of_range l) ≤ length l)%nat.
Proof.
  destruct (of_range_acc l []) as (_ & _ & H); [constructor|]. apply H.
Qed.

Lemma elem_of_erase x s y : inc s → y ∈ erase x s ↔ y ∈ s ∧ y ≠ x.
Proof.
  induction s as [|z s IH]; simpl; intros Hs; [set_solver|].
  apply inc_cons_inv in Hs as [Hs1 Hs2].
  case_decide; subst; rewrite ?elem_of_cons, ?IH by done.
  - split; [|naive_solver]. intros Hy. split; [by right|].
    apply Hs2 in Hy. lia.
  - naive_solver.
Qed.

Lemma inc_erase x s : inc s → inc (erase x s).
Proof.
  induction s as [|z s IH]; simpl; intros Hs; [done|].
  pose proof Hs as [Hs1 Hs2]%inc_cons_inv.
  case_decide; [done|]. apply inc_cons; [by apply IH|].
  intros y [Hy _]%elem_of_erase; [|done]. by apply Hs2.
Qed.

Lemma length_erase x s : (length (erase x s) ≤ length s)%nat.
Proof.
  induction s as [|z s IH]; simpl; [lia|]. case_decide; simpl; lia.
Qed.

Lemma set_intersection_nil_r a : set_intersection a [] = [].
Proof. by destruct a. Qed.

Lemma set_intersection_cons x a y b :
  set_intersection (x :: a) (y :: b) =
    if decide (x < y) then set_intersection a (y :: b)
    else if decide (y < x) then set_intersection (x :: a) b
    else x :: set_intersection a b.
Proof. done. Qed.

Lemma set_difference_nil_r a : set_difference a [] = a.
Proof. by destruct a. Qed.

Lemma set_difference_cons x a y b :
  set_difference (x :: a) (y :: b) =
    if decide (x < y) then x :: set_difference a (y :: b)
    else if decide (y < x) then set_difference (x :: a) b
    else set_difference a b.
Proof. done. Qed.

Lemma elem_of_set_intersection a b z :
  inc a → inc b → z ∈ set_intersection a b ↔ z ∈ a ∧ z ∈ b.
Proof.
  revert b. induction a as [|x a IHa]; intros b Ha Hb; [set_solver|].
  induction b as [|y b IHb].
  { rewrite set_intersection_nil_r. set_solver. }
  pose proof Ha as [Ha1 Ha2]%inc_cons_inv.
  pose proof Hb as [Hb1 Hb2]%inc_cons_inv.
  rewrite set_intersection_cons. repeat case_decide.
  - rewrite IHa by done. rewrite (elem_of_cons a).
    split; [naive_solver|]. intros [[->|?] Hz]; [|done].
    by apply inc_not_elem in Hz.
  - rewrite IHb by done. rewrite (elem_of_cons b).
    split; [naive_solver|]. intros [Hz [->|?]]; [|done].
    by apply inc_not_elem in Hz.
  - assert (x = y) as -> by lia.
    rewrite !elem_of_cons, IHa by done. split; [naive_solver|].
    intros [[Hz|Hz1] [Hz'|Hz2]]; auto.
Qed.

Lemma elem_of_set_difference a b z :
  inc a → inc b → z ∈ set_difference a b ↔ z ∈ a ∧ z ∉ b.
Proof.
  revert b. induction a as [|x a IHa]; intros b Ha Hb; [set_solver|].
  induction b as [|y b IHb].
  { rewrite set_difference_nil_r. set_solver. }
  pose proof Ha as [Ha1 Ha2]%inc_cons_inv.
  pose proof Hb as [Hb1 Hb2]%inc_cons_inv.
  rewrite set_difference_cons. repeat case_decide.
  - rewrite (elem_of_cons (set_difference _ _)), IHa by done.
    rewrite (elem_of_cons a).
    pose proof (inc_not_elem x y b Hb ltac:(done)). naive_solver.
  - rewrite IHb by done. rewrite (not_elem_of_cons b).
    split; [|intros [Hz [? ?]]; done]. intros [Hz ?]. split; [done|].
    split; [|done]. intros ->. by apply inc_not_elem in Hz.
  - assert (x = y) as -> by lia.
    rewrite IHa by done. rewrite elem_of_cons, not_elem_of_cons.
    split.
    + intros [Hz ?]. split; [by right|]. split; [|done].
      intros ->. apply Ha2 in Hz. lia.
    + intros [[Hz|Hz] [? ?]]; done.
Qed.

Lemma inc_set_difference a b : inc a → inc b → inc (set_difference a b).
Proof.
  revert b. induction a as [|x a IHa]; intros b Ha Hb; [done|].
  induction b as [|y b IHb].
  { by rewrite set_difference_nil_r. }
  pose proof Ha as [Ha1 Ha2]%inc_cons_inv.
  pose proof Hb as [Hb1 Hb2]%inc_cons_inv.
  rewrite set_difference_cons. repeat case_decide; auto.
  apply inc_cons; [by apply IHa|].
  intros z [Hz _]%elem_of_set_difference; auto.
Qed.

Lemma length_set_difference a b :
  (length (set_difference a b) ≤ length a)%nat.
Proof.
  revert b. induction a as [|x a IHa]; intros b; [done|].
  induction b as [|y b IHb].
  { by rewrite set_difference_nil_r. }
  rewrite set_difference_cons. repeat case_decide; [|done|].
  - specialize (IHa (y :: b)). simpl. lia.
  - specialize (IHa b). simpl. lia.
Qed.

End StdSetFacts.

(** ** RevertFixedSites *)

Section RevertFixedSitesFacts.
Import StdSet RevertFixedSites.

Local Abbreviation inc := (StronglySorted Z.lt).

Lemma intersect_all_spec c inds :
  inc c →
  match intersect_all c inds with
  | Some r =>
      inc r ∧ (c ≠ [] → r ≠ []) ∧
      ∀ x, x ∈ r ↔
           x ∈ c ∧ ∀ ind, ind ∈ inds → x ∈ genoP ind 0 ∧ x ∈ genoP ind 1
  | None =>
      ∀ x, x ∈ c → ¬ ∀ ind, ind ∈ inds → x ∈ genoP ind 0 ∧ x ∈ genoP ind 1
  end.
Proof.
  revert c. induction inds as [|it rest IH]; intros c Hc; simpl.
  { split; [done|]. split; [done|]. set_solver. }
  set (c' := of_range (set_intersection
               (of_range (set_intersection c (of_range (genoP it 0))))
               (of_range (genoP it 1)))).
  assert (Hc' : ∀ x, x ∈ c' ↔ x ∈ c ∧ x ∈ genoP it 0 ∧ x ∈ genoP it 1).
  { intros x. unfold c'.
    rewrite elem_of_of_range, elem_of_set_intersection
      by auto using inc_of_range.
    rewrite !elem_of_of_range, elem_of_set_intersection
      by auto using inc_of_range.
    rewrite elem_of_of_range. naive_solver. }
  case_decide as Hlen.
  - apply nil_length_inv in Hlen. intros x Hx Hall.
    assert (x ∈ c') as Hin.
    { apply Hc'. split; [done|]. apply Hall. by left. }
    rewrite Hlen in Hin. by apply elem_of_nil in Hin.
  - specialize (IH c' (inc_of_range _)).
    destruct (intersect_all c' rest) as [r|].
    + destruct IH as (Hr1 & Hr2 & Hr3). split; [done|]. split.
      * intros _. apply Hr2. intros E. by rewrite E in Hlen.
      * intros x. rewrite Hr3, Hc'. split.
        -- intros [(? & ? & ?) Hrest]. split; [done|].
           intros ind [->|?]%elem_of_cons; auto.
        -- intros [? Hall]. split.
           ++ split; [done|]. apply Hall. by left.
           ++ intros ind ?. apply Hall. by right.
    + intros x Hx Hall. apply (IH x).
      * apply Hc'. split; [done|]. apply Hall. by left.
      * intros ind ?. apply Hall. by right.
Qed.

Lemma fixedSites_spec pop :
  match fixedSites pop with
  | Some r => r ≠ [] ∧ inc r ∧ ∀ x, x ∈ r ↔ fixed pop x
  | None => popSize pop = 0%nat ∨ totNumLoci pop = 0%nat ∨ ∀ x, ¬ fixed pop x
  end.
Proof.
  unfold fixedSites. case_decide as H0; [tauto|].
  destruct (individuals pop) as [|it rest] eqn:E.
  { left. unfold popSize. by rewrite E. }
  set (c := erase 0 (of_range (genoP it 0))).
  assert (Hc : ∀ x, x ∈ c ↔ x ∈ genoP it 0 ∧ x ≠ 0).
  { intros x. unfold c. rewrite elem_of_erase by apply inc_of_range.
    by rewrite elem_of_of_range. }
  assert (inc c) as Hinc by apply inc_erase, inc_of_range.
  case_decide as Hlen.
  - right; right. intros x [Hx Hall]. apply nil_length_inv in Hlen.
    assert (x ∈ c) as Hin.
    { apply Hc. split; [|done]. apply Hall. rewrite E. by left. }
    rewrite Hlen in Hin. by apply elem_of_nil in Hin.
  - pose proof (intersect_all_spec c (it :: rest) Hinc) as Hs.
    destruct (intersect_all c (it :: rest)) as [r|].
    + destruct Hs as (Hr1 & Hr2 & Hr3). split.
      { apply Hr2. intros Hnil. by rewrite Hnil in Hlen. }
      split; [done|]. intros x. rewrite Hr3, Hc. unfold fixed. rewrite E.
      split; [naive_solver|]. intros [? Hall]. split; [|done].
      split; [|done]. apply Hall. by left.
    + right; right. intros x [Hx Hall]. apply (Hs x).
      * apply Hc. split; [|done]. apply Hall. rewrite E. by left.
      * by rewrite <- E.
Qed.

Lemma fixedSites_none pop :
  popSize pop = 0%nat ∨ totNumLoci pop = 0%nat ∨ (∀ x, ¬ fixed pop x) →
  fixedSites pop = None.
Proof.
  intros H. pose proof (fixedSites_spec pop) as Hs.
  destruct (fixedSites pop) as [r|] eqn:E; [|done].
  destruct Hs as (Hne & _ & Hr). destruct H as [H|[H|H]].
  - unfold fixedSites in E. case_decide; [done|tauto].
  - unfold fixedSites in E. case_decide; [done|tauto].
  - destruct r as [|x r]; [done|]. exfalso. apply (H x), Hr. by left.
Qed.

Lemma apply_fixedSites noOutput pop :
  apply noOutput pop =
    match fixedSites pop with
    | None => (true, pop, [])
    | Some commonAlleles =>
        (true,
         mkPop (ploidy pop) (numLoci pop) (subPopSizes pop)
               (trim_ind (numLoci pop) commonAlleles <$> individuals pop)
               (gen pop),
         if noOutput then [] else [(gen pop, commonAlleles)])
    end.
Proof.
  unfold apply, fixedSites. repeat case_match; done.
Qed.

Lemma new_alleles_spec tot old c :
  inc c →
  ∃ kept,
    new_alleles tot old c = kept ++ replicate (tot - length kept) 0 ∧
    inc kept ∧ (length kept ≤ length old)%nat ∧
    ∀ x, x ∈ kept ↔ x ∈ old ∧ x ≠ 0 ∧ x ∉ c.
Proof.
  intros Hc. eexists. split; [reflexivity|].
  assert (inc (erase 0 (of_range old))) as Hi
    by apply inc_erase, inc_of_range.
  split; [by apply inc_set_difference|]. split.
  - etrans; [apply length_set_difference|].
    etrans; [apply length_erase|]. apply length_of_range.
  - intros x. rewrite elem_of_set_difference by done.
    rewrite elem_of_erase by apply inc_of_range.
    rewrite elem_of_of_range. naive_solver.
Qed.

Lemma length_genoP nl k ind p :
  wf_ind nl k ind → (p < k)%nat → length (genoP ind p) = sum_list nl.
Proof.
  intros [Hlen Hall] Hp. unfold genoP.
  destruct (lookup_lt_is_Some_2 ind p) as [c Hlk]; [lia|].
  rewrite (list_lookup_total_correct _ _ _ Hlk), length_join.
  by rewrite (Forall_lookup_1 _ _ _ _ Hall Hlk).
Qed.

Lemma length_new_alleles tot old c :
  inc c → length old = tot → length (new_alleles tot old c) = tot.
Proof.
  intros Hc Hlen. destruct (new_alleles_spec tot old c Hc)
    as (kept & -> & _ & Hle & _).
  rewrite length_app, length_replicate. lia.
Qed.

Lemma genoP_trim_ind nl c ind p :
  wf_ind nl 2 ind → inc c → (p < 2)%nat →
  genoP (trim_ind nl c ind) p = new_alleles (sum_list nl) (genoP ind p) c.
Proof.
  intros Hwf Hc Hp.
  pose proof (length_genoP nl 2 ind 0 Hwf ltac:(lia)) as H0.
  pose proof (length_genoP nl 2 ind 1 Hwf ltac:(lia)) as H1.
  destruct Hwf as [Hlen _].
  destruct ind as [|c0 [|c1 [|]]]; simplify_eq/=.
  unfold trim_ind, write_copy, genoP in *. simpl in *.
  destruct p as [|[|p]]; [| |lia]; simpl;
    apply join_reshape; symmetry; by apply length_new_alleles.
Qed.

Lemma genoP_ge nl k ind p :
  wf_ind nl k ind → (k ≤ p)%nat → genoP ind p = [].
Proof.
  intros [Hlen _] Hp. unfold genoP.
  by rewrite list_lookup_total_alt, lookup_ge_None_2 by lia.
Qed.

Example apply_pop_fixed5 :
  apply false pop_fixed5 =
    (true,
     mkPop 2 [4%nat] [2%nat]
           [ [[[7; 0; 0; 0]]; [[7; 9; 0; 0]]];
             [[[3; 0; 0; 0]]; [[8; 0; 0; 0]]] ]
           12,
     [(12, [5])]).
Proof. vm_compute. reflexivity. Qed.

Example apply_pop_nofixed : apply false pop_nofixed = (true, pop_nofixed, []).
Proof. vm_compute. reflexivity. Qed.

(** C3. After [RevertFixedSites::apply] has returned, which it does with
    [true], no copy of any individual holds a site that was fixed (present
    on both copies of every individual); and when the population is empty,
    has no loci or has no fixed site, the population is returned as it
    was. *)
Theorem RevertFixedSites_apply_removes_fixed noOutput pop :
  wf_pop 2 pop →
  ∃ pop' out,
    apply noOutput pop = (true, pop', out) ∧
    (∀ x, fixed pop x →
          ∀ ind p, ind ∈ individuals pop' → x ∉ genoP ind p) ∧
    (popSize pop = 0%nat ∨ totNumLoci pop = 0%nat ∨ (∀ x, ¬ fixed pop x) →
     pop' = pop ∧ out = []).
Proof.
  intros Hwf. rewrite apply_fixedSites.
  pose proof (fixedSites_spec pop) as Hs.
  destruct (fixedSites pop) as [r|] eqn:E.
  - destruct Hs as (Hne & Hinc & Hr).
    eexists _, _. split; [reflexivity|]. split.
    + intros x Hx ind' p Hin. simpl in Hin.
      apply list_elem_of_fmap in Hin as (ind & -> & Hin).
      assert (wf_ind (numLoci pop) 2 ind) as Hwi.
      { unfold wf_pop in Hwf. rewrite Forall_forall in Hwf. by apply Hwf. }
      destruct (decide (p < 2)%nat) as [Hp|Hp].
      * rewrite genoP_trim_ind by done.
        destruct (new_alleles_spec (sum_list (numLoci pop)) (genoP ind p) r)
          as (kept & -> & _ & _ & Hk); [done|].
        intros [Hin'|Hin']%elem_of_app.
        -- apply Hk in Hin' as (_ & _ & Hnr). by apply Hnr, Hr.
        -- apply elem_of_replicate_inv in Hin'. by destruct Hx.
      * destruct Hwi as [Hlen _].
        destruct ind as [|c0 [|c1 [|]]]; simplify_eq/=.
        unfold trim_ind, write_copy, genoP. simpl.
        destruct p as [|[|p]]; [lia..|]. simpl. apply not_elem_of_nil.
    + intros H. apply fixedSites_none in H. congruence.
  - eexists _, _. split; [reflexivity|]. split; [|done].
    intros x Hx ind p Hin.
    assert (wf_ind (numLoci pop) 2 ind) as Hwi.
    { unfold wf_pop in Hwf. rewrite Forall_forall in Hwf. by apply Hwf. }
    destruct Hs as [Hs|[Hs|Hs]].
    + unfold popSize in Hs. apply nil_length_inv in Hs.
      rewrite Hs in Hin. by apply elem_of_nil in Hin.
    + destruct Hx as [_ Hx]. destruct (Hx ind Hin) as [Hx0 _].
      pose proof (length_genoP _ _ _ 0 Hwi ltac:(lia)) as Hl.
      unfold totNumLoci in Hs. rewrite Hs in Hl.
      apply nil_length_inv in Hl. rewrite Hl in Hx0.
      by apply elem_of_nil in Hx0.
    + by destruct (Hs x).
Qed.

Lemma wf_pop_fixed5 : wf_pop 2 pop_fixed5.
Proof. repeat constructor. Qed.

Lemma RevertFixedSites_apply_removes_fixed_witness :
  wf_pop 2 pop_fixed5 ∧
  ∃ pop' out,
    apply false pop_fixed5 = (true, pop', out) ∧
    (∀ x, fixed pop_fixed5 x →
          ∀ ind p, ind ∈ individuals pop' → x ∉ genoP ind p) ∧
    (popSize pop_fixed5 = 0%nat ∨ totNumLoci pop_fixed5 = 0%nat ∨
       (∀ x, ¬ fixed pop_fixed5 x) →
     pop' = pop_fixed5 ∧ out = []).
Proof.
  split; [apply wf_pop_fixed5|].
  apply (RevertFixedSites_apply_removes_fixed false pop_fixed5).
  apply wf_pop_fixed5.
Defined.

(** C10. When [RevertFixedSites::apply] rewrites the genotypes (some site
    is fixed), every copy of every individual ends up as its sites that
    are not fixed, in strictly increasing order (so without repetition),
    followed by zeros up to the number of loci. *)
Theorem RevertFixedSites_apply_sorts_and_dedups noOutput pop r :
  wf_pop 2 pop →
  fixedSites pop = Some r →
  ∀ i ind p,
    individuals pop !! i = Some ind → (p < 2)%nat →
    ∃ ind' kept,
      individuals (apply noOutput pop).1.2 !! i = Some ind' ∧
      genoP ind' p = kept ++ replicate (totNumLoci pop - length kept) 0 ∧
      StronglySorted Z.lt kept ∧
      ∀ x, x ∈ kept ↔ x ∈ genoP ind p ∧ x ≠ 0 ∧ ¬ fixed pop x.
Proof.
  intros Hwf E i ind p Hi Hp. rewrite apply_fixedSites, E. simpl.
  pose proof (fixedSites_spec pop) as Hs. rewrite E in Hs.
  destruct Hs as (_ & Hinc & Hr).
  assert (wf_ind (numLoci pop) 2 ind) as Hwi.
  { unfold wf_pop in Hwf. by eapply Forall_lookup_1 in Hwf. }
  destruct (new_alleles_spec (totNumLoci pop) (genoP ind p) r Hinc)
    as (kept & Hnew & Hk1 & _ & Hk2).
  exists (trim_ind (numLoci pop) r ind), kept. split.
  { by rewrite list_lookup_fmap, Hi. }
  split; [by rewrite genoP_trim_ind|]. split; [done|].
  intros x. rewrite Hk2, Hr. done.
Qed.

Lemma RevertFixedSites_apply_sorts_and_dedups_witness :
  ∃ ind' kept,
    individuals (apply false pop_fixed5).1.2 !! 1%nat = Some ind' ∧
    genoP ind' 0 = kept ++ replicate (totNumLoci pop_fixed5 - length kept) 0 ∧
    StronglySorted Z.lt kept ∧
    ∀ x, x ∈ kept ↔
         x ∈ genoP [[[5; 3; 5; 0]]; [[8; 5; 0; 0]]] 0 ∧ x ≠ 0 ∧
         ¬ fixed pop_fixed5 x.
Proof.
  apply (RevertFixedSites_apply_sorts_and_dedups false pop_fixed5 [5]).
  - apply wf_pop_fixed5.
  - vm_compute. reflexivity.
  - reflexivity.
  - lia.
Defined.

End RevertFixedSitesFacts.

(** ** InfSitesSelector: resolution of coefficients and the additive flag *)

Section SelectorState.
Import InfSitesSelector.

Variable CONSTANT : Z.
Variable m_selDist : list R.
Variable func : pyFunc.
Variable randGamma : nat → R → R → R.
Variable m_mode : Mode.

Local Abbreviation getFitnessValue :=
  (getFitnessValue CONSTANT m_selDist func randGamma).
Local Abbreviation indFitness :=
  (indFitness CONSTANT m_selDist func randGamma m_mode).
Local Abbreviation runOps :=
  (runOps CONSTANT m_selDist func randGamma m_mode).

(** With a list of numbers, the resolved pair is stored under the site and
    the site is appended once to the list of new sites. *)
Lemma getFitnessValue_dist_cached mutant st :
  m_selDist ≠ [] →
  let '(sf, st') := getFitnessValue mutant st in
  m_selFactory st' !! mutant = Some sf ∧
  m_newMutants st' = m_newMutants st ++ [mutant].
Proof.
  intros Hne. unfold InfSitesSelector.getFitnessValue.
  destruct (decide (length m_selDist = 0%nat)) as [Hl|Hl].
  { by apply nil_length_inv in Hl. }
  case_decide; simpl; by rewrite lookup_insert_eq.
Qed.

(** With a function, neither the map nor the list of new sites changes. *)
Lemma getFitnessValue_func_not_cached mutant st :
  m_selDist = [] →
  let '(sf, st') := getFitnessValue mutant st in
  m_selFactory st' = m_selFactory st ∧ m_newMutants st' = m_newMutants st.
Proof.
  intros Hnil. unfold InfSitesSelector.getFitnessValue. rewrite Hnil. simpl.
  destruct (decide (numArgs func = 0%nat));
    by destruct (call func _ _) as [?|? [|? ?]|].
Qed.

Lemma downgrade_false h : downgrade false h = false.
Proof. done. Qed.

Lemma downgrade_ne additive h : h ≠ (1 / 2)%R → downgrade additive h = false.
Proof.
  intros Hh. unfold downgrade. destruct additive; [|done].
  by rewrite bool_decide_eq_true_2.
Qed.

Lemma getFitnessValue_additive mutant st :
  let '(sf, st') := getFitnessValue mutant st in
  m_additive st' = downgrade (m_additive st) sf.2.
Proof.
  unfold InfSitesSelector.getFitnessValue.
  destruct (decide (length m_selDist = 0%nat)).
  - destruct (decide (numArgs func = 0%nat));
      by destruct (call func _ _) as [?|? [|? ?]|].
  - by repeat case_decide.
Qed.

Lemma getFitnessValue_keeps_false mutant st :
  keeps_false st (getFitnessValue mutant st).2.
Proof.
  pose proof (getFitnessValue_additive mutant st) as H.
  destruct (getFitnessValue mutant st) as [sf st']. simpl.
  intros Hf. by rewrite H, Hf.
Qed.

Lemma sumHalf_keeps_false geno s st :
  keeps_false st (sumHalf CONSTANT m_selDist func randGamma geno s st).2.
Proof.
  revert s st. induction geno as [|a geno IH]; intros s st; simpl; [by unfold keeps_false|].
  destruct (decide (a = 0)) as [Hz|Hz]; [apply IH|].
  destruct (m_selFactory st !! a); [apply IH|].
  pose proof (getFitnessValue_keeps_false a st) as H.
  destruct (getFitnessValue a st) as [sf st']. simpl in H.
  intros Hf. apply IH. by apply H.
Qed.

Lemma foldSites_keeps_false op cnt s st :
  keeps_false st (foldSites CONSTANT m_selDist func randGamma op cnt s st).2.
Proof.
  revert s st. induction cnt as [|[k c] cnt IH]; intros s st; simpl; [by unfold keeps_false|].
  destruct (m_selFactory st !! k); [apply IH|].
  pose proof (getFitnessValue_keeps_false k st) as H.
  destruct (getFitnessValue k st) as [sf st']. simpl in H.
  intros Hf. apply IH. by apply H.
Qed.

Lemma indFitness_keeps_false geno st : keeps_false st (indFitness geno st).2.
Proof.
  unfold InfSitesSelector.indFitness, randomSelAddFitness,
    randomSelExpFitness, randomSelMulFitnessExt, randomSelAddFitnessExt,
    randomSelExpFitnessExt.
  destruct m_mode; [| | |by unfold keeps_false].
  - apply foldSites_keeps_false.
  - destruct (m_additive st).
    + pose proof (sumHalf_keeps_false geno 0%R st) as H.
      by destruct (sumHalf _ _ _ _ geno 0%R st).
    + pose proof (foldSites_keeps_false Rplus
                    (countMutants geno []) 0%R st) as H.
      by destruct (foldSites _ _ _ _ Rplus _ 0%R st).
  - destruct (m_additive st).
    + pose proof (sumHalf_keeps_false geno 0%R st) as H.
      by destruct (sumHalf _ _ _ _ geno 0%R st).
    + pose proof (foldSites_keeps_false Rplus
                    (countMutants geno []) 0%R st) as H.
      by destruct (foldSites _ _ _ _ Rplus _ 0%R st).
Qed.

Lemma BaseSelector_apply_keeps_false inds st :
  keeps_false st
    (BaseSelector_apply CONSTANT m_selDist func randGamma m_mode inds st).2.
Proof.
  revert st. induction inds as [|ind inds IH]; intros st; simpl; [by unfold keeps_false|].
  pose proof (indFitness_keeps_false (genoAll ind) st) as H1.
  destruct (indFitness (genoAll ind) st) as [f st1].
  pose proof (IH st1) as H2.
  destruct (BaseSelector_apply _ _ _ _ _ inds st1) as [[ok fs] st2].
  simpl in *. intros Hf. by apply H2, H1.
Qed.

Lemma apply_keeps_false noOutput pop st :
  keeps_false st
    (apply CONSTANT m_selDist func randGamma m_mode noOutput pop st).2.
Proof.
  unfold apply.
  pose proof (BaseSelector_apply_keeps_false (individuals pop)
    (mkState (m_selFactory st) [] (m_additive st) (draws st))) as H.
  destruct (BaseSelector_apply _ _ _ _ _ _ _) as [[ok fs] st'].
  simpl in H. by destruct ok.
Qed.

Lemma runOp_keeps_false o st :
  keeps_false st (runOp CONSTANT m_selDist func randGamma m_mode o st).
Proof.
  destruct o; simpl.
  - apply getFitnessValue_keeps_false.
  - apply indFitness_keeps_false.
  - apply apply_keeps_false.
Qed.

Lemma runOps_keeps_false os st : keeps_false st (runOps os st).
Proof.
  revert st. induction os as [|o os IH]; intros st; simpl; [by unfold keeps_false|].
  intros Hf. apply IH. by apply runOp_keeps_false.
Qed.

Lemma runOps_app os1 o os2 st :
  runOps (os1 ++ o :: os2) st =
    runOps os2 (runOp CONSTANT m_selDist func randGamma m_mode o
                  (runOps os1 st)).
Proof. unfold InfSitesSelector.runOps. by rewrite foldl_app. Qed.

(** C8. The additive flag only ever goes from [true] to [false]: whatever
    operations ran before, a resolution that yields a dominance other
    than 0.5 leaves the flag [false], and it is still [false] after any
    further operations. *)
Theorem m_additive_one_way before mutant after st :
  (getFitnessValue mutant (runOps before st)).1.2 ≠ (1 / 2)%R →
  m_additive (getFitnessValue mutant (runOps before st)).2 = false ∧
  m_additive
    (runOps (before ++ OpGetFitnessValue mutant :: after) st) = false.
Proof.
  intros Hh.
  pose proof (getFitnessValue_additive mutant (runOps before st)) as H.
  destruct (getFitnessValue mutant (runOps before st)) as [sf st'] eqn:E.
  simpl in *. rewrite downgrade_ne in H by done. split; [done|].
  rewrite runOps_app. apply (runOps_keeps_false after). simpl. by rewrite E.
Qed.

End SelectorState.

(** ** The counter of occurrences *)

Section CounterFacts.
Import InfSitesSelector.

Local Abbreviation inc := (StronglySorted Z.lt).

Lemma count_keys x cnt k :
  k ∈ (MutCounter.count x cnt).*1 ↔ k = x ∨ k ∈ cnt.*1.
Proof.
  induction cnt as [|[k' c] cnt IH]; simpl.
  - rewrite list_elem_of_singleton. set_solver.
  - repeat case_decide; subst; simpl; rewrite ?elem_of_cons, ?IH;
      naive_solver.
Qed.

Lemma count_inc x cnt : inc cnt.*1 → inc (MutCounter.count x cnt).*1.
Proof.
  induction cnt as [|[k c] cnt IH]; simpl; intros Hs.
  - apply inc_cons; [done|]. by intros y Hy%elem_of_nil.
  - pose proof Hs as [Hs1 Hs2]%inc_cons_inv.
    repeat case_decide; simpl; [|done|].
    + apply inc_cons; [done|]. intros y [->|Hy]%elem_of_cons; [done|].
      apply Hs2 in Hy. lia.
    + apply inc_cons; [by apply IH|].
      intros y [->|Hy]%count_keys; [lia|]. by apply Hs2.
Qed.

Lemma get_not_key k cnt : k ∉ cnt.*1 → MutCounter.get k cnt = 0%nat.
Proof.
  induction cnt as [|[k' c] cnt IH]; simpl; [done|].
  intros [? ?]%not_elem_of_cons. rewrite decide_False by done. auto.
Qed.

Lemma count_get x cnt k :
  inc cnt.*1 →
  MutCounter.get k (MutCounter.count x cnt) =
    (MutCounter.get k cnt + if decide (k = x) then 1 else 0)%nat.
Proof.
  induction cnt as [|[k' c] cnt IH]; simpl; intros Hs.
  - repeat case_decide; done.
  - pose proof Hs as [Hs1 Hs2]%inc_cons_inv.
    destruct (decide (x < k')) as [Hlt|Hlt]; simpl.
    + destruct (decide (k = x)) as [->|Hkx]; [|lia].
      rewrite decide_False by lia. rewrite get_not_key; [done|].
      intros Hin. apply Hs2 in Hin. lia.
    + destruct (decide (x = k')) as [->|Hne]; simpl.
      * repeat case_decide; subst; lia.
      * rewrite IH by done. repeat case_decide; subst; lia.
Qed.

Lemma get_elem k c cnt : inc cnt.*1 → (k, c) ∈ cnt → MutCounter.get k cnt = c.
Proof.
  induction cnt as [|[k' c'] cnt IH]; simpl; intros Hs Hin.
  { by apply elem_of_nil in Hin. }
  pose proof Hs as [Hs1 Hs2]%inc_cons_inv.
  apply elem_of_cons in Hin as [[= -> ->]|Hin].
  - by rewrite decide_True.
  - rewrite decide_False; [by apply IH|].
    intros ->. assert (k' ∈ cnt.*1) as Hk.
    { apply list_elem_of_fmap. by exists (k', c). }
    apply Hs2 in Hk. lia.
Qed.

Lemma countMutants_spec geno cnt :
  inc cnt.*1 →
  let cnt' := countMutants geno cnt in
  inc cnt'.*1 ∧
  (∀ k, k ∈ cnt'.*1 ↔ k ∈ cnt.*1 ∨ k ∈ sites geno) ∧
  (∀ k, MutCounter.get k cnt' = (MutCounter.get k cnt + occ k (sites geno))%nat).
Proof.
  revert cnt. induction geno as [|a geno IH]; intros cnt Hs; simpl.
  { split; [done|]. split; [set_solver|]. intros k. unfold occ. simpl. lia. }
  unfold sites, occ. rewrite filter_cons.
  destruct (decide (a = 0)) as [Hz|Hz].
  - rewrite decide_False by tauto. by apply IH.
  - rewrite decide_True by done.
    destruct (IH (MutCounter.count a cnt) (count_inc a cnt Hs))
      as (H1 & H2 & H3).
    split; [done|]. split.
    + intros k. rewrite H2, count_keys, elem_of_cons. naive_solver.
    + intros k. rewrite H3, count_get by done. rewrite filter_cons.
      unfold occ, sites. repeat case_decide; subst; simpl; lia.
Qed.

Lemma filter_eq_notin (k : Z) l : k ∉ l → filter (λ y, y = k) l = [].
Proof.
  induction l as [|x l IH]; [done|]. intros [? ?]%not_elem_of_cons.
  rewrite filter_cons, decide_False by done. auto.
Qed.

Lemma occ_NoDup k l : NoDup l → (occ k l ≤ 1)%nat.
Proof.
  unfold occ. induction 1 as [|x l Hx Hl IH]; simpl; [lia|].
  rewrite filter_cons. case_decide; [|done]. subst. simpl.
  rewrite filter_eq_notin by done. simpl. lia.
Qed.

Lemma occ_app k l1 l2 : occ k (l1 ++ l2) = (occ k l1 + occ k l2)%nat.
Proof. unfold occ. by rewrite filter_app, length_app. Qed.

Lemma sites_app l1 l2 : sites (l1 ++ l2) = sites l1 ++ sites l2.
Proof. unfold sites. by rewrite filter_app. Qed.

Lemma occ_0_notin k l : occ k l = 0%nat → k ∉ l.
Proof.
  unfold occ. intros H%nil_length_inv Hin.
  assert (k ∈ filter (λ y, y = k) l) as Hk by by apply list_elem_of_filter.
  rewrite H in Hk. by apply elem_of_nil in Hk.
Qed.

(** The sum over a counter, each site weighted by its count, is the sum
    over the occurrences. *)
Lemma Rsum_count (w : Z → R) x cnt :
  Rsum ((λ kc, INR kc.2 * w kc.1)%R <$> MutCounter.count x cnt) =
    (Rsum ((λ kc, INR kc.2 * w kc.1)%R <$> cnt) + w x)%R.
Proof.
  induction cnt as [|[k c] cnt IH]; csimpl; [lra|].
  repeat case_decide; subst; csimpl.
  - lra.
  - destruct c; csimpl; lra.
  - rewrite IH. lra.
Qed.

Lemma Rsum_countMutants (w : Z → R) geno cnt :
  Rsum ((λ kc, INR kc.2 * w kc.1)%R <$> countMutants geno cnt) =
    (Rsum ((λ kc, INR kc.2 * w kc.1)%R <$> cnt) + Rsum (w <$> sites geno))%R.
Proof.
  revert cnt. induction geno as [|a geno IH]; intros cnt; csimpl; [lra|].
  unfold sites. rewrite filter_cons.
  destruct (decide (a = 0)) as [Hz|Hz].
  - rewrite decide_False by tauto. apply IH.
  - rewrite decide_True by done. rewrite IH, Rsum_count. csimpl.
    unfold sites. lra.
Qed.

Lemma Rsum_ext {A} (f g : A → R) l :
  (∀ x, x ∈ l → f x = g x) → Rsum (f <$> l) = Rsum (g <$> l).
Proof.
  induction l as [|x l IH]; csimpl; intros H; [done|].
  rewrite H, IH; [done| |by left]. intros y Hy. apply H. by right.
Qed.

End CounterFacts.

(** ** InfSitesSelector: the two additive forms *)

Section SelectorAdditive.
Import InfSitesSelector.

Variable CONSTANT : Z.
Variable m_selDist : list R.
Variable func : pyFunc.
Variable randGamma : nat → R → R → R.

Local Abbreviation inc := (StronglySorted Z.lt).

Lemma Rsum_app l1 l2 : Rsum (l1 ++ l2) = (Rsum l1 + Rsum l2)%R.
Proof. induction l1 as [|x l1 IH]; simpl; [lra|]. rewrite IH. lra. Qed.

Lemma sumHalf_cached geno s st :
  (∀ a, a ∈ geno → a ≠ 0 → is_Some (m_selFactory st !! a)) →
  sumHalf CONSTANT m_selDist func randGamma geno s st =
    ((s + Rsum ((λ a, (coef st a).1 / 2)%R <$> sites geno))%R, st).
Proof.
  revert s. induction geno as [|a geno IH]; intros s Hc; cbn [sumHalf].
  { simpl. f_equal. lra. }
  unfold sites. rewrite filter_cons.
  destruct (decide (a = 0)) as [Hz|Hz].
  - rewrite decide_False by tauto.
    apply IH. intros b Hb. apply Hc. by right.
  - rewrite decide_True by done.
    destruct (Hc a) as [sc Hsc]; [by left|done|].
    rewrite Hsc, IH; [|intros b Hb; apply Hc; by right].
    rewrite fmap_cons. cbn [Rsum]. unfold coef at 2. rewrite Hsc.
    cbn [default]. f_equal. unfold sites. simpl. lra.
Qed.

Lemma foldSites_cached cnt s st :
  (∀ k, k ∈ cnt.*1 → is_Some (m_selFactory st !! k)) →
  foldSites CONSTANT m_selDist func randGamma Rplus cnt s st =
    ((s + Rsum ((λ kc, term kc.2 (coef st kc.1)) <$> cnt))%R, st).
Proof.
  revert s. induction cnt as [|[k c] cnt IH]; intros s Hc; cbn [foldSites].
  { simpl. f_equal. lra. }
  destruct (Hc k) as [sc Hsc]; [by left|].
  rewrite Hsc, IH; [|intros b Hb; apply Hc; by right].
  rewrite fmap_cons. cbn [Rsum fst snd]. unfold coef at 2. rewrite Hsc.
  cbn [default]. f_equal. unfold sites. simpl. lra.
Qed.

Lemma term_half c s :
  (1 ≤ c ≤ 2)%nat → term c (s, (1 / 2)%R) = (INR c * (s / 2))%R.
Proof.
  intros Hc. unfold term. destruct c as [|[|[|c]]]; try lia; simpl; lra.
Qed.

(** C5, as amended.  For a genotype made of the two copies of the
    individual ([slot0] is copy 0 over all its chromosomes, [slot1] is
    copy 1), neither of which holds a site twice, and a selection map that
    holds every site of the genotype with dominance 0.5, the sums of
    [randomSelAddFitness] and [randomSelAddFitnessExt] are the same real
    number, and so are the two fitness values (the state is left the same
    as well).  That the slots are packed left is not needed.  The equality
    is one of exact arithmetic: the two forms add their terms in different
    orders, so the doubles they return agree up to the rounding of the
    additions only. *)
Theorem randomSelAddFitness_agrees_with_Ext slot0 slot1 st :
  NoDup (sites slot0) → NoDup (sites slot1) →
  (∀ a, a ∈ slot0 ++ slot1 → a ≠ 0 →
        ∃ s, m_selFactory st !! a = Some (s, (1 / 2)%R)) →
  randomSelAddFitness CONSTANT m_selDist func randGamma (slot0 ++ slot1) st =
  randomSelAddFitnessExt CONSTANT m_selDist func randGamma (slot0 ++ slot1) st.
Proof.
  intros Hd0 Hd1 Hc. set (geno := slot0 ++ slot1) in *.
  unfold randomSelAddFitness, randomSelAddFitnessExt.
  destruct (countMutants_spec geno []) as (Hinc & Hkeys & Hget);
    [constructor|].
  rewrite sumHalf_cached; last first.
  { intros a Ha Hz. destruct (Hc a Ha Hz) as [s ->]. by eexists. }
  rewrite foldSites_cached; last first.
  { intros k [Hk|Hk]%Hkeys; [by apply elem_of_nil in Hk|].
    apply list_elem_of_filter in Hk as [Hz Hk].
    destruct (Hc k Hk Hz) as [s ->]. by eexists. }
  f_equal. f_equal. f_equal.
  pose proof (Rsum_countMutants (λ a, (coef st a).1 / 2)%R geno []) as Hsum.
  csimpl in Hsum. rewrite Rplus_0_l in Hsum. rewrite <- Hsum.
  apply Rsum_ext. intros [k c] Hin. csimpl.
  assert (k ∈ sites geno) as Hk.
  { assert (k ∈ (countMutants geno []).*1) as Hk'.
    { apply list_elem_of_fmap. by exists (k, c). }
    apply Hkeys in Hk' as [Hk'|Hk']; [by apply elem_of_nil in Hk'|done]. }
  assert (c = occ k (sites geno)) as Hocc.
  { rewrite <- (get_elem k c _ Hinc Hin). by rewrite Hget. }
  assert (1 ≤ c ≤ 2)%nat as Hc12.
  { split.
    - destruct c; [|lia]. symmetry in Hocc. by apply occ_0_notin in Hocc.
    - rewrite Hocc. unfold geno. rewrite sites_app, occ_app.
      pose proof (occ_NoDup k _ Hd0). pose proof (occ_NoDup k _ Hd1). lia. }
  apply list_elem_of_filter in Hk as [Hz Hk].
  destruct (Hc k Hk Hz) as [s Hs]. unfold coef. rewrite Hs. csimpl.
  symmetry. by apply term_half.
Qed.

End SelectorAdditive.

(** ** InfSitesSelector: range of the fitness *)

Section SelectorBounds.
Import InfSitesSelector.

Variable CONSTANT : Z.
Variable m_selDist : list R.
Variable func : pyFunc.
Variable randGamma : nat → R → R → R.
Variable m_mode : Mode.

Local Abbreviation getFitnessValue :=
  (getFitnessValue CONSTANT m_selDist func randGamma).

(** A property of the pairs that the configured source always yields. *)
Variable P : SelCoef → Prop.
Hypothesis resolved_P : ∀ mutant st, P (getFitnessValue mutant st).1.

Lemma getFitnessValue_cache mutant st :
  let '(sf, st') := getFitnessValue mutant st in
  m_selFactory st' = m_selFactory st ∨
  m_selFactory st' = <[mutant := sf]> (m_selFactory st).
Proof.
  unfold InfSitesSelector.getFitnessValue.
  destruct (decide (length m_selDist = 0%nat)).
  - destruct (decide (numArgs func = 0%nat));
      destruct (call func _ _) as [?|? [|? ?]|]; by left.
  - repeat case_decide; by right.
Qed.

Lemma getFitnessValue_cache_in mutant st :
  cache_in P st → cache_in P (getFitnessValue mutant st).2.
Proof.
  intros Hst. pose proof (getFitnessValue_cache mutant st) as Hc.
  pose proof (resolved_P mutant st) as Hu.
  destruct (getFitnessValue mutant st) as [sf st']. simpl in *.
  unfold cache_in. destruct Hc as [->| ->]; [done|].
  by apply map_Forall_insert_2.
Qed.

Lemma sumHalf_nonneg geno s st :
  (∀ sf, P sf → 0 <= sf.1)%R →
  cache_in P st → (0 <= s)%R →
  let '(s', st') := sumHalf CONSTANT m_selDist func randGamma geno s st in
  (0 <= s')%R ∧ cache_in P st'.
Proof.
  intros HP. revert s st.
  induction geno as [|a geno IH]; intros s st Hst Hs.
  { done. }
  cbn [sumHalf]. destruct (decide (a = 0)); [by apply IH|].
  destruct (m_selFactory st !! a) as [sc|] eqn:E.
  - apply IH; [done|]. apply Hst, HP in E. lra.
  - pose proof (getFitnessValue_cache_in a st Hst) as Hc.
    pose proof (HP _ (resolved_P a st)) as Hp.
    destruct (getFitnessValue a st) as [sf st']. simpl in *.
    apply IH; [done|]. lra.
Qed.

Lemma foldSites_invariant (I T : R → Prop) op cnt s st :
  (∀ c sf, P sf → T (term c sf)) →
  (∀ s t, I s → T t → I (op s t)) →
  cache_in P st → I s →
  let '(s', st') :=
    foldSites CONSTANT m_selDist func randGamma op cnt s st in
  I s' ∧ cache_in P st'.
Proof.
  intros HT Hop. revert s st.
  induction cnt as [|[k c] cnt IH]; intros s st Hst Hs.
  { done. }
  cbn [foldSites]. destruct (m_selFactory st !! k) as [sc|] eqn:E.
  - apply IH; [done|]. apply Hop; [done|]. apply HT. by apply Hst in E.
  - pose proof (getFitnessValue_cache_in k st Hst) as Hc.
    pose proof (resolved_P k st) as Hu.
    destruct (getFitnessValue k st) as [sf st']. simpl in *.
    apply IH; [done|]. apply Hop; [done|]. by apply HT.
Qed.

End SelectorBounds.

Section SelectorRange.
Import InfSitesSelector.

Variable CONSTANT : Z.
Variable m_selDist : list R.
Variable func : pyFunc.
Variable randGamma : nat → R → R → R.
Variable m_mode : Mode.

Lemma term_unit c sf : unit_coef sf → (0 <= term c sf <= 1)%R.
Proof.
  intros [Hs Hh]. unfold term. case_decide; [|done]. nra.
Qed.

Lemma term_nonneg c sf : nonneg_coef sf → (0 <= term c sf)%R.
Proof.
  intros [Hs Hh]. unfold term. case_decide; [|done]. nra.
Qed.

Lemma oneMinus_nonneg s : (0 <= oneMinus s)%R.
Proof. unfold oneMinus. destruct (Rlt_dec _ _); lra. Qed.

Lemma oneMinus_unit s : (0 <= s)%R → (0 <= oneMinus s <= 1)%R.
Proof. intros Hs. unfold oneMinus. destruct (Rlt_dec _ _); lra. Qed.

Lemma exp_neg_unit s : (0 <= s)%R → (0 <= exp (- s) <= 1)%R.
Proof.
  intros Hs. split; [left; apply exp_pos|].
  destruct (Req_dec s 0) as [->|Hne].
  - rewrite Ropp_0, exp_0. lra.
  - rewrite <- exp_0. left. apply exp_increasing. lra.
Qed.

(** C4, as amended.  When no resolved pair has a negative coefficient
    (those already in the selection map and those the configured source
    yields) and, in the multiplicative mode, none has a coefficient above
    1, the fitness of every genotype lies in [0, 1] in the additive, the
    multiplicative and the exponential mode.  The lower bound of the
    exponential mode is not strict: the value is [exp (- s)] with
    [0 <= s], which a double rounds to 0 once [s] is large enough, so
    nothing more than [0 <=] is stated. *)
Theorem indFitness_range geno st :
  (∀ mutant st',
     admissible m_mode
       (getFitnessValue CONSTANT m_selDist func randGamma mutant st').1) →
  cache_in (admissible m_mode) st →
  let f := (indFitness CONSTANT m_selDist func randGamma m_mode geno st).1 in
  match m_mode with
  | MULTIPLICATIVE | ADDITIVE | EXPONENTIAL => (0 <= f <= 1)%R
  | OTHER_MODE => f = 0%R
  end.
Proof.
  intros Hsrc Hst.
  unfold indFitness, randomSelAddFitness, randomSelExpFitness,
    randomSelMulFitnessExt, randomSelAddFitnessExt, randomSelExpFitnessExt.
  destruct m_mode; simpl in Hsrc, Hst; [| | |done].
  - pose proof (foldSites_invariant CONSTANT m_selDist func randGamma
      unit_coef Hsrc (λ s, 0 <= s <= 1)%R (λ t, 0 <= t <= 1)%R
      (λ s t, s * (1 - t))%R (countMutants geno []) 1%R st) as H.
    destruct (foldSites _ _ _ _ _ _ _ _) as [s st'].
    simpl. apply H; [apply term_unit| |done|lra]. intros; nra.
  - destruct (m_additive st).
    + pose proof (sumHalf_nonneg CONSTANT m_selDist func randGamma
        nonneg_coef Hsrc geno 0%R st) as H.
      destruct (sumHalf _ _ _ _ _ _ _) as [s st']. simpl.
      apply oneMinus_unit, H; [by intros sf [? ?]|done|lra].
    + pose proof (foldSites_invariant CONSTANT m_selDist func randGamma
        nonneg_coef Hsrc (λ s, 0 <= s)%R (λ t, 0 <= t)%R Rplus
        (countMutants geno []) 0%R st) as H.
      destruct (foldSites _ _ _ _ _ _ _ _) as [s st']. simpl.
      apply oneMinus_unit, H; [apply term_nonneg| |done|lra]. intros; lra.
  - destruct (m_additive st).
    + pose proof (sumHalf_nonneg CONSTANT m_selDist func randGamma
        nonneg_coef Hsrc geno 0%R st) as H.
      destruct (sumHalf _ _ _ _ _ _ _) as [s st']. simpl.
      apply exp_neg_unit, H; [by intros sf [? ?]|done|lra].
    + pose proof (foldSites_invariant CONSTANT m_selDist func randGamma
        nonneg_coef Hsrc (λ s, 0 <= s)%R (λ t, 0 <= t)%R Rplus
        (countMutants geno []) 0%R st) as H.
      destruct (foldSites _ _ _ _ _ _ _ _) as [s st']. simpl.
      apply exp_neg_unit, H; [apply term_nonneg| |done|lra]. intros; lra.
Qed.

End SelectorRange.

(** ** InfSitesSelector: concrete evaluations *)

Section SelectorExamples.
Import InfSitesSelector.

(** C4 (counterexample).  An individual heterozygous for site 7, whose
    coefficient is -1, has additive fitness 1.5 and exponential fitness
    [exp (1 / 2)], which is above 1; an individual homozygous for a site
    of coefficient 3 has multiplicative fitness -2.  None lies in
    [0, 1]. *)
Lemma fitness_outside_unit_interval :
  (randomSelAddFitnessExt 0 [] func_none no_gamma [7; 0; 0; 0] st_neg).1
    = (3 / 2)%R ∧
  (randomSelMulFitnessExt 0 [] func_none no_gamma [7; 0; 7; 0] st_big).1
    = (- 2)%R ∧
  (1 < (randomSelExpFitnessExt 0 [] func_none no_gamma [7; 0; 0; 0]%Z
          st_neg).1)%R ∧
  ¬ (∀ geno st,
       (0 <= (indFitness 0 [] func_none no_gamma ADDITIVE geno st).1 <= 1)%R).
Proof.
  assert ((randomSelAddFitnessExt 0 [] func_none no_gamma
             [7; 0; 0; 0] st_neg).1 = (3 / 2)%R) as Hadd.
  { unfold randomSelAddFitnessExt.
    assert (countMutants [7; 0; 0; 0] [] = [(7, 1%nat)]) as ->
      by (by vm_compute).
    cbn [foldSites st_neg m_selFactory]. rewrite lookup_singleton_eq.
    cbn [foldSites fst snd]. unfold oneMinus, term. simpl.
    destruct (Rlt_dec _ _); lra. }
  split; [done|]. split.
  - unfold randomSelMulFitnessExt.
    assert (countMutants [7; 0; 7; 0] [] = [(7, 2%nat)]) as ->
      by (by vm_compute).
    cbn [foldSites st_big m_selFactory]. rewrite lookup_singleton_eq.
    cbn [foldSites fst snd]. unfold term. simpl. lra.
  - split.
    { unfold randomSelExpFitnessExt.
      assert (countMutants [7; 0; 0; 0] [] = [(7, 1%nat)]) as ->
        by (by vm_compute).
      cbn [foldSites st_neg m_selFactory]. rewrite lookup_singleton_eq.
      cbn [foldSites fst snd]. unfold term. simpl.
      assert (0 < - (0 + -1 * (1 / 2)))%R as Hpos by lra.
      apply exp_increasing in Hpos. by rewrite exp_0 in Hpos. }
    intros H. specialize (H [7; 0; 0; 0] st_neg).
    unfold indFitness in H. cbn [st_neg m_additive] in H.
    fold st_neg in H. rewrite Hadd in H. lra.
Qed.

Lemma func_dom_unit mutant st :
  admissible MULTIPLICATIVE
    (getFitnessValue 0 [] func_dom no_gamma mutant st).1.
Proof. unfold getFitnessValue, admissible, unit_coef. simpl. lra. Qed.

Lemma st_half_unit : cache_in (admissible MULTIPLICATIVE) st_half.
Proof.
  unfold cache_in, st_half, admissible. cbn [m_selFactory].
  apply map_Forall_insert_2; [unfold unit_coef; simpl; lra|].
  apply map_Forall_singleton. unfold unit_coef. simpl. lra.
Qed.

Lemma indFitness_range_witness :
  (0 <= (indFitness 0 [] func_dom no_gamma MULTIPLICATIVE
           geno_57_79 st_half).1 <= 1)%R.
Proof.
  apply (indFitness_range 0 [] func_dom no_gamma MULTIPLICATIVE
           geno_57_79 st_half func_dom_unit st_half_unit).
Defined.

Lemma st_half_lookup a :
  a ∈ [5; 7; 0] ++ [7; 0; 0] → a ≠ 0 →
  ∃ s, m_selFactory st_half !! a = Some (s, (1 / 2)%R).
Proof.
  intros Ha Hz. unfold st_half. cbn [m_selFactory].
  assert (a = 5 ∨ a = 7) as [-> | ->].
  { simpl in Ha. repeat (apply elem_of_cons in Ha as [Ha|Ha]; [lia|]).
    by apply elem_of_nil in Ha. }
  - eexists. apply lookup_insert_eq.
  - eexists. rewrite lookup_insert_ne by done. apply lookup_singleton_eq.
Qed.

Lemma randomSelAddFitness_agrees_with_Ext_witness :
  randomSelAddFitness 0 [] func_none no_gamma ([5; 7; 0] ++ [7; 0; 0]) st_half =
  randomSelAddFitnessExt 0 [] func_none no_gamma ([5; 7; 0] ++ [7; 0; 0]) st_half.
Proof.
  apply (randomSelAddFitness_agrees_with_Ext 0 [] func_none no_gamma
           [5; 7; 0] [7; 0; 0] st_half).
  - assert (sites [5; 7; 0] = [5; 7]) as -> by (by vm_compute).
    apply NoDup_cons. split; [set_solver|]. apply NoDup_singleton.
  - assert (sites [7; 0; 0] = [7]) as -> by (by vm_compute).
    apply NoDup_singleton.
  - apply st_half_lookup.
Defined.

(** C5 (counterexample).  Every slot of [ind_site5] is packed left and
    holds no site twice, and site 5 has coefficient 0.1 and dominance 0.5
    in the selection map.  Site 5 occurs four times in the genotype: the
    fast form subtracts 0.05 four times and returns 0.8, the general form
    counts the site as homozygous, subtracts 0.1 once and returns 0.9. *)
Lemma randomSelAddFitness_differs_across_chromosomes :
  (∀ copy slot, copy ∈ ind_site5 → slot ∈ copy →
     packed slot ∧ NoDup (sites slot)) ∧
  (∀ a, a ∈ genoAll ind_site5 → a ≠ 0 →
     m_selFactory st_half !! a = Some ((1 / 10)%R, (1 / 2)%R)) ∧
  (randomSelAddFitness 0 [] func_none no_gamma (genoAll ind_site5) st_half).1
    = (4 / 5)%R ∧
  (randomSelAddFitnessExt 0 [] func_none no_gamma (genoAll ind_site5)
     st_half).1 = (9 / 10)%R ∧
  ¬ (∀ (ind : Individual) st,
       (∀ copy slot, copy ∈ ind → slot ∈ copy →
          packed slot ∧ NoDup (sites slot)) →
       (∀ a, a ∈ genoAll ind → a ≠ 0 →
          ∃ s, m_selFactory st !! a = Some (s, (1 / 2)%R)) →
       (randomSelAddFitness 0 [] func_none no_gamma (genoAll ind) st).1 =
       (randomSelAddFitnessExt 0 [] func_none no_gamma (genoAll ind) st).1).
Proof.
  assert (∀ copy slot, copy ∈ ind_site5 → slot ∈ copy →
            packed slot ∧ NoDup (sites slot)) as Hslots.
  { intros copy slot Hc Hs.
    assert (slot = [5; 0]) as ->.
    { unfold ind_site5 in Hc.
      repeat (apply elem_of_cons in Hc as [->|Hc];
              [repeat (apply elem_of_cons in Hs as [->|Hs]; [done|]);
               by apply elem_of_nil in Hs|]).
      by apply elem_of_nil in Hc. }
    split; [by vm_compute|].
    assert (sites [5; 0] = [5]) as -> by (by vm_compute).
    apply NoDup_singleton. }
  assert (∀ a, a ∈ genoAll ind_site5 → a ≠ 0 →
            m_selFactory st_half !! a = Some ((1 / 10)%R, (1 / 2)%R))
    as Hmap.
  { intros a Ha Hz. assert (a = 5) as ->.
    { assert (genoAll ind_site5 = [5; 0; 5; 0; 5; 0; 5; 0]) as Hg
        by (by vm_compute).
      rewrite Hg in Ha.
      repeat (apply elem_of_cons in Ha as [Ha|Ha]; [lia|]).
      by apply elem_of_nil in Ha. }
    unfold st_half. cbn [m_selFactory]. apply lookup_insert_eq. }
  assert (m_selFactory st_half !! 5 = Some ((1 / 10)%R, (1 / 2)%R)) as H5.
  { unfold st_half. cbn [m_selFactory]. apply lookup_insert_eq. }
  assert ((randomSelAddFitness 0 [] func_none no_gamma (genoAll ind_site5)
             st_half).1 = (4 / 5)%R) as Hfast.
  { unfold randomSelAddFitness.
    assert (genoAll ind_site5 = [5; 0; 5; 0; 5; 0; 5; 0]) as ->
      by (by vm_compute).
    rewrite sumHalf_cached; last first.
    { intros a Ha Hz. assert (a = 5) as ->; [|by rewrite H5].
      repeat (apply elem_of_cons in Ha as [Ha|Ha]; [lia|]).
      by apply elem_of_nil in Ha. }
    assert (sites [5; 0; 5; 0; 5; 0; 5; 0] = [5; 5; 5; 5]) as ->
      by (by vm_compute).
    unfold coef. cbn [fmap list_fmap]. rewrite H5.
    cbn [default fst snd Rsum]. unfold oneMinus, Datatypes.id.
    cbn [fst]. destruct (Rlt_dec _ _); lra. }
  assert ((randomSelAddFitnessExt 0 [] func_none no_gamma
             (genoAll ind_site5) st_half).1 = (9 / 10)%R) as Hgen.
  { unfold randomSelAddFitnessExt.
    assert (countMutants (genoAll ind_site5) [] = [(5, 4%nat)]) as ->
      by (by vm_compute).
    cbn [foldSites]. rewrite H5.
    cbn [foldSites fst snd]. unfold oneMinus, term. simpl.
    destruct (Rlt_dec _ _); simpl in *; lra. }
  split; [done|]. split; [done|]. split; [done|]. split; [done|].
  intros H. specialize (H ind_site5 st_half Hslots).
  rewrite Hfast, Hgen in H.
  assert ((4 / 5)%R = (9 / 10)%R) as Heq; [|lra].
  apply H. intros a Ha Hz. eexists. by apply Hmap.
Qed.

Lemma m_additive_one_way_witness :
  m_additive (getFitnessValue 0 [] func_dom no_gamma 7
                (runOps 0 [] func_dom no_gamma ADDITIVE
                   [OpIndFitness [0; 0]] st_empty)).2 = false ∧
  m_additive
    (runOps 0 [] func_dom no_gamma ADDITIVE
       ([OpIndFitness [0; 0]] ++
        OpGetFitnessValue 7 :: [OpIndFitness [7; 0]]) st_empty) = false.
Proof.
  apply (m_additive_one_way 0 [] func_dom no_gamma ADDITIVE
           [OpIndFitness [0; 0]] 7 [OpIndFitness [7; 0]] st_empty).
  unfold getFitnessValue. simpl. lra.
Defined.

(** C1 (evaluation of the code).  When the coefficients come from the
    user's function, [getFitnessValue] returns the pair without storing it
    in [m_selFactory] and without appending the site to [m_newMutants];
    the next resolution of the site calls the function again. *)
Theorem getFitnessValue_function_not_stored
    CONSTANT func randGamma mutant st :
  let '(sf, st') := getFitnessValue CONSTANT [] func randGamma mutant st in
  m_selFactory st' = m_selFactory st ∧
  m_newMutants st' = m_newMutants st ∧
  draws st' = S (draws st).
Proof.
  unfold getFitnessValue. simpl.
  destruct (decide (numArgs func = 0%nat));
    by destruct (call func _ _) as [?|? [|? ?]|].
Qed.

(** Site 7 is resolved twice through [func_draw]: the map stays empty,
    the list of new sites stays empty, and the two pairs differ. *)
Example getFitnessValue_function_twice :
  let '(sf1, st1) := getFitnessValue 0 [] func_draw no_gamma 7 st_empty in
  let '(sf2, st2) := getFitnessValue 0 [] func_draw no_gamma 7 st1 in
  sf1 = (0%R, (1 / 2)%R) ∧ sf2 = (1%R, (1 / 2)%R) ∧
  m_selFactory st2 !! 7 = None ∧ m_newMutants st2 = [].
Proof. unfold getFitnessValue. simpl. done. Qed.

End SelectorExamples.

(** ** InfSitesMutator: writing into a slot *)

Section MutatorSlot.
Import InfSitesMutator.

Lemma packed_replicate n : packed (replicate n 0).
Proof.
  destruct n as [|n]; simpl; [done|]. try rewrite decide_True by done.
  apply Forall_forall. intros y Hy. by apply elem_of_replicate_inv in Hy.
Qed.

Lemma packed_app_zeros ss n :
  Forall (λ x, x ≠ 0) ss → packed (ss ++ replicate n 0).
Proof.
  induction 1 as [|x ss Hx Hss IH]; simpl; [apply packed_replicate|].
  by rewrite decide_False.
Qed.

Lemma packed_decomp s :
  packed s → ∃ ss n, s = ss ++ replicate n 0 ∧ Forall (λ x, x ≠ 0) ss.
Proof.
  induction s as [|x s IH]; simpl; intros Hp.
  { by exists [], 0%nat. }
  destruct (decide (x = 0)) as [->|Hx].
  - exists [], (S (length s)). split; [|done]. simpl. f_equal.
    symmetry. apply replicate_as_elem_of. split; [done|].
    by apply Forall_forall.
  - destruct (IH Hp) as (ss & n & -> & Hss).
    exists (x :: ss), n. split; [done|]. by constructor.
Qed.

Lemma sites_replicate n : sites (replicate n 0) = [].
Proof.
  unfold sites. induction n as [|n IH]; simpl; [done|].
  by rewrite filter_cons, decide_False by tauto.
Qed.

Lemma sites_nonzero ss : Forall (λ x, x ≠ 0) ss → sites ss = ss.
Proof.
  unfold sites. induction 1 as [|x ss Hx Hss IH]; [done|].
  by rewrite filter_cons, decide_True, IH by done.
Qed.

Lemma sites_app_zeros ss n :
  Forall (λ x, x ≠ 0) ss → sites (ss ++ replicate n 0) = ss.
Proof.
  intros H. unfold sites. rewrite filter_app. fold (sites ss).
  fold (sites (replicate n 0)).
  by rewrite sites_nonzero, sites_replicate, app_nil_r.
Qed.

Lemma insert_middle {A} (l1 l2 : list A) x y :
  <[length l1 := y]> (l1 ++ x :: l2) = l1 ++ y :: l2.
Proof.
  by rewrite <- (Nat.add_0_r (length l1)), insert_app_r.
Qed.

Lemma drop_S_middle {A} (l1 l2 : list A) x :
  drop (S (length l1)) (l1 ++ x :: l2) = l2.
Proof.
  replace (S (length l1)) with (length l1 + 1)%nat by lia.
  by rewrite drop_app_add'.
Qed.

Lemma firstZero_app k l2 tl :
  Forall (λ x, x ≠ 0) l2 →
  firstZero k (l2 ++ 0 :: tl) = Some (k + length l2)%nat.
Proof.
  intros H. revert k. induction H as [|x l2 Hx Hl2 IH]; intros k; simpl.
  - try rewrite decide_True by done. f_equal. lia.
  - rewrite decide_False by done. rewrite IH. f_equal. lia.
Qed.

Lemma scanSlot_skip j l1 tl geno mutLoc :
  Forall (λ a, a ≠ 0 ∧ a ≠ mutLoc) l1 →
  scanSlot j (l1 ++ tl) geno mutLoc =
  scanSlot (j + length l1) tl geno mutLoc.
Proof.
  intros H. revert j. induction H as [|a l1 [Ha1 Ha2] Hl1 IH]; intros j.
  - simpl. f_equal. lia.
  - simpl. rewrite !decide_False by done. rewrite IH. f_equal. lia.
Qed.

(** The site at the end of the sites of the slot is the one removed. *)
Lemma backMutation_last l1 x n :
  backMutation (length l1) (l1 ++ x :: replicate (S n) 0) =
    (l1 ++ replicate (S (S n)) 0, true).
Proof.
  unfold backMutation.
  replace (drop (S (length l1)) (l1 ++ x :: replicate (S n) 0))
    with (replicate (S n) 0).
  2:{ by rewrite drop_S_middle. }
  simpl. try rewrite decide_True by done.
  rewrite Nat.sub_0_r, list_lookup_total_middle by done.
  by rewrite !insert_middle.
Qed.

(** Another site is removed: the last site takes its place. *)
Lemma backMutation_inner l1 x l2 z n :
  Forall (λ a, a ≠ 0) (l2 ++ [z]) →
  backMutation (length l1) (l1 ++ x :: (l2 ++ [z]) ++ replicate (S n) 0) =
    (l1 ++ z :: l2 ++ replicate (S (S n)) 0, true).
Proof.
  intros Hnz. unfold backMutation.
  replace (drop (S (length l1)) (l1 ++ x :: (l2 ++ [z]) ++ replicate (S n) 0))
    with ((l2 ++ [z]) ++ 0 :: replicate n 0).
  2:{ by rewrite drop_S_middle. }
  rewrite firstZero_app by done. rewrite length_app. simpl.
  replace (length l1 + (length l2 + 1) - 0)%nat
    with (length (l1 ++ x :: l2)) by (rewrite length_app; simpl; lia).
  replace (l1 ++ x :: (l2 ++ [z]) ++ 0 :: replicate n 0)
    with ((l1 ++ x :: l2) ++ z :: 0 :: replicate n 0)
    by (by rewrite <- !app_assoc).
  rewrite list_lookup_total_middle by done.
  rewrite <- (app_assoc l1), <- app_comm_cons, insert_middle.
  replace (l1 ++ z :: l2 ++ z :: 0 :: replicate n 0)
    with ((l1 ++ z :: l2) ++ z :: 0 :: replicate n 0)
    by (by rewrite <- !app_assoc).
  replace (length (l1 ++ x :: l2)) with (length (l1 ++ z :: l2))
    by (rewrite !length_app; simpl; lia).
  rewrite insert_middle. by rewrite <- app_assoc.
Qed.

Lemma placeInSlot_back l1 mutLoc tl :
  mutLoc ≠ 0 → Forall (λ a, a ≠ 0 ∧ a ≠ mutLoc) l1 →
  placeInSlot (l1 ++ mutLoc :: tl) mutLoc =
    let '(geno', found) := backMutation (length l1) (l1 ++ mutLoc :: tl) in
    (geno', if found then Some 1 else None).
Proof.
  intros Hz Hl1. unfold placeInSlot. rewrite scanSlot_skip by done.
  simpl. by rewrite decide_False, decide_True by done.
Qed.

Lemma placeInSlot_back_spec slot mutLoc :
  packed slot → NoDup (sites slot) → mutLoc ∈ sites slot → 0 ∈ slot →
  ∃ slot',
    placeInSlot slot mutLoc = (slot', Some 1) ∧
    packed slot' ∧
    length slot' = length slot ∧
    S (length (sites slot')) = length (sites slot) ∧
    NoDup (sites slot') ∧
    (mutLoc ∉ slot') ∧
    ∀ x, x ∈ sites slot' ↔ x ∈ sites slot ∧ x ≠ mutLoc.
Proof.
  intros Hp Hnd Hin H0.
  destruct (packed_decomp slot Hp) as (ss & n & -> & Hss).
  rewrite sites_app_zeros in Hnd, Hin by done.
  assert (mutLoc ≠ 0) as Hz.
  { rewrite Forall_forall in Hss. by apply Hss. }
  destruct n as [|n].
  { exfalso. simpl in H0. rewrite app_nil_r in H0.
    rewrite Forall_forall in Hss. by apply (Hss 0). }
  apply list_elem_of_split in Hin as (l1 & l2 & ->).
  apply NoDup_app in Hnd as (Hnd1 & Hnd12 & Hnd2).
  apply NoDup_cons in Hnd2 as [Hn2 Hnd2].
  assert (mutLoc ∉ l1) as Hn1.
  { intros Hm. apply (Hnd12 _ Hm). by left. }
  apply Forall_app in Hss as [Hss1 Hss2].
  apply Forall_cons in Hss2 as [_ Hss2].
  assert (Forall (λ a, a ≠ 0 ∧ a ≠ mutLoc) l1) as Hl1.
  { rewrite Forall_forall in Hss1. apply Forall_forall. intros a Ha.
    split; [by apply Hss1|]. by intros ->. }
  rewrite sites_app_zeros
    by (apply Forall_app; split; [done|]; by apply Forall_cons).
  rewrite <- app_assoc, <- app_comm_cons.
  rewrite placeInSlot_back by done.
  destruct l2 as [|z l2 _] using rev_ind.
  - rewrite app_nil_l, backMutation_last.
    exists (l1 ++ replicate (S (S n)) 0). split; [done|].
    split; [by apply packed_app_zeros|].
    split. { rewrite !length_app. simpl. rewrite !length_replicate. lia. }
    rewrite sites_app_zeros by done.
    split. { rewrite !length_app. simpl. lia. }
    split; [done|]. split.
    + intros [Hm|Hm]%elem_of_app; [done|].
      by apply elem_of_replicate_inv in Hm.
    + intros y. rewrite elem_of_app, elem_of_cons.
      split; [|by intros [[?|[?|?%elem_of_nil]] ?]].
      intros Hy. split; [by left|]. by intros ->.
  - rewrite backMutation_inner by done.
    apply Forall_app in Hss2 as [Hss2 Hssz].
    rewrite Forall_singleton in Hssz.
    assert (Forall (λ x, x ≠ 0) (l1 ++ z :: l2)) as Hnew.
    { apply Forall_app. split; [done|]. by constructor. }
    assert (l1 ++ z :: l2 ≡ₚ l1 ++ l2 ++ [z]) as Hperm.
    { apply Permutation_app_head. apply Permutation_cons_append. }
    assert (NoDup (l1 ++ l2 ++ [z])) as Hnd'.
    { apply NoDup_app. split; [done|]. split; [|done].
      intros y Hy Hy'. apply (Hnd12 y Hy). by right. }
    exists ((l1 ++ z :: l2) ++ replicate (S (S n)) 0).
    split; [by rewrite <- app_assoc|].
    split; [by apply packed_app_zeros|].
    split.
    { repeat (rewrite ?length_app, ?length_replicate; simpl). lia. }
    rewrite sites_app_zeros by done.
    split. { repeat (rewrite ?length_app; simpl). lia. }
    split; [by rewrite Hperm|]. split.
    + intros [Hm|Hm]%elem_of_app.
      * rewrite Hperm in Hm. apply elem_of_app in Hm as [Hm|Hm]; done.
      * by apply elem_of_replicate_inv in Hm.
    + intros y. rewrite Hperm.
      rewrite (elem_of_app l1), (elem_of_app l1 (mutLoc :: _)), elem_of_cons.
      split; [|tauto]. intros Hy. split; [tauto|]. intros ->. tauto.
Qed.

(** C6. On a slot that is packed left, holds no site twice, holds the
    site [mutLoc] and has an empty entry, the scan takes the back-mutation
    branch (event 1) and leaves a slot of the same length that is packed
    left, holds one site fewer, holds no site twice and does not hold
    [mutLoc]; the other sites are kept. *)
Theorem back_mutation_removes_site slot mutLoc :
  packed slot → NoDup (sites slot) → mutLoc ∈ sites slot → 0 ∈ slot →
  ∃ slot',
    placeInSlot slot mutLoc = (slot', Some 1) ∧
    packed slot' ∧
    length slot' = length slot ∧
    S (length (sites slot')) = length (sites slot) ∧
    NoDup (sites slot') ∧
    (mutLoc ∉ slot') ∧
    ∀ x, x ∈ sites slot' ↔ x ∈ sites slot ∧ x ≠ mutLoc.
Proof. apply placeInSlot_back_spec. Qed.

Lemma back_mutation_removes_site_witness :
  ∃ slot',
    placeInSlot [3; 5; 7; 0; 0] 5 = (slot', Some 1) ∧
    packed slot' ∧
    length slot' = length [3; 5; 7; 0; 0] ∧
    S (length (sites slot')) = length (sites [3; 5; 7; 0; 0]) ∧
    NoDup (sites slot') ∧
    (5 ∉ slot') ∧
    ∀ x, x ∈ sites slot' ↔ x ∈ sites [3; 5; 7; 0; 0] ∧ x ≠ 5.
Proof.
  apply (back_mutation_removes_site [3; 5; 7; 0; 0] 5).
  - simpl. repeat constructor.
  - assert (sites [3; 5; 7; 0; 0] = [3; 5; 7]) as -> by (by vm_compute).
    repeat (apply NoDup_cons; split; [set_solver|]). apply NoDup_nil_2.
  - assert (sites [3; 5; 7; 0; 0] = [3; 5; 7]) as -> by (by vm_compute).
    set_solver.
  - set_solver.
Defined.

Example placeInSlot_back_example :
  placeInSlot [3; 5; 7; 0; 0] 5 = ([3; 7; 0; 0; 0], Some 1).
Proof. by vm_compute. Qed.

Example placeInSlot_new_example :
  placeInSlot [3; 5; 7; 0; 0] 9 = ([3; 5; 7; 9; 0], Some 0).
Proof. by vm_compute. Qed.

End MutatorSlot.

(** ** InfSitesMutator: placing a mutation *)

Section MutatorPlace.
Import InfSitesMutator.

Variable m_ranges : list (Z * Z).
Variable noOutput : bool.
Variable subPops : list nat.
Variable randGeometric : nat → positive.
Variable randInt : nat → Z → Z.

Lemma slotAt_getSlot pop i p ch slot :
  slotAt pop i p ch slot → getSlot pop i p ch = slot.
Proof.
  intros (ind & copy & Hi & Hp & Hch). unfold getSlot, genoPCh.
  rewrite (list_lookup_total_correct _ _ _ Hi).
  rewrite (list_lookup_total_correct _ _ _ Hp).
  by rewrite (list_lookup_total_correct _ _ _ Hch).
Qed.

Lemma getSlot_setSlot pop i p ch slot slot' :
  slotAt pop i p ch slot → getSlot (setSlot pop i p ch slot') i p ch = slot'.
Proof.
  intros (ind & copy & Hi & Hp & Hch). unfold getSlot, setSlot, genoPCh.
  simpl.
  rewrite list_lookup_total_alter_eq by by eapply lookup_lt_Some.
  rewrite (list_lookup_total_correct _ _ _ Hi).
  rewrite list_lookup_total_alter_eq by by eapply lookup_lt_Some.
  rewrite (list_lookup_total_correct _ _ _ Hp).
  rewrite list_lookup_total_insert_eq; [done|]. by eapply lookup_lt_Some.
Qed.

Lemma slotAt_addLoci pop i p ch n slot :
  slotAt pop i p ch slot →
  slotAt (addLoci ch n pop) i p ch (slot ++ replicate n 0).
Proof.
  intros (ind & copy & Hi & Hp & Hch). unfold slotAt, addLoci. simpl.
  eexists _, _. split; [|split].
  - rewrite list_lookup_fmap, Hi. reflexivity.
  - rewrite list_lookup_fmap, Hp. reflexivity.
  - by rewrite list_lookup_alter_eq, Hch.
Qed.

Lemma firstZero_is_Some k l : 0 ∈ l → ∃ j, firstZero k l = Some j.
Proof.
  revert k. induction l as [|a l IH]; intros k Hin.
  { by apply elem_of_nil in Hin. }
  simpl. destruct (decide (a = 0)); [by eexists|].
  apply IH. apply elem_of_cons in Hin as [?|?]; [congruence|done].
Qed.

Lemma scanSlot_new k rest geno mutLoc j :
  firstZero k rest = Some j →
  (∀ a, a ∈ rest → a ≠ 0 → a ≠ mutLoc) →
  scanSlot k rest geno mutLoc = (<[j := mutLoc]> geno, Some 0).
Proof.
  revert k. induction rest as [|a rest IH]; intros k Hf Hne; [done|].
  simpl in *. destruct (decide (a = 0)); [by simplify_eq|].
  rewrite decide_False by (apply Hne; [by left|done]).
  apply IH; [done|]. intros b Hb. apply Hne. by right.
Qed.

(** Writing a location the slot does not hold: it goes into the first
    empty entry, after growth if the last entry is taken, and event 0 is
    put out. *)
Lemma place_new i p ch mutLoc st slot :
  slotAt (pop st) i p ch slot →
  length slot = numLoci (pop st) !!! ch → slot ≠ [] →
  (∀ a, a ∈ slot → a ≠ 0 → a ≠ mutLoc) →
  let st' := place noOutput i p ch mutLoc st in
  ∃ slot1 j,
    (slot1 = slot ∨ slot1 = slot ++ replicate 10 0) ∧
    firstZero 0 slot1 = Some j ∧
    getSlot (pop st') i p ch = <[j := mutLoc]> slot1 ∧
    out st' =
      out st ++
      (if noOutput then [] else [(gen (pop st), mutLoc, i, 0)]) ∧
    draws st' = draws st ∧ m_mutants st' = m_mutants st ∧
    saturated st' = saturated st.
Proof.
  intros Hslot Hlen Hne Hnew. unfold place.
  rewrite (slotAt_getSlot _ _ _ _ _ Hslot). rewrite <- Hlen.
  set (pop1 := if decide (slot !!! (length slot - 1)%nat ≠ 0)
               then addLoci ch 10 (pop st) else pop st).
  assert (∃ slot1, (slot1 = slot ∨ slot1 = slot ++ replicate 10 0) ∧
            slotAt pop1 i p ch slot1 ∧ 0 ∈ slot1 ∧ gen pop1 = gen (pop st))
    as (slot1 & Hcase & Hslot1 & H0 & Hgen).
  { unfold pop1. case_decide as Hlast.
    - exists (slot ++ replicate 10 0). split; [by right|].
      split; [by apply slotAt_addLoci|]. split; [|done].
      apply elem_of_app. right. by apply elem_of_replicate.
    - exists slot. split; [by left|]. split; [done|]. split; [|done].
      rewrite <- Hlast.
      apply list_elem_of_lookup_total_2.
      destruct slot; [done|]. simpl. lia. }
  destruct (firstZero_is_Some 0 slot1 H0) as [j Hj].
  rewrite (slotAt_getSlot _ _ _ _ _ Hslot1).
  unfold placeInSlot. rewrite (scanSlot_new 0 slot1 slot1 mutLoc j Hj).
  2:{ intros a Ha Hz. apply Hnew; [|done].
      destruct Hcase as [->| ->]; [done|].
      apply elem_of_app in Ha as [Ha|Ha]; [done|].
      by apply elem_of_replicate_inv in Ha. }
  exists slot1, j. split; [done|]. split; [done|].
  unfold logLine. rewrite Hgen.
  destruct noOutput; simpl; rewrite ?app_nil_r;
    (split; [by eapply getSlot_setSlot|done]).
Qed.

Lemma packed_last_zero slot :
  packed slot → 0 ∈ slot → slot !!! (length slot - 1)%nat = 0.
Proof.
  intros Hp H0. destruct (packed_decomp slot Hp) as (ss & n & -> & Hss).
  destruct n as [|n].
  { exfalso. simpl in H0. rewrite app_nil_r in H0.
    rewrite Forall_forall in Hss. by apply (Hss 0). }
  rewrite length_app, length_replicate.
  rewrite lookup_total_app_r by lia.
  apply lookup_total_replicate_2. lia.
Qed.

(** In the loop body, a back mutation on such a slot needs no growth: the
    slot of the individual becomes the one the scan returns, and event 1
    is put out. *)
Lemma place_back i p ch mutLoc st slot :
  slotAt (pop st) i p ch slot →
  length slot = numLoci (pop st) !!! ch →
  packed slot → NoDup (sites slot) → mutLoc ∈ sites slot → 0 ∈ slot →
  let st' := place noOutput i p ch mutLoc st in
  ∃ slot',
    placeInSlot slot mutLoc = (slot', Some 1) ∧
    getSlot (pop st') i p ch = slot' ∧
    numLoci (pop st') = numLoci (pop st) ∧
    out st' =
      out st ++ (if noOutput then [] else [(gen (pop st), mutLoc, i, 1)]).
Proof.
  intros Hslot Hlen Hp Hnd Hin H0.
  destruct (placeInSlot_back_spec slot mutLoc Hp Hnd Hin H0)
    as (slot' & Hscan & _).
  exists slot'. split; [done|]. unfold place.
  rewrite (slotAt_getSlot _ _ _ _ _ Hslot), <- Hlen.
  rewrite packed_last_zero by done. rewrite decide_False by (by intros ?).
  rewrite (slotAt_getSlot _ _ _ _ _ Hslot), Hscan.
  unfold logLine. destruct noOutput; simpl; rewrite ?app_nil_r;
    (split; [by eapply getSlot_setSlot|done]).
Qed.

End MutatorPlace.

(** ** InfSitesMutator: the registry and the saturated state *)

Section MutatorFrozen.
Import InfSitesMutator.

Lemma frozen_refl b st : frozen b st st.
Proof.
  repeat split. exists []. by rewrite app_nil_r.
Qed.

Lemma frozen_trans b st1 st2 st3 :
  frozen b st1 st2 → frozen b st2 st3 → frozen b st1 st3.
Proof.
  intros (Hp1 & Hm1 & Hs1 & l1 & Ho1 & Hl1 & Hn1)
         (Hp2 & Hm2 & Hs2 & l2 & Ho2 & Hl2 & Hn2).
  split; [congruence|]. split; [congruence|]. split; [congruence|].
  exists (l1 ++ l2). split; [by rewrite Ho2, Ho1, app_assoc|].
  split; [by apply Forall_app|]. intros Hn. by rewrite Hn1, Hn2.
Qed.

Lemma frozen_tick b st : frozen b st (tick st).
Proof. repeat split. exists []. by rewrite app_nil_r. Qed.

End MutatorFrozen.

Section MutatorApply.
Import InfSitesMutator.

Variable m_ranges : list (Z * Z).
Variable noOutput : bool.
Variable subPops : list nat.
Variable randGeometric : nat → positive.
Variable randInt : nat → Z → Z.

Local Abbreviation mutateAt := (mutateAt m_ranges 2 noOutput randInt).
Local Abbreviation mutate := (mutate m_ranges 2 noOutput randInt).
Local Abbreviation whileLoop :=
  (whileLoop m_ranges 2 noOutput randGeometric randInt).
Local Abbreviation indLoop :=
  (indLoop m_ranges 2 noOutput randGeometric randInt).
Local Abbreviation spLoop :=
  (spLoop m_ranges 2 noOutput randGeometric randInt).
Local Abbreviation frozen := (frozen noOutput).

Lemma slotAt_popGeno pop i p ch slot a :
  slotAt pop i p ch slot → a ∈ slot → a ∈ popGeno pop.
Proof.
  intros (ind & copy & Hi & Hp & Hch) Ha. unfold popGeno, genoAll.
  apply list_elem_of_join. exists (mjoin (mjoin ind)). split.
  - apply list_elem_of_join. exists slot. split; [done|].
    apply list_elem_of_join. exists copy.
    split; by eapply list_elem_of_lookup_2.
  - apply list_elem_of_fmap. exists ind. split; [done|].
    by eapply list_elem_of_lookup_2.
Qed.

(** C9. In infinite-site mode (and not saturated), when the mapped
    position is in the registry but no genotype of the population holds
    it, no other locus is looked for: no draw is made, no event 2 or 3 is
    put out, and the position itself is written into the first empty
    entry of the slot (event 0).  So a relocation takes place only when
    the scan of the genotypes finds the position. *)
Theorem registry_hit_unconfirmed_is_placed i p ch mutLoc st slot :
  saturated st = false →
  StdSet.mem mutLoc (m_mutants st) = true →
  mutLoc ∉ popGeno (pop st) →
  slotAt (pop st) i p ch slot →
  length slot = numLoci (pop st) !!! ch → slot ≠ [] →
  let st' := mutateAt i p ch mutLoc st in
  st' = place noOutput i p ch mutLoc
          (set_mutants (StdSet.insert mutLoc) st) ∧
  ∃ slot1 j,
    (slot1 = slot ∨ slot1 = slot ++ replicate 10 0) ∧
    firstZero 0 slot1 = Some j ∧
    getSlot (pop st') i p ch = <[j := mutLoc]> slot1 ∧
    out st' =
      out st ++
      (if noOutput then [] else [(gen (pop st), mutLoc, i, 0)]) ∧
    draws st' = draws st ∧
    m_mutants st' = StdSet.insert mutLoc (m_mutants st) ∧
    saturated st' = false.
Proof.
  intros Hsat Hreg Hscan Hslot Hlen Hne. simpl.
  unfold InfSitesMutator.mutateAt. rewrite decide_True by done.
  rewrite Hsat, Hreg, bool_decide_eq_false_2 by done.
  split; [done|].
  destruct (place_new noOutput i p ch mutLoc
              (set_mutants (StdSet.insert mutLoc) st) slot)
    as (slot1 & j & H1 & H2 & H3 & H4 & H5 & H6 & H7); try done.
  { intros a Ha _ ->. apply Hscan. by eapply slotAt_popGeno. }
  exists slot1, j. simpl in *. by rewrite Hsat in H7.
Qed.

(** Once saturated, an attempt only writes a line of code 3, if there
    is an output. *)
Lemma mutateAt_saturated i p ch mutLoc st :
  saturated st = true →
  mutateAt i p ch mutLoc st =
    logLine noOutput (gen (pop st), mutLoc, i, 3) st.
Proof.
  intros Hsat. unfold InfSitesMutator.mutateAt.
  rewrite decide_True by done. by rewrite Hsat.
Qed.

Lemma locateVacantLocus_pop beg end_ st :
  pop (locateVacantLocus randInt beg end_ st).2 = pop st ∧
  out (locateVacantLocus randInt beg end_ st).2 = out st ∧
  saturated (locateVacantLocus randInt beg end_ st).2 = saturated st.
Proof.
  unfold locateVacantLocus. by repeat case_match.
Qed.

(** The failing relocation: the attempt is given up and the state becomes
    saturated. *)
Lemma mutateAt_saturates i p ch mutLoc st st1 :
  saturated st = false →
  StdSet.mem mutLoc (m_mutants st) = true →
  mutLoc ∈ popGeno (pop st) →
  locateVacantLocus randInt (m_ranges !!! ch).1 (m_ranges !!! ch).2 st
    = (0, st1) →
  mutateAt i p ch mutLoc st =
    set_saturated true (logLine noOutput (gen (pop st), mutLoc, i, 3) st1).
Proof.
  intros Hsat Hreg Hscan Hloc. unfold InfSitesMutator.mutateAt.
  rewrite decide_True by done.
  rewrite Hsat, Hreg, bool_decide_eq_true_2 by done. rewrite Hloc.
  rewrite decide_False by (by intros ?). rewrite decide_True by done.
  pose proof (locateVacantLocus_pop (m_ranges !!! ch).1 (m_ranges !!! ch).2 st)
    as [Hp _]. rewrite Hloc in Hp. simpl in Hp. by rewrite Hp.
Qed.

Lemma frozen_mutate i loc st : saturated st = true → frozen st (mutate i loc st).
Proof.
  intros Hsat. unfold InfSitesMutator.mutate. rewrite mutateAt_saturated by done.
  unfold logLine. destruct noOutput eqn:E; [apply frozen_refl|].
  repeat split. eexists. split; [reflexivity|]. split; [|done].
  by apply Forall_singleton.
Qed.

Lemma whileLoop_frozen fuel iw i loc st st' :
  saturated st = true → whileLoop fuel iw i loc st = Some st' → frozen st st'.
Proof.
  revert loc st. induction fuel as [|fuel IH]; intros loc st Hsat; [done|].
  simpl. case_decide.
  - intros [= <-]. apply frozen_tick.
  - intros Hw. apply IH in Hw.
    + eapply frozen_trans; [|apply Hw].
      eapply frozen_trans; [apply frozen_tick|]. by apply frozen_mutate.
    + destruct (frozen_mutate i (loc + Z.pos (randGeometric (draws st)))
                  (tick st) Hsat) as (_ & _ & -> & _). done.
Qed.

Lemma indLoop_frozen iw inds st st' :
  saturated st = true → indLoop iw inds st = Some st' → frozen st st'.
Proof.
  revert st. induction inds as [|i inds IH]; intros st Hsat.
  { intros [= <-]. apply frozen_refl. }
  cbn [InfSitesMutator.indLoop].
  destruct (whileLoop _ iw i 0 st) as [st1|] eqn:E; [|done]. simpl.
  apply whileLoop_frozen in E; [|done]. intros Hi.
  eapply frozen_trans; [apply E|]. apply IH; [|done].
  destruct E as (_ & _ & -> & _). done.
Qed.

Lemma spLoop_frozen iw sps st st' :
  saturated st = true → spLoop iw sps st = Some st' → frozen st st'.
Proof.
  revert st. induction sps as [|sp sps IH]; intros st Hsat.
  { intros [= <-]. apply frozen_refl. }
  cbn [InfSitesMutator.spLoop].
  destruct (indLoop iw _ st) as [st1|] eqn:E; [|done]. simpl.
  apply indLoop_frozen in E; [|done]. intros Hi.
  eapply frozen_trans; [apply E|]. apply IH; [|done].
  destruct E as (_ & _ & -> & _). done.
Qed.

(** The loops end. *)
Lemma whileLoop_total fuel iw i loc st :
  (Z.to_nat (iw - loc) < fuel)%nat → is_Some (whileLoop fuel iw i loc st).
Proof.
  revert loc st. induction fuel as [|fuel IH]; intros loc st Hf; [lia|].
  simpl. case_decide; [by eexists|]. apply IH. lia.
Qed.

Lemma indLoop_total iw inds st : is_Some (indLoop iw inds st).
Proof.
  revert st. induction inds as [|i inds IH]; intros st; [by eexists|].
  cbn [InfSitesMutator.indLoop].
  destruct (whileLoop_total (S (Z.to_nat iw)) iw i 0 st) as [st1 ->];
    [lia|]. apply IH.
Qed.

Lemma spLoop_total iw sps st : is_Some (spLoop iw sps st).
Proof.
  revert st. induction sps as [|sp sps IH]; intros st; [by eexists|].
  cbn [InfSitesMutator.spLoop].
  destruct (indLoop_total iw (seq 0 (subPopSizes (pop st) !!! sp)) st)
    as [st1 ->]. apply IH.
Qed.

Lemma apply_returns_true pop0 mutants d :
  ∃ st',
    apply m_ranges 2 noOutput subPops randGeometric randInt pop0 mutants d
      = Some (true, st').
Proof.
  unfold apply.
  destruct (spLoop_total
              (indWidth m_ranges pop0) subPops
              (mkState pop0 mutants false [] d)) as [st' ->].
  by eexists.
Qed.

(** C7.  In infinite-site mode, when [locateVacantLocus] returns 0 the
    attempt is given up with the genotypes unchanged and the state becomes
    saturated.  From then on, to the end of the call, every attempt
    leaves the genotypes and the registry unchanged and the state
    saturated; it is logged with code 3, the output being optional: one
    line when the operator has an output, none when it has not.  [apply]
    returns [true].  The hypothesis is about the value returned alone,
    whichever line of [locateVacantLocus] returned it. *)
Theorem saturation_lasts i p ch mutLoc st st1
    fuel iw loc inds sps stEnd :
  saturated st = false →
  StdSet.mem mutLoc (m_mutants st) = true →
  mutLoc ∈ popGeno (pop st) →
  locateVacantLocus randInt (m_ranges !!! ch).1 (m_ranges !!! ch).2 st
    = (0, st1) →
  let st2 := mutateAt i p ch mutLoc st in
  restOfCall m_ranges 2 noOutput randGeometric randInt
    fuel iw i loc inds sps st2 = Some stEnd →
  (saturated st2 = true ∧ pop st2 = pop st ∧
   out st2 =
     out st ++ (if noOutput then [] else [(gen (pop st), mutLoc, i, 3)])) ∧
  (∀ i' p' ch' mutLoc' st',
     saturated st' = true →
     mutateAt i' p' ch' mutLoc' st' =
       logLine noOutput (gen (pop st'), mutLoc', i', 3) st') ∧
  (pop stEnd = pop st ∧ m_mutants stEnd = m_mutants st2 ∧
   saturated stEnd = true ∧
   ∃ lines, out stEnd = out st2 ++ lines ∧
            Forall (λ l : Line, l.2 = 3) lines ∧
            (noOutput = true → lines = [])) ∧
  (∀ pop0 mutants d,
     ∃ st',
       apply m_ranges 2 noOutput subPops randGeometric randInt
         pop0 mutants d = Some (true, st')).
Proof.
  intros Hsat Hreg Hscan Hloc st2 Hrest.
  pose proof (locateVacantLocus_pop
                (m_ranges !!! ch).1 (m_ranges !!! ch).2 st) as (Hp & Ho & Hs).
  rewrite Hloc in Hp, Ho, Hs. simpl in Hp, Ho, Hs.
  assert (st2 = set_saturated true
                  (logLine noOutput (gen (pop st), mutLoc, i, 3) st1)) as Hst2
    by by apply mutateAt_saturates.
  assert (saturated st2 = true ∧ pop st2 = pop st ∧
          out st2 = out st ++
            (if noOutput then [] else [(gen (pop st), mutLoc, i, 3)]))
    as (Hsat2 & Hpop2 & Hout2).
  { rewrite Hst2. unfold logLine. destruct noOutput; simpl;
      rewrite ?app_nil_r; by rewrite ?Hp, ?Ho. }
  split; [done|]. split; [intros; by apply mutateAt_saturated|].
  split; [|apply apply_returns_true].
  unfold restOfCall in Hrest.
  destruct (whileLoop fuel iw i loc st2) as [sa|] eqn:Ea; [|done].
  simpl in Hrest.
  destruct (indLoop iw inds sa) as [sb|] eqn:Eb; [|done]. simpl in Hrest.
  apply whileLoop_frozen in Ea; [|done].
  assert (saturated sa = true) as Hsa.
  { destruct Ea as (_ & _ & -> & _). done. }
  apply indLoop_frozen in Eb; [|done].
  assert (saturated sb = true) as Hsb.
  { destruct Eb as (_ & _ & -> & _). done. }
  apply spLoop_frozen in Hrest; [|done].
  destruct (frozen_trans _ _ _ _ Ea (frozen_trans _ _ _ _ Eb Hrest))
    as (H1 & H2 & H3 & H4).
  split; [congruence|]. split; [done|]. split; [congruence|done].
Qed.

End MutatorApply.

(** ** InfSitesMutator: concrete evaluations *)

Section MutatorExamples.
Import InfSitesMutator.

(** The backward scan compares [loc - 1] with the element [loc] itself,
    so it returns [loc - 1] unless that is [beg]. *)
Lemma scanBackward_first loc its beg :
  scanBackward (loc :: its) (usub loc 1) beg =
    if decide (usub loc 1 = beg) then None else Some (usub loc 1).
Proof.
  simpl. case_decide; [done|]. rewrite decide_True; [done|].
  unfold usub, ULONG_modulus. intros Heq.
  pose proof (Z.div_mod (loc - 1) (2 ^ 64) ltac:(done)) as Hd.
  rewrite <- Heq in Hd.
  change (2 ^ 64) with 18446744073709551616 in Hd. lia.
Qed.

(** [locateVacantLocus] returns 0 without rebuilding the registry in two
    ways.  In a range that begins at 0 the location drawn can be 0 and
    free: it is returned at once (line 330).  In a range that begins at 1,
    with location 1 drawn and taken and no free location found by the
    forward scan, the backward scan returns [loc - 1 = 0] (line 344).
    [apply] reads either as a failed search. *)
Example locateVacantLocus_returns_zero :
  locateVacantLocus int0 0 5 st_mut = (0, tick st_mut) ∧
  locateVacantLocus int0 1 3 (mkState pop_mut [1; 2] false [] 0)
    = (0, tick (mkState pop_mut [1; 2] false [] 0)).
Proof. split; by vm_compute. Qed.

Lemma saturation_lasts_witness :
  let st2 := mutateAt [(0, 5)] 2 false int0 0 0 0 1 st_mut in
  let stEnd :=
    mkState pop_mut [1] true
            [(7, 1, 0%nat, 3); (7, 0, 0%nat, 3); (7, 3, 0%nat, 3)] 4 in
  (saturated st2 = true ∧ pop st2 = pop st_mut ∧
   out st2 = out st_mut ++ [(gen (pop st_mut), 1, 0%nat, 3)]) ∧
  (∀ i' p' ch' mutLoc' st',
     saturated st' = true →
     mutateAt [(0, 5)] 2 false int0 i' p' ch' mutLoc' st' =
       logLine false (gen (pop st'), mutLoc', i', 3) st') ∧
  (pop stEnd = pop st_mut ∧ m_mutants stEnd = m_mutants st2 ∧
   saturated stEnd = true ∧
   ∃ lines, out stEnd = out st2 ++ lines ∧
            Forall (λ l : Line, l.2 = 3) lines ∧
            (false = true → lines = [])) ∧
  (∀ pop0 mutants d,
     ∃ st',
       apply [(0, 5)] 2 false [0%nat] geo3 int0 pop0 mutants d
         = Some (true, st')).
Proof.
  apply (saturation_lasts [(0, 5)] false [0%nat] geo3 int0
           0 0 0 1 st_mut (tick st_mut) 11 10 3 [] []).
  - reflexivity.
  - by vm_compute.
  - assert (popGeno (pop st_mut) = [1; 0; 0; 0; 0; 0]) as ->
      by (by vm_compute).
    set_solver.
  - by vm_compute.
  - by vm_compute.
Defined.

Lemma registry_hit_unconfirmed_is_placed_witness :
  let st' := mutateAt [(0, 5)] 2 false int1 0 0 0 4 st_stale in
  st' = place false 0 0 0 4 (set_mutants (StdSet.insert 4) st_stale) ∧
  ∃ slot1 j,
    (slot1 = [1; 0; 0] ∨ slot1 = [1; 0; 0] ++ replicate 10 0) ∧
    firstZero 0 slot1 = Some j ∧
    getSlot (pop st') 0 0 0 = <[j := 4]> slot1 ∧
    out st' = out st_stale ++ [(gen (pop st_stale), 4, 0%nat, 0)] ∧
    draws st' = draws st_stale ∧
    m_mutants st' = StdSet.insert 4 (m_mutants st_stale) ∧
    saturated st' = false.
Proof.
  apply (registry_hit_unconfirmed_is_placed [(0, 5)] false int1
           0 0 0 4 st_stale [1; 0; 0]).
  - reflexivity.
  - by vm_compute.
  - assert (popGeno (pop st_stale) = [1; 0; 0; 0; 0; 0]) as ->
      by (by vm_compute).
    set_solver.
  - eexists _, _. split; [reflexivity|]. split; reflexivity.
  - reflexivity.
  - done.
Defined.

Example apply_example :
  apply [(0, 5)] 2 false [0%nat] geo3 int1 pop_mut [1] 0 =
    Some (true,
          mkState (mkPop 2 [3%nat] [1%nat] [ [[[1; 2; 0]]; [[3; 0; 0]]] ] 7)
                  [0; 1; 2; 3] false
                  [(7, 2, 0%nat, 0); (7, 0, 0%nat, 0); (7, 3, 0%nat, 0)] 4).
Proof. by vm_compute. Qed.

End MutatorExamples.

(** ** InfSitesRecombinator: free recombination *)

Section Recombinator.
Import InfSitesRecombinator.

Variable randBit : nat → bool.

Local Abbreviation inc := (StronglySorted Z.lt).

(** On a slot that is packed left, stopping at the first empty entry
    counts every site. *)
Lemma countUntilZero_packed s cnt :
  packed s → countUntilZero s cnt = InfSitesSelector.countMutants s cnt.
Proof.
  revert cnt. induction s as [|a s IH]; intros cnt Hp; [done|].
  simpl in *. destruct (decide (a = 0)) as [->|Ha]; [|by apply IH].
  clear IH. induction s as [|b s IH]; [done|].
  apply Forall_cons in Hp as [-> Hp]. simpl. by apply IH.
Qed.

Lemma get_pos_elem k cnt n :
  MutCounter.get k cnt = S n → (k, S n) ∈ cnt.
Proof.
  induction cnt as [|[k' c] cnt IH]; simpl; [done|].
  case_decide; [intros ->; subst; by left|]. intros Hg. right. by apply IH.
Qed.

Lemma keep_two k cnt d : (k, 2%nat) ∈ cnt → k ∈ (keep randBit cnt d).1.
Proof.
  revert d. induction cnt as [|[k' c] cnt IH]; intros d Hin.
  { by apply elem_of_nil in Hin. }
  simpl. apply elem_of_cons in Hin as [[= <- <-]|Hin].
  - rewrite decide_True by done.
    destruct (keep randBit cnt d). simpl. by left.
  - case_decide.
    + specialize (IH d Hin). destruct (keep randBit cnt d). simpl. by right.
    + destruct (randBit d).
      * specialize (IH (S d) Hin). destruct (keep randBit cnt (S d)).
        simpl. by right.
      * by apply IH.
Qed.

Lemma keep_length cnt d : (length (keep randBit cnt d).1 ≤ length cnt)%nat.
Proof.
  revert d. induction cnt as [|[k c] cnt IH]; intros d; [done|].
  cbn [keep]. destruct (decide (c = 2%nat)).
  - specialize (IH d). destruct (keep randBit cnt d). simpl in *. lia.
  - destruct (randBit d).
    + specialize (IH (S d)). destruct (keep randBit cnt (S d)).
      simpl in *. lia.
    + specialize (IH (S d)). simpl. lia.
Qed.

Lemma occ_NoDup_elem k l : NoDup l → k ∈ l → occ k l = 1%nat.
Proof.
  intros Hnd Hin. pose proof (occ_NoDup k l Hnd) as Hle.
  destruct (occ k l) eqn:E; [|lia]. by apply occ_0_notin in E.
Qed.

(** With several chromosomes, both copies are counted, and a site that
    is on both is written to the offspring whatever the coin flips, when
    the offspring slot has room for the sites counted. *)
Lemma transmitChrom_multi_keeps_shared parent offIndex ploidy ch st slot x :
  numChromOf parent ≠ 1%nat →
  packed (genoPCh parent 0 ch) → packed (genoPCh parent 1 ch) →
  NoDup (sites (genoPCh parent 0 ch)) →
  NoDup (sites (genoPCh parent 1 ch)) →
  x ∈ sites (genoPCh parent 0 ch) → x ∈ sites (genoPCh parent 1 ch) →
  slotAt (offPop st) offIndex ploidy ch slot →
  (length (countParent parent ch) < numLoci (offPop st) !!! ch)%nat →
  x ∈ getSlot (offPop (transmitChrom randBit parent offIndex ploidy ch st))
        offIndex ploidy ch.
Proof.
  intros Hn Hp0 Hp1 Hd0 Hd1 Hx0 Hx1 Hslot Hroom.
  pose proof (keep_length (countParent parent ch) (draws st)) as Hkl.
  revert Hroom Hkl.
  unfold transmitChrom, countParent.
  rewrite (decide_False (P := numChromOf parent = 1%nat)) by done.
  rewrite !countUntilZero_packed by done.
  set (cnt0 := InfSitesSelector.countMutants (genoPCh parent 0 ch) []).
  set (cnt := InfSitesSelector.countMutants (genoPCh parent 1 ch) cnt0).
  destruct (countMutants_spec (genoPCh parent 0 ch) [])
    as (Hi0 & _ & Hg0); [constructor|]. fold cnt0 in Hi0, Hg0.
  destruct (countMutants_spec (genoPCh parent 1 ch) cnt0 Hi0)
    as (Hi & _ & Hg). fold cnt in Hi, Hg.
  assert ((x, 2%nat) ∈ cnt) as Hin.
  { apply get_pos_elem. rewrite Hg, Hg0. simpl.
    by rewrite !occ_NoDup_elem. }
  rewrite decide_False by (intros E; rewrite E in Hin;
                           by apply elem_of_nil in Hin).
  pose proof (keep_two x cnt (draws st) Hin) as Hk.
  destruct (keep randBit cnt (draws st)) as [alleles d]. simpl in Hk.
  simpl. intros Hroom Hkl. rewrite decide_False by lia.
  cbn [offPop]. rewrite getSlot_setSlot with (slot := slot) by done.
  apply elem_of_app. by left.
Qed.

End Recombinator.

Section RecombinatorExamples.
Import InfSitesRecombinator.

(** C2 (evaluation of the code).  The parent has one chromosome and
    carries site 5 on both copies; every coin flip fails.  The count stops
    at the first empty entry of the first copy, site 5 is counted once,
    and the offspring slot comes out empty. *)
Theorem transmitGenotype0_one_chrom_loses_shared_site :
  let st' :=
    transmitGenotype0 tails parent_one_chrom 0 0 (mkState off_one_chrom 0) in
  5 ∈ genoPCh parent_one_chrom 0 0 ∧ 5 ∈ genoPCh parent_one_chrom 1 0 ∧
  countParent parent_one_chrom 0 = [(5, 1%nat)] ∧
  getSlot (offPop st') 0 0 0 = [0; 0; 0] ∧
  5 ∉ getSlot (offPop st') 0 0 0.
Proof.
  assert (getSlot (offPop (transmitGenotype0 tails parent_one_chrom 0 0
                             (mkState off_one_chrom 0))) 0 0 0 = [0; 0; 0])
    as Hs by (by vm_compute).
  cbv zeta. rewrite Hs.
  assert (genoPCh parent_one_chrom 0 0 = [5; 0; 0]) as -> by done.
  assert (genoPCh parent_one_chrom 1 0 = [5; 0; 0]) as -> by done.
  split; [set_solver|]. split; [set_solver|].
  split; [by vm_compute|]. split; [done|]. set_solver.
Qed.

(** The same parent with a second chromosome keeps the site. *)
Example transmitGenotype0_two_chrom_keeps_shared_site :
  getSlot (offPop (transmitGenotype0 tails parent_two_chrom 0 0
                     (mkState off_two_chrom 0))) 0 0 0 = [5; 0; 0].
Proof. by vm_compute. Qed.

End RecombinatorExamples.

(** ** RevertFixedSites: what a call leaves behind *)

Section RevertFixedSitesMore.
Import StdSet RevertFixedSites.

Local Abbreviation inc := (StronglySorted Z.lt).

Lemma fmap_length_reshape {A} (szs : list nat) (l : list A) :
  sum_list szs = length l → length <$> reshape szs l = szs.
Proof.
  revert l. induction szs as [|sz szs IH]; intros l Hl; [done|].
  simpl in *. rewrite length_take, IH.
  - f_equal. lia.
  - rewrite length_drop. lia.
Qed.

Lemma wf_trim_ind nl c ind :
  wf_ind nl 2 ind → inc c → wf_ind nl 2 (trim_ind nl c ind).
Proof.
  intros Hwf Hc.
  pose proof (length_genoP nl 2 ind 0 Hwf ltac:(lia)) as H0.
  pose proof (length_genoP nl 2 ind 1 Hwf ltac:(lia)) as H1.
  destruct Hwf as [Hlen _].
  destruct ind as [|c0 [|c1 [|]]]; simplify_eq/=.
  unfold trim_ind, write_copy, genoP in *. simpl in *.
  split; [done|].
  repeat constructor; unfold wf_copy; apply fmap_length_reshape;
    symmetry; by apply length_new_alleles.
Qed.

Lemma fixedSites_some_pop pop r :
  fixedSites pop = Some r → individuals pop ≠ [].
Proof.
  unfold fixedSites. case_decide; [done|]. by destruct (individuals pop).
Qed.

(** The population after a call that rewrote the genotypes. *)
Lemma trimmed_no_fixed pop r :
  wf_pop 2 pop → fixedSites pop = Some r →
  ∀ x, ¬ fixed (mkPop (ploidy pop) (numLoci pop) (subPopSizes pop)
                  (trim_ind (numLoci pop) r <$> individuals pop) (gen pop)) x.
Proof.
  intros Hwf E x [Hx Hall]. simpl in Hall.
  pose proof (fixedSites_spec pop) as Hs. rewrite E in Hs.
  destruct Hs as (_ & Hinc & Hr).
  assert (∀ ind p, ind ∈ individuals pop → (p < 2)%nat →
            x ∈ genoP ind p ∧ x ∉ r) as Hin.
  { intros ind p Hind Hp.
    assert (wf_ind (numLoci pop) 2 ind) as Hwi.
    { unfold wf_pop in Hwf. rewrite Forall_forall in Hwf. by apply Hwf. }
    assert (x ∈ genoP (trim_ind (numLoci pop) r ind) p) as Hx'.
    { destruct (Hall (trim_ind (numLoci pop) r ind)) as [H0 H1].
      { apply list_elem_of_fmap. by exists ind. }
      destruct p as [|[|p]]; [done|done|lia]. }
    rewrite genoP_trim_ind in Hx' by done.
    destruct (new_alleles_spec (sum_list (numLoci pop)) (genoP ind p) r Hinc)
      as (kept & Hn & _ & _ & Hk).
    rewrite Hn in Hx'. apply elem_of_app in Hx' as [Hx'|Hx'].
    - apply Hk in Hx'. tauto.
    - by apply elem_of_replicate_inv in Hx'. }
  destruct (individuals pop) as [|ind0 inds] eqn:Ei.
  { by apply fixedSites_some_pop in E. }
  destruct (Hin ind0 0%nat) as [_ Hnr]; [by left|lia|].
  apply Hnr, Hr. split; [done|]. intros ind Hind. rewrite Ei in Hind.
  split; [apply (Hin ind 0%nat)|apply (Hin ind 1%nat)]; (done || lia).
Qed.

(** X1. A second call of [RevertFixedSites::apply] changes nothing: no
    site is fixed in the population the first call returns. *)
Theorem RevertFixedSites_apply_twice noOutput noOutput' pop :
  wf_pop 2 pop →
  apply noOutput' (apply noOutput pop).1.2 =
    (true, (apply noOutput pop).1.2, []).
Proof.
  intros Hwf. rewrite (apply_fixedSites noOutput pop).
  destruct (fixedSites pop) as [r|] eqn:E; simpl.
  - rewrite apply_fixedSites, fixedSites_none; [done|].
    right; right. by apply trimmed_no_fixed.
  - by rewrite apply_fixedSites, E.
Qed.

Lemma RevertFixedSites_apply_twice_witness :
  apply true (apply false pop_fixed5).1.2 =
    (true, (apply false pop_fixed5).1.2, []).
Proof.
  apply (RevertFixedSites_apply_twice false true pop_fixed5).
  repeat constructor.
Defined.

(** X2. [RevertFixedSites::apply] keeps the shape of the population: the
    ploidy, the loci per chromosome, the subpopulation sizes, the
    generation, the number of individuals and the length of every slot. *)
Theorem RevertFixedSites_apply_keeps_shape noOutput pop :
  wf_pop 2 pop →
  let pop' := (apply noOutput pop).1.2 in
  wf_pop 2 pop' ∧ ploidy pop' = ploidy pop ∧ numLoci pop' = numLoci pop ∧
  subPopSizes pop' = subPopSizes pop ∧ gen pop' = gen pop ∧
  popSize pop' = popSize pop.
Proof.
  intros Hwf. cbv zeta. rewrite apply_fixedSites.
  pose proof (fixedSites_spec pop) as Hs.
  destruct (fixedSites pop) as [r|] eqn:E; simpl; [|done].
  destruct Hs as (_ & Hinc & _).
  split; [|unfold popSize; simpl; by rewrite length_fmap].
  unfold wf_pop in *. simpl. apply Forall_fmap.
  eapply Forall_impl; [apply Hwf|]. intros ind Hind. simpl.
  by apply wf_trim_ind.
Qed.

Lemma RevertFixedSites_apply_keeps_shape_witness :
  let pop' := (apply false pop_fixed5).1.2 in
  wf_pop 2 pop' ∧ ploidy pop' = ploidy pop_fixed5 ∧
  numLoci pop' = numLoci pop_fixed5 ∧
  subPopSizes pop' = subPopSizes pop_fixed5 ∧ gen pop' = gen pop_fixed5 ∧
  popSize pop' = popSize pop_fixed5.
Proof.
  apply (RevertFixedSites_apply_keeps_shape false pop_fixed5).
  repeat constructor.
Defined.

(** X3. What [RevertFixedSites::apply] writes: nothing when it has no
    output or returns early; otherwise one line, of the generation and of
    the fixed sites, each once, in increasing order. *)
Theorem RevertFixedSites_apply_output noOutput pop :
  let out := (apply noOutput pop).2 in
  match fixedSites pop with
  | None => out = []
  | Some r =>
      out = (if noOutput then [] else [(gen pop, r)]) ∧
      StronglySorted Z.lt r ∧ r ≠ [] ∧ ∀ x, x ∈ r ↔ fixed pop x
  end.
Proof.
  cbv zeta. rewrite apply_fixedSites.
  pose proof (fixedSites_spec pop) as Hs.
  destruct (fixedSites pop) as [r|]; simpl; [|done].
  destruct Hs as (? & ? & ?). done.
Qed.

End RevertFixedSitesMore.

(** ** InfSitesSelector: the source of the coefficients *)

Section SelectorSource.
Import InfSitesSelector.

Variable CONSTANT : Z.
Variable m_selDist : list R.
Variable func : pyFunc.
Variable randGamma : nat → R → R → R.
Variable m_mode : Mode.

Local Abbreviation getFitnessValue :=
  (getFitnessValue CONSTANT m_selDist func randGamma).
Local Abbreviation indFitness :=
  (indFitness CONSTANT m_selDist func randGamma m_mode).

Lemma double_to_int_IZR z : double_to_int (IZR z) = z.
Proof.
  unfold double_to_int. destruct (Rle_dec 0 (IZR z)) as [H|H].
  - symmetry. apply Int_part_spec. lra.
  - rewrite <- opp_IZR. rewrite <- (Int_part_spec (IZR (- z)) (- z)); [lia|].
    lra.
Qed.

(** What one resolution does to the map and to the list of new sites. *)
Lemma getFitnessValue_effect mutant st :
  let '(sf, st') := getFitnessValue mutant st in
  (m_selDist = [] ∧ m_selFactory st' = m_selFactory st ∧
   m_newMutants st' = m_newMutants st) ∨
  (m_selDist ≠ [] ∧ m_selFactory st' = <[mutant := sf]> (m_selFactory st) ∧
   m_newMutants st' = m_newMutants st ++ [mutant]).
Proof.
  unfold InfSitesSelector.getFitnessValue.
  destruct (decide (length m_selDist = 0%nat)) as [Hl|Hl].
  - apply nil_length_inv in Hl.
    destruct (decide (numArgs func = 0%nat));
      destruct (call func _ _) as [?|? [|? ?]|]; by left.
  - assert (m_selDist ≠ []) by (by intros ->).
    repeat case_decide; by right.
Qed.

(** X4. With a list of numbers (a constant or the parameters of a gamma
    distribution), [getFitnessValue] stores the pair it returns under the
    site, changes no other entry of the map, and appends the site to the
    list of new sites. *)
Theorem getFitnessValue_list_stored mutant st :
  m_selDist ≠ [] →
  let '(sf, st') := getFitnessValue mutant st in
  m_selFactory st' !! mutant = Some sf ∧
  (∀ k, k ≠ mutant → m_selFactory st' !! k = m_selFactory st !! k) ∧
  m_newMutants st' = m_newMutants st ++ [mutant].
Proof.
  intros Hne. pose proof (getFitnessValue_effect mutant st) as He.
  destruct (getFitnessValue mutant st) as [sf st'].
  destruct He as [[? _]|(_ & -> & ->)]; [done|].
  split; [apply lookup_insert_eq|]. split; [|done].
  intros k Hk. by rewrite lookup_insert_ne.
Qed.

(** X5. The pair a list of numbers yields.  When its first number is
    [CONSTANT], the pair is the second number and the third, or 0.5 when
    there is no third, and no random number is drawn.  Otherwise (the list
    then has a third number) the coefficient is one gamma draw with the
    second and third numbers as parameters, and the dominance is the
    fourth number, or 0.5. *)
Theorem getFitnessValue_list_value mode a rest mutant st :
  m_selDist = IZR mode :: a :: rest →
  (mode ≠ CONSTANT → rest ≠ []) →
  let '(sf, st') := getFitnessValue mutant st in
  if decide (mode = CONSTANT) then
    sf = (a, match rest with [] => (1 / 2)%R | h :: _ => h end) ∧
    draws st' = draws st
  else
    sf = (randGamma (draws st) a (nth 0 rest 0%R),
          match rest with _ :: h :: _ => h | _ => (1 / 2)%R end) ∧
    draws st' = S (draws st).
Proof.
  intros Hd _. unfold InfSitesSelector.getFitnessValue. rewrite Hd.
  cbn [length nth]. rewrite decide_False by done.
  rewrite double_to_int_IZR.
  destruct (decide (mode = CONSTANT)) as [Hm|Hm].
  - destruct rest as [|h rest]; cbn [length];
      [rewrite decide_False by lia|rewrite decide_True by lia]; done.
  - destruct rest as [|b [|h rest]]; cbn [length];
      [rewrite decide_False by lia|rewrite decide_False by lia
      |rewrite decide_True by lia]; done.
Qed.

End SelectorSource.

(** ** InfSitesSelector: what an evaluation does to the state *)

Section SelectorEvaluation.
Import InfSitesSelector.

Variable CONSTANT : Z.
Variable m_selDist : list R.
Variable func : pyFunc.
Variable randGamma : nat → R → R → R.
Variable m_mode : Mode.

Local Abbreviation getFitnessValue :=
  (getFitnessValue CONSTANT m_selDist func randGamma).
Local Abbreviation sumHalf := (sumHalf CONSTANT m_selDist func randGamma).
Local Abbreviation foldSites := (foldSites CONSTANT m_selDist func randGamma).
Local Abbreviation indFitness :=
  (indFitness CONSTANT m_selDist func randGamma m_mode).
Local Abbreviation BaseSelector_apply :=
  (BaseSelector_apply CONSTANT m_selDist func randGamma m_mode).

(** *** A genotype without sites *)

Lemma sumHalf_zeros geno s st :
  Forall (λ a, a = 0) geno → sumHalf geno s st = (s, st).
Proof.
  induction 1 as [|a geno -> _ IH]; [done|].
  cbn [InfSitesSelector.sumHalf]. by rewrite decide_True.
Qed.

Lemma countMutants_zeros geno cnt :
  Forall (λ a, a = 0) geno → countMutants geno cnt = cnt.
Proof.
  induction 1 as [|a geno -> _ IH]; [done|].
  cbn [countMutants]. by rewrite decide_True.
Qed.

(** X6. An individual without any site (every entry of its genotype is
    empty) has fitness 1 in the multiplicative, additive and exponential
    modes; nothing is resolved and the state is unchanged. *)
Theorem indFitness_no_site geno st :
  Forall (λ a, a = 0) geno →
  indFitness geno st =
    (match m_mode with OTHER_MODE => 0%R | _ => 1%R end, st).
Proof.
  intros Hz. unfold InfSitesSelector.indFitness, randomSelAddFitness,
    randomSelExpFitness, randomSelMulFitnessExt, randomSelAddFitnessExt,
    randomSelExpFitnessExt.
  rewrite countMutants_zeros, sumHalf_zeros by done. cbn [foldSites].
  assert (oneMinus 0 = 1%R) as Ho.
  { unfold oneMinus. destruct (Rlt_dec _ _); lra. }
  assert (exp (- 0) = 1%R) as He by (by rewrite Ropp_0, exp_0).
  destruct m_mode; [done| | |done]; destruct (m_additive st);
    cbn [InfSitesSelector.foldSites]; by rewrite ?Ho, ?He.
Qed.

(** *** Every site already in the map *)

Lemma foldSites_cached_state op cnt s st :
  (∀ k, k ∈ cnt.*1 → is_Some (m_selFactory st !! k)) →
  (foldSites op cnt s st).2 = st.
Proof.
  revert s. induction cnt as [|[k c] cnt IH]; intros s Hc; [done|].
  cbn [InfSitesSelector.foldSites].
  destruct (Hc k) as [sc Hsc]; [by left|]. rewrite Hsc.
  apply IH. intros b Hb. apply Hc. by right.
Qed.

(** X7. When the selection map holds every site of the genotype, the
    evaluation of the fitness resolves nothing: the map, the list of new
    sites, the additive flag and the number of draws are unchanged. *)
Theorem indFitness_cached_state geno st :
  (∀ a, a ∈ geno → a ≠ 0 → is_Some (m_selFactory st !! a)) →
  (indFitness geno st).2 = st.
Proof.
  intros Hc.
  assert (∀ k, k ∈ (countMutants geno []).*1 →
               is_Some (m_selFactory st !! k)) as Hk.
  { intros k Hin.
    destruct (countMutants_spec geno []) as (_ & Hkeys & _); [constructor|].
    apply Hkeys in Hin as [Hin|Hin]; [by apply elem_of_nil in Hin|].
    apply list_elem_of_filter in Hin as [Hz Hin]. by apply Hc. }
  unfold InfSitesSelector.indFitness, randomSelAddFitness,
    randomSelExpFitness, randomSelMulFitnessExt, randomSelAddFitnessExt,
    randomSelExpFitnessExt.
  pose proof (sumHalf_cached CONSTANT m_selDist func randGamma
                geno 0%R st Hc) as Hs.
  pose proof (foldSites_cached_state Rplus _ 0%R st Hk) as Hf.
  destruct m_mode; [by apply foldSites_cached_state| | |done];
    destruct (m_additive st); rewrite ?Hs; try done;
    by destruct (foldSites Rplus _ 0%R st).
Qed.

(** *** The order of the entries *)

Lemma count_comm x y cnt :
  MutCounter.count x (MutCounter.count y cnt) =
  MutCounter.count y (MutCounter.count x cnt).
Proof.
  induction cnt as [|[k c] cnt IH]; simpl.
  - repeat case_decide; (done || lia || by simplify_eq).
  - repeat (case_decide; simpl); try (done || lia); simplify_eq;
      try (done || lia). by rewrite IH.
Qed.

Lemma countMutants_perm geno geno' cnt :
  geno ≡ₚ geno' → countMutants geno cnt = countMutants geno' cnt.
Proof.
  intros Hp. revert cnt.
  induction Hp as [|a g g' _ IH|a b g|g1 g2 g3 _ IH1 _ IH2]; intros cnt.
  - done.
  - cbn [countMutants]. case_decide; apply IH.
  - cbn [countMutants]. repeat case_decide; try done.
    by rewrite count_comm.
  - by rewrite IH1, IH2.
Qed.

(** X8. The general forms of the three models do not depend on the order
    of the entries of the genotype: a permutation of the genotype (for
    instance the exchange of the two copies) gives the same fitness and
    the same state. *)
Theorem general_forms_permutation geno geno' st :
  geno ≡ₚ geno' →
  randomSelMulFitnessExt CONSTANT m_selDist func randGamma geno st =
    randomSelMulFitnessExt CONSTANT m_selDist func randGamma geno' st ∧
  randomSelAddFitnessExt CONSTANT m_selDist func randGamma geno st =
    randomSelAddFitnessExt CONSTANT m_selDist func randGamma geno' st ∧
  randomSelExpFitnessExt CONSTANT m_selDist func randGamma geno st =
    randomSelExpFitnessExt CONSTANT m_selDist func randGamma geno' st.
Proof.
  intros Hp. unfold randomSelMulFitnessExt, randomSelAddFitnessExt,
    randomSelExpFitnessExt.
  by rewrite (countMutants_perm geno geno' [] Hp).
Qed.

End SelectorEvaluation.

(** ** InfSitesSelector: a whole call *)

Section SelectorCall.
Import InfSitesSelector.

Variable CONSTANT : Z.
Variable m_selDist : list R.
Variable func : pyFunc.
Variable randGamma : nat → R → R → R.
Variable m_mode : Mode.

Local Abbreviation getFitnessValue :=
  (getFitnessValue CONSTANT m_selDist func randGamma).
Local Abbreviation sumHalf := (sumHalf CONSTANT m_selDist func randGamma).
Local Abbreviation foldSites := (foldSites CONSTANT m_selDist func randGamma).
Local Abbreviation indFitness :=
  (indFitness CONSTANT m_selDist func randGamma m_mode).
Local Abbreviation BaseSelector_apply :=
  (BaseSelector_apply CONSTANT m_selDist func randGamma m_mode).
Local Abbreviation apply :=
  (apply CONSTANT m_selDist func randGamma m_mode).

(** *** The map and the list of new sites during a call *)

Lemma grows_from_start st :
  grows_from st (mkState (m_selFactory st) [] (m_additive st) (draws st)).
Proof.
  split; [done|]. split; [apply NoDup_nil_2|]. intros k. simpl. split.
  - by intros ?%elem_of_nil.
  - intros [Hn [v Hv]]. congruence.
Qed.

Lemma grows_from_getFitnessValue st0 k st :
  grows_from st0 st → m_selFactory st !! k = None →
  grows_from st0 (getFitnessValue k st).2.
Proof.
  intros (Hext & Hnd & Hnew) Hk.
  pose proof (getFitnessValue_effect CONSTANT m_selDist func randGamma k st)
    as He.
  destruct (getFitnessValue k st) as [sf st']. simpl.
  destruct He as [(_ & Hm & Hn)|(_ & Hm & Hn)]; unfold grows_from;
    rewrite Hm, Hn.
  { done. }
  assert (m_selFactory st0 !! k = None) as Hk0.
  { destruct (m_selFactory st0 !! k) as [v|] eqn:E; [|done].
    apply Hext in E. congruence. }
  split; [|split].
  - intros k' v Hv. rewrite lookup_insert_ne; [by apply Hext|].
    intros <-. congruence.
  - apply NoDup_app. split; [done|]. split; [|apply NoDup_singleton].
    intros x Hx ->%list_elem_of_singleton.
    apply Hnew in Hx as [_ [v Hv]]. congruence.
  - intros k'. rewrite elem_of_app, list_elem_of_singleton, Hnew.
    destruct (decide (k' = k)) as [->|Hne].
    + rewrite lookup_insert_eq. split; [|tauto].
      intros _. split; [done|by eexists].
    + rewrite lookup_insert_ne by done. tauto.
Qed.

Lemma grows_from_sumHalf st0 geno s st :
  grows_from st0 st → grows_from st0 (sumHalf geno s st).2.
Proof.
  revert s st. induction geno as [|a geno IH]; intros s st Hg; [done|].
  cbn [InfSitesSelector.sumHalf]. destruct (decide (a = 0)); [by apply IH|].
  destruct (m_selFactory st !! a) as [sc|] eqn:E; [by apply IH|].
  pose proof (grows_from_getFitnessValue st0 a st Hg E) as Hg'.
  destruct (getFitnessValue a st) as [sf st']. by apply IH.
Qed.

Lemma grows_from_foldSites st0 op cnt s st :
  grows_from st0 st → grows_from st0 (foldSites op cnt s st).2.
Proof.
  revert s st. induction cnt as [|[k c] cnt IH]; intros s st Hg; [done|].
  cbn [InfSitesSelector.foldSites].
  destruct (m_selFactory st !! k) as [sc|] eqn:E; [by apply IH|].
  pose proof (grows_from_getFitnessValue st0 k st Hg E) as Hg'.
  destruct (getFitnessValue k st) as [sf st']. by apply IH.
Qed.

Lemma grows_from_indFitness st0 geno st :
  grows_from st0 st → grows_from st0 (indFitness geno st).2.
Proof.
  intros Hg. unfold InfSitesSelector.indFitness, randomSelAddFitness,
    randomSelExpFitness, randomSelMulFitnessExt, randomSelAddFitnessExt,
    randomSelExpFitnessExt.
  pose proof (grows_from_sumHalf st0 geno 0%R st Hg) as Hs.
  pose proof (grows_from_foldSites st0 Rplus (countMutants geno []) 0%R st Hg)
    as Hf.
  destruct m_mode; [by apply grows_from_foldSites| | |done];
    destruct (m_additive st);
    try (by destruct (sumHalf geno 0%R st));
    by destruct (foldSites Rplus _ 0%R st).
Qed.

Lemma grows_from_BaseSelector_apply st0 inds st :
  grows_from st0 st →
  let '(ok, fs, st') := BaseSelector_apply inds st in
  ok = true ∧ length fs = length inds ∧ grows_from st0 st'.
Proof.
  revert st. induction inds as [|ind inds IH]; intros st Hg; [done|].
  cbn [InfSitesSelector.BaseSelector_apply].
  pose proof (grows_from_indFitness st0 (genoAll ind) st Hg) as Hg'.
  destruct (indFitness (genoAll ind) st) as [f st1].
  specialize (IH st1 Hg').
  destruct (BaseSelector_apply inds st1) as [[ok fs] st2].
  destruct IH as (-> & Hl & IH). simpl. by rewrite Hl.
Qed.

(** X10. A call of [InfSitesSelector::apply] never changes a pair the
    selection map already holds; afterwards [m_newMutants] lists, each
    once, the sites the call has added to the map, and unless output is
    disabled there is one line per such site with the pair now stored for
    it. *)
Theorem apply_new_sites noOutput pop st :
  let '(ok, fs, out, st') := apply noOutput pop st in
  grows_from st st' ∧
  out = (if noOutput then []
         else (λ k, (k, (coef st' k).1, (coef st' k).2)) <$> m_newMutants st').
Proof.
  unfold InfSitesSelector.apply.
  pose proof (grows_from_BaseSelector_apply st (individuals pop) _
                (grows_from_start st)) as Hb.
  destruct (BaseSelector_apply _ _) as [[ok fs] st'].
  destruct Hb as (-> & _ & Hg). simpl. split; [done|].
  destruct noOutput; simpl; rewrite ?andb_false_r, ?andb_true_r; [done|].
  case_bool_decide as Hn; simpl; [by rewrite Hn|done].
Qed.

(** *** A call with a Python function *)

Lemma function_sumHalf geno s st :
  m_selDist = [] →
  m_selFactory (sumHalf geno s st).2 = m_selFactory st ∧
  m_newMutants (sumHalf geno s st).2 = m_newMutants st.
Proof.
  intros Hd. revert s st. induction geno as [|a geno IH]; intros s st; [done|].
  cbn [InfSitesSelector.sumHalf]. destruct (decide (a = 0)); [by apply IH|].
  destruct (m_selFactory st !! a) as [sc|] eqn:E; [by apply IH|].
  pose proof (getFitnessValue_effect CONSTANT m_selDist func randGamma a st)
    as He.
  destruct (getFitnessValue a st) as [sf st'].
  destruct He as [(_ & Hm & Hn)|(Hne & _)]; [|done].
  rewrite <- Hm, <- Hn. apply IH.
Qed.

Lemma function_foldSites op cnt s st :
  m_selDist = [] →
  m_selFactory (foldSites op cnt s st).2 = m_selFactory st ∧
  m_newMutants (foldSites op cnt s st).2 = m_newMutants st.
Proof.
  intros Hd. revert s st. induction cnt as [|[k c] cnt IH]; intros s st;
    [done|].
  cbn [InfSitesSelector.foldSites].
  destruct (m_selFactory st !! k) as [sc|] eqn:E; [by apply IH|].
  pose proof (getFitnessValue_effect CONSTANT m_selDist func randGamma k st)
    as He.
  destruct (getFitnessValue k st) as [sf st'].
  destruct He as [(_ & Hm & Hn)|(Hne & _)]; [|done].
  rewrite <- Hm, <- Hn. apply IH.
Qed.

Lemma function_indFitness geno st :
  m_selDist = [] →
  m_selFactory (indFitness geno st).2 = m_selFactory st ∧
  m_newMutants (indFitness geno st).2 = m_newMutants st.
Proof.
  intros Hd. unfold InfSitesSelector.indFitness, randomSelAddFitness,
    randomSelExpFitness, randomSelMulFitnessExt, randomSelAddFitnessExt,
    randomSelExpFitnessExt.
  pose proof (function_sumHalf geno 0%R st Hd) as Hs.
  pose proof (function_foldSites Rplus (countMutants geno []) 0%R st Hd)
    as Hf.
  destruct m_mode; [by apply function_foldSites| | |done];
    destruct (m_additive st);
    try (by destruct (sumHalf geno 0%R st));
    by destruct (foldSites Rplus _ 0%R st).
Qed.

Lemma function_BaseSelector_apply inds st :
  m_selDist = [] →
  let '(ok, fs, st') := BaseSelector_apply inds st in
  ok = true ∧ m_selFactory st' = m_selFactory st ∧
  m_newMutants st' = m_newMutants st.
Proof.
  intros Hd. revert st. induction inds as [|ind inds IH]; intros st; [done|].
  cbn [InfSitesSelector.BaseSelector_apply].
  pose proof (function_indFitness (genoAll ind) st Hd) as [Hm Hn].
  destruct (indFitness (genoAll ind) st) as [f st1].
  specialize (IH st1).
  destruct (BaseSelector_apply inds st1) as [[ok fs] st2].
  destruct IH as (-> & Hm' & Hn'). simpl in *. split; [done|]. split; congruence.
Qed.

(** X11. When the coefficients come from a Python function, a call of
    [InfSitesSelector::apply] leaves the selection map as it was, ends
    with an empty list of new sites and writes no output, whatever the
    population holds. *)
Theorem apply_function_writes_nothing noOutput pop st :
  m_selDist = [] →
  let '(ok, fs, out, st') := apply noOutput pop st in
  m_selFactory st' = m_selFactory st ∧ m_newMutants st' = [] ∧ out = [].
Proof.
  intros Hd. unfold InfSitesSelector.apply.
  pose proof (function_BaseSelector_apply (individuals pop)
    (mkState (m_selFactory st) [] (m_additive st) (draws st)) Hd) as Hb.
  destruct (BaseSelector_apply _ _) as [[ok fs] st'].
  destruct Hb as (-> & Hm & Hn). simpl in *. rewrite Hn.
  by rewrite bool_decide_true.
Qed.

End SelectorCall.

(** ** InfSitesMutator: from a position of the cursor to a location *)

Section MutatorPosition.
Import InfSitesMutator.

Lemma last_cons_default (a d : Z) l : List.last (a :: l) d = List.last l a.
Proof.
  revert a d. induction l as [|b l IH]; intros a d; [done|].
  change (List.last (a :: b :: l) d) with (List.last (b :: l) d).
  change (List.last (b :: l) a) with (List.last (b :: l) a).
  by rewrite (IH b d), (IH b a).
Qed.

Lemma findRegion_spec ranges prev reg m :
  Forall (λ r : Z * Z, r.1 < r.2) ranges →
  prev ≤ m < List.last (cumWidths ranges prev) prev →
  ∃ i b e lo,
    findRegion (cumWidths ranges prev) reg m = (reg + i)%nat ∧
    ranges !! i = Some (b, e) ∧ lo ≤ m < lo + (e - b) ∧
    (i = 0%nat → lo = prev) ∧
    (∀ j, i = S j → cumWidths ranges prev !! j = Some lo).
Proof.
  intros Hr. revert prev reg.
  induction Hr as [|[b e] ranges Hbe Hr IH]; intros prev reg Hm.
  { simpl in Hm. lia. }
  cbn [cumWidths findRegion]. cbn [cumWidths] in Hm.
  rewrite last_cons_default in Hm. simpl in Hbe.
  destruct (decide (m < e - b + prev)) as [Hlt|Hge].
  - exists 0%nat, b, e, prev. split; [f_equal; lia|]. split; [done|].
    split; [lia|]. split; [done|]. intros j Hj. lia.
  - destruct (IH (e - b + prev) (S reg)) as (i & b' & e' & lo & Hf & Hi & Hlo
                                              & H0 & HS); [lia|].
    exists (S i), b', e', lo. split; [rewrite Hf; lia|]. split; [done|].
    split; [done|]. split; [lia|]. intros j [= <-].
    destruct i as [|i']; simpl.
    + by rewrite H0.
    + by apply HS.
Qed.

Lemma last_cumWidths ranges prev :
  Forall (λ r : Z * Z, r.1 < r.2) ranges →
  prev ≤ List.last (cumWidths ranges prev) prev ∧
  (ranges ≠ [] → prev < List.last (cumWidths ranges prev) prev).
Proof.
  intros Hr. revert prev.
  induction Hr as [|[b e] ranges Hbe Hr IH]; intros prev; [done|].
  cbn [cumWidths]. rewrite last_cons_default. simpl in Hbe.
  destruct (IH (e - b + prev)) as [Hle _]. split; [lia|]. intros _. lia.
Qed.

(** The position [loc] as the source decomposes it: the copy, the widths
    of the chromosomes before the one it falls on, and the offset from the
    start of the range of that chromosome. *)
Lemma mapLoc_spec m_ranges ploidy loc :
  Forall (λ r : Z * Z, r.1 < r.2) m_ranges →
  1 ≤ loc ≤ Z.of_nat ploidy * ploidyWidth m_ranges →
  ∃ p ch mutLoc b e lo,
    mapLoc m_ranges loc = (p, ch, mutLoc) ∧
    (p < ploidy)%nat ∧ m_ranges !! ch = Some (b, e) ∧ b ≤ mutLoc < e ∧
    lo = (if decide (0 < ch)%nat then width m_ranges !!! (ch - 1)%nat
          else 0) ∧
    loc - 1 = Z.of_nat p * ploidyWidth m_ranges + lo + (mutLoc - b).
Proof.
  intros Hr Hloc. set (W := ploidyWidth m_ranges) in *.
  assert (0 < W) as HW.
  { destruct (last_cumWidths m_ranges 0 Hr) as [Hle Hlt].
    destruct (decide (m_ranges = [])) as [->|Hne]; [|by apply Hlt].
    unfold W, ploidyWidth, width in Hloc. simpl in Hloc. lia. }
  set (p := (loc - 1) / W). set (m := (loc - 1) - p * W).
  assert (0 ≤ p < Z.of_nat ploidy) as Hp.
  { unfold p. split; [apply Z.div_pos; lia|].
    apply Z.div_lt_upper_bound; lia. }
  assert (0 ≤ m < W) as Hm.
  { unfold m, p. pose proof (Z.mod_pos_bound (loc - 1) W HW) as Hb.
    rewrite Z.mod_eq in Hb by lia. lia. }
  destruct (findRegion_spec m_ranges 0 0 m Hr) as
    (ch & b & e & lo & Hf & Hch & Hlo & H0 & HS); [done|].
  simpl in Hf. change (cumWidths m_ranges 0) with (width m_ranges) in Hf, HS.
  assert (lo = if decide (0 < ch)%nat then width m_ranges !!! (ch - 1)%nat
               else 0) as Hlo'.
  { destruct ch as [|j].
    - rewrite decide_False by lia. by apply H0.
    - rewrite decide_True by lia.
      replace (S j - 1)%nat with j by lia. symmetry.
      apply list_lookup_total_correct. by apply HS. }
  exists (Z.to_nat p), ch, (m + b - lo), b, e, lo.
  split; [|split; [lia|split; [done|split; [lia|split; [done|]]]]].
  - unfold mapLoc. fold W. fold p. fold m. rewrite Hf.
    rewrite (list_lookup_total_correct _ _ _ Hch). cbn [fst].
    f_equal. destruct (decide (0 < ch)%nat); lia.
  - rewrite Z2Nat.id by lia. unfold m. lia.
Qed.

(** The loop body is the placement at the mapped position. *)
Lemma mutate_mapLoc m_ranges m_model noOutput randInt indIndex loc st :
  mutate m_ranges m_model noOutput randInt indIndex loc st =
    let '(p, ch, mutLoc) := mapLoc m_ranges loc in
    mutateAt m_ranges m_model noOutput randInt indIndex p ch mutLoc st.
Proof. done. Qed.

(** X12. Every position the cursor can take on an individual,
    [1 .. indWidth], is mapped to a copy of the individual, to one of the
    ranges and to a location inside that range, and the loop body places
    the mutation there. *)
Theorem mutation_lands_in_its_range
    m_ranges m_model noOutput randInt indIndex loc st :
  Forall (λ r : Z * Z, r.1 < r.2) m_ranges →
  1 ≤ loc ≤ indWidth m_ranges (pop st) →
  ∃ p ch mutLoc b e,
    mapLoc m_ranges loc = (p, ch, mutLoc) ∧
    mutate m_ranges m_model noOutput randInt indIndex loc st =
      mutateAt m_ranges m_model noOutput randInt indIndex p ch mutLoc st ∧
    (p < ploidy (pop st))%nat ∧ m_ranges !! ch = Some (b, e) ∧
    b ≤ mutLoc < e.
Proof.
  intros Hr Hloc.
  destruct (mapLoc_spec m_ranges (ploidy (pop st)) loc Hr Hloc)
    as (p & ch & mutLoc & b & e & lo & Hmap & Hp & Hch & Hb & _).
  exists p, ch, mutLoc, b, e. split; [done|].
  split; [by rewrite mutate_mapLoc, Hmap|done].
Qed.

(** X13. Two different positions of the cursor on an individual are never
    mapped to the same copy, chromosome and location. *)
Theorem mapLoc_injective m_ranges ploidy loc loc' :
  Forall (λ r : Z * Z, r.1 < r.2) m_ranges →
  1 ≤ loc ≤ Z.of_nat ploidy * ploidyWidth m_ranges →
  1 ≤ loc' ≤ Z.of_nat ploidy * ploidyWidth m_ranges →
  loc ≠ loc' → mapLoc m_ranges loc ≠ mapLoc m_ranges loc'.
Proof.
  intros Hr Hloc Hloc' Hne Heq. apply Hne.
  destruct (mapLoc_spec m_ranges ploidy loc Hr Hloc)
    as (p & ch & mutLoc & b & e & lo & Hmap & _ & Hch & _ & Hlo & Hq).
  destruct (mapLoc_spec m_ranges ploidy loc' Hr Hloc')
    as (p' & ch' & mutLoc' & b' & e' & lo' & Hmap' & _ & Hch' & _ & Hlo'
        & Hq').
  rewrite Hmap, Hmap' in Heq. injection Heq as <- <- <-.
  rewrite Hch in Hch'. injection Hch' as <- <-.
  rewrite <- Hlo in Hlo'. subst lo'. lia.
Qed.

End MutatorPosition.

(** ** InfSitesMutator: invariants of a call *)

Section MutatorGenotypes.
Import InfSitesMutator.

Lemma elem_of_alter_inv {A} (f : A → A) i (l : list A) y :
  y ∈ alter f i l → y ∈ l ∨ ∃ z, z ∈ l ∧ y = f z.
Proof.
  intros [j Hj]%list_elem_of_lookup.
  destruct (decide (i = j)) as [->|Hne].
  - rewrite list_lookup_alter_eq in Hj.
    destruct (l !! j) as [z|] eqn:E; [|done]. injection Hj as <-.
    right. exists z. split; [by eapply list_elem_of_lookup_2|done].
  - rewrite list_lookup_alter_ne in Hj by done. left.
    by eapply list_elem_of_lookup_2.
Qed.

Lemma elem_of_insert_inv {A} i (x : A) (l : list A) y :
  y ∈ <[i:=x]> l → y = x ∨ y ∈ l.
Proof.
  intros [j Hj]%list_elem_of_lookup.
  apply list_lookup_insert_Some in Hj as [(_ & -> & _)|[_ Hj]];
    [by left|right; by eapply list_elem_of_lookup_2].
Qed.

Lemma lookup_total_elem {A} `{Inhabited A} (l : list A) i :
  l !!! i ∈ l ∨ l !!! i = inhabitant.
Proof.
  rewrite list_lookup_total_alt. destruct (l !! i) as [x|] eqn:E; simpl.
  - left. by eapply list_elem_of_lookup_2.
  - by right.
Qed.

Lemma elem_of_popGeno pop x :
  x ∈ popGeno pop ↔
  ∃ ind copy slot,
    ind ∈ individuals pop ∧ copy ∈ ind ∧ slot ∈ copy ∧ x ∈ slot.
Proof.
  unfold popGeno, genoAll. rewrite list_elem_of_join. split.
  - intros (g & Hx & Hg). apply list_elem_of_fmap in Hg as (ind & -> & Hind).
    apply list_elem_of_join in Hx as (slot & Hx & Hs).
    apply list_elem_of_join in Hs as (copy & Hs & Hc).
    by exists ind, copy, slot.
  - intros (ind & copy & slot & Hind & Hc & Hs & Hx).
    exists (mjoin (mjoin ind)). split.
    + apply list_elem_of_join. exists slot. split; [done|].
      apply list_elem_of_join. by exists copy.
    + apply list_elem_of_fmap. by exists ind.
Qed.

Lemma elem_of_getSlot pop i p ch x :
  x ∈ getSlot pop i p ch → x ∈ popGeno pop.
Proof.
  unfold getSlot, genoPCh. intros Hx.
  destruct (lookup_total_elem (individuals pop) i) as [Hi|Hi];
    [|rewrite Hi in Hx; by apply elem_of_nil in Hx].
  destruct (lookup_total_elem (individuals pop !!! i) p) as [Hp|Hp];
    [|rewrite Hp in Hx; by apply elem_of_nil in Hx].
  destruct (lookup_total_elem ((individuals pop !!! i) !!! p) ch) as [Hc|Hc];
    [|rewrite Hc in Hx; by apply elem_of_nil in Hx].
  apply elem_of_popGeno. eauto 10.
Qed.

Lemma elem_of_popGeno_setSlot pop i p ch slot x :
  x ∈ popGeno (setSlot pop i p ch slot) → x ∈ popGeno pop ∨ x ∈ slot.
Proof.
  rewrite !elem_of_popGeno. unfold setSlot. simpl.
  intros (ind' & copy' & slot' & Hind & Hc & Hs & Hx).
  apply elem_of_alter_inv in Hind as [Hind|(ind & Hind & ->)];
    [left; eauto 10|].
  apply elem_of_alter_inv in Hc as [Hc|(copy & Hc & ->)];
    [left; eauto 10|].
  apply elem_of_insert_inv in Hs as [->|Hs]; [by right|left; eauto 10].
Qed.

Lemma elem_of_popGeno_addLoci pop ch n x :
  x ∈ popGeno (addLoci ch n pop) → x ∈ popGeno pop ∨ x = 0.
Proof.
  rewrite !elem_of_popGeno. unfold addLoci. simpl.
  intros (ind' & copy' & slot' & Hind & Hc & Hs & Hx).
  apply list_elem_of_fmap in Hind as (ind & -> & Hind).
  apply list_elem_of_fmap in Hc as (copy & -> & Hc).
  apply elem_of_alter_inv in Hs as [Hs|(slot & Hs & ->)];
    [left; eauto 10|].
  apply elem_of_app in Hx as [Hx|Hx]; [left; eauto 10|].
  right. by apply elem_of_replicate_inv in Hx.
Qed.

Lemma firstZero_bound k0 l k :
  firstZero k0 l = Some k → (k0 ≤ k < k0 + length l)%nat.
Proof.
  revert k0. induction l as [|a l IH]; intros k0; simpl; [done|].
  case_decide; [intros [= <-]; lia|]. intros Hf%IH. lia.
Qed.

(** What the scan of a slot leaves in it, and the events it puts out. *)
Lemma scanSlot_elems j rest geno mutLoc x :
  x ∈ (scanSlot j rest geno mutLoc).1 → x = mutLoc ∨ x = 0 ∨ x ∈ geno.
Proof.
  revert j. induction rest as [|a rest IH]; intros j; simpl; [tauto|].
  destruct (decide (a = 0)).
  { simpl. intros [->|Hx]%elem_of_insert_inv; tauto. }
  destruct (decide (a = mutLoc)); [|apply IH].
  unfold backMutation.
  destruct (firstZero _ _) as [k|] eqn:Hf; simpl; [|tauto].
  apply firstZero_bound in Hf. rewrite length_drop in Hf.
  intros [->|[Hx|Hx]%elem_of_insert_inv]%elem_of_insert_inv; [tauto| |tauto].
  right. right. rewrite Hx. apply list_elem_of_lookup_total_2. lia.
Qed.

Lemma scanSlot_event j rest geno mutLoc :
  (scanSlot j rest geno mutLoc).2 = None ∨
  (scanSlot j rest geno mutLoc).2 = Some 0 ∨
  (scanSlot j rest geno mutLoc).2 = Some 1.
Proof.
  revert j. induction rest as [|a rest IH]; intros j; simpl; [tauto|].
  destruct (decide (a = 0)); [simpl; tauto|].
  destruct (decide (a = mutLoc)); [|apply IH].
  destruct (backMutation j geno) as [g []]; simpl; tauto.
Qed.

Lemma place_effect noOutput i p ch mutLoc st :
  let st' := place noOutput i p ch mutLoc st in
  (∀ x, x ∈ popGeno (pop st') →
        x ∈ popGeno (pop st) ∨ x = mutLoc ∨ x = 0) ∧
  m_mutants st' = m_mutants st ∧ saturated st' = saturated st ∧
  draws st' = draws st ∧
  ∃ lines, out st' = out st ++ lines ∧
           Forall (λ l : Line, l.2 = 0 ∨ l.2 = 1) lines ∧
           (noOutput = true → lines = []).
Proof.
  unfold place.
  set (pop1 := if decide (_ ≠ 0) then addLoci ch 10 (pop st) else pop st).
  assert (∀ x, x ∈ popGeno pop1 → x ∈ popGeno (pop st) ∨ x = 0) as H1.
  { intros x. unfold pop1. case_decide; [apply elem_of_popGeno_addLoci|tauto]. }
  pose proof (scanSlot_elems 0 (getSlot pop1 i p ch) (getSlot pop1 i p ch)
                mutLoc) as He.
  pose proof (scanSlot_event 0 (getSlot pop1 i p ch) (getSlot pop1 i p ch)
                mutLoc) as Hv.
  unfold placeInSlot. destruct (scanSlot _ _ _ _) as [geno' event].
  simpl in He, Hv.
  assert (∀ x, x ∈ popGeno (setSlot pop1 i p ch geno') →
               x ∈ popGeno (pop st) ∨ x = mutLoc ∨ x = 0) as H2.
  { intros x [Hx|Hx]%elem_of_popGeno_setSlot.
    - apply H1 in Hx. tauto.
    - apply He in Hx as [?|[?|Hx]]; [tauto|tauto|].
      apply elem_of_getSlot, H1 in Hx. tauto. }
  unfold logLine.
  destruct event as [code|]; [destruct noOutput eqn:E|]; simpl;
    (split; [done|]); repeat (split; [done|]).
  - exists []. by rewrite app_nil_r.
  - eexists. split; [done|]. split; [|done]. apply Forall_singleton.
    simpl. destruct Hv as [?|[?|?]]; [done|left|right]; congruence.
  - exists []. by rewrite app_nil_r.
Qed.

End MutatorGenotypes.

Section MutatorInvariant.
Import InfSitesMutator.

Variable m_ranges : list (Z * Z).
Variable m_model : Z.
Variable noOutput : bool.
Variable subPops : list nat.
Variable randGeometric : nat → positive.
Variable randInt : nat → Z → Z.

(** A property of the state that the draw of the next position and the
    loop body keep. *)
Variable I : State → Prop.
Hypothesis I_tick : ∀ st, I st → I (tick st).
Hypothesis I_mutate :
  ∀ i loc st, I st → I (mutate m_ranges m_model noOutput randInt i loc st).

Lemma whileLoop_invariant fuel iw i loc st :
  I st → (Z.to_nat (iw - loc) < fuel)%nat →
  ∃ st', whileLoop m_ranges m_model noOutput randGeometric randInt
           fuel iw i loc st = Some st' ∧ I st'.
Proof.
  revert loc st. induction fuel as [|fuel IH]; intros loc st HI Hf; [lia|].
  simpl. case_decide.
  - eexists. split; [done|]. by apply I_tick.
  - apply IH; [|lia]. by apply I_mutate, I_tick.
Qed.

Lemma indLoop_invariant iw inds st :
  I st →
  ∃ st', indLoop m_ranges m_model noOutput randGeometric randInt
           iw inds st = Some st' ∧ I st'.
Proof.
  revert st. induction inds as [|i inds IH]; intros st HI; [by eexists|].
  cbn [indLoop].
  destruct (whileLoop_invariant (S (Z.to_nat iw)) iw i 0 st HI)
    as (st1 & -> & HI1); [lia|].
  by apply IH.
Qed.

Lemma spLoop_invariant iw sps st :
  I st →
  ∃ st', spLoop m_ranges m_model noOutput randGeometric randInt
           iw sps st = Some st' ∧ I st'.
Proof.
  revert st. induction sps as [|sp sps IH]; intros st HI; [by eexists|].
  cbn [spLoop].
  destruct (indLoop_invariant iw (seq 0 (subPopSizes (pop st) !!! sp)) st HI)
    as (st1 & -> & HI1).
  by apply IH.
Qed.

Lemma apply_invariant pop0 mutants d :
  I (mkState pop0 mutants false [] d) →
  ∃ st', apply m_ranges m_model noOutput subPops randGeometric randInt
           pop0 mutants d = Some (true, st') ∧ I st'.
Proof.
  intros HI. unfold apply.
  destruct (spLoop_invariant (indWidth m_ranges pop0) subPops _ HI)
    as (st' & -> & HI').
  by eexists.
Qed.

End MutatorInvariant.

Section MutatorRegistry.
Import InfSitesMutator.

Variable m_ranges : list (Z * Z).
Variable noOutput : bool.
Variable subPops : list nat.
Variable randGeometric : nat → positive.
Variable randInt : nat → Z → Z.

(** X15. In the other mode (infinite alleles, [m_model] not 2) a call of
    [InfSitesMutator::apply] returns [true], never touches the registry,
    never becomes saturated, and puts out events 0 and 1 only. *)
Theorem apply_other_model_ignores_registry m_model pop0 mutants d :
  m_model ≠ 2 →
  ∃ st',
    apply m_ranges m_model noOutput subPops randGeometric randInt
      pop0 mutants d = Some (true, st') ∧
    m_mutants st' = mutants ∧ saturated st' = false ∧
    Forall (λ l : Line, l.2 = 0 ∨ l.2 = 1) (out st') ∧
    (noOutput = true → out st' = []).
Proof.
  intros Hm.
  apply (apply_invariant m_ranges m_model noOutput subPops randGeometric
           randInt
           (λ st, m_mutants st = mutants ∧ saturated st = false ∧
                  Forall (λ l : Line, l.2 = 0 ∨ l.2 = 1) (out st) ∧
                  (noOutput = true → out st = []))).
  - done.
  - intros i loc st (H1 & H2 & H3 & H4). unfold mutate, mutateAt.
    rewrite decide_False by done.
    match goal with
    | |- context [place noOutput ?i ?p ?ch ?m st] =>
        destruct (place_effect noOutput i p ch m st)
          as (_ & Hm1 & Hs1 & _ & lines & Ho & Hl & Hn)
    end.
    simpl in *. rewrite Hm1, Hs1, Ho.
    split; [done|]. split; [done|]. split; [by apply Forall_app|].
    intros E. by rewrite H4, Hn.
  - done.
Qed.

End MutatorRegistry.

(** ** InfSitesMutator: the search for a vacant location *)

Section MutatorSearch.
Import InfSitesMutator.

Variable randInt : nat → Z → Z.

Local Abbreviation inc := (StronglySorted Z.lt).

Lemma inc_after loc s : inc s → inc (after loc s).
Proof.
  unfold after. induction s as [|x s IH]; intros Hs; [done|].
  apply inc_cons_inv in Hs as [Hs Hx]. rewrite filter_cons.
  case_decide; [|by apply IH].
  apply inc_cons; [by apply IH|].
  intros y [_ Hy]%list_elem_of_filter. by apply Hx.
Qed.

Lemma elem_of_after loc s x : x ∈ after loc s ↔ loc < x ∧ x ∈ s.
Proof. unfold after. by rewrite list_elem_of_filter. Qed.

(** The forward scan over a run of consecutive sites that ends in a gap
    with a larger site behind it: the gap is returned. *)
Lemma scanForward_gap its loc1 end_ l :
  inc its → (∀ x, x ∈ its → loc1 ≤ x) →
  (∀ x, loc1 ≤ x < l → x ∈ its) → l ∉ its → (∃ y, y ∈ its ∧ l < y) →
  loc1 ≤ l < end_ →
  scanForward its loc1 end_ = Some l.
Proof.
  intros Hs. revert loc1.
  induction its as [|x its IH]; intros loc1 Hlow Hrun Hl [y [Hy Hly]] Hb.
  { by apply elem_of_nil in Hy. }
  apply inc_cons_inv in Hs as [Hs Hx]. cbn [scanForward].
  rewrite decide_False by lia.
  destruct (decide (loc1 = l)) as [->|Hne].
  { rewrite decide_True; [done|]. intros ->. apply Hl. by left. }
  assert (x = loc1) as ->.
  { assert (loc1 ∈ x :: its) as [->|Hin]%elem_of_cons by (apply Hrun; lia);
      [done|].
    apply Hx in Hin. specialize (Hlow x). 
    assert (loc1 ≤ x) by (apply Hlow; by left). lia. }
  rewrite decide_False by (by intros ?).
  apply IH; [done|..|lia].
  - intros z Hz. apply Hx in Hz. lia.
  - intros z Hz.
    assert (z ∈ loc1 :: its) as [->|Hin]%elem_of_cons by (apply Hrun; lia);
      [lia|done].
  - intros Hin. apply Hl. by right.
  - apply elem_of_cons in Hy as [->|Hy]; [lia|]. by exists y.
Qed.

(** The forward scan over sites that fill the range up to its end finds
    nothing. *)
Lemma scanForward_full its loc1 end_ :
  inc its → (∀ x, x ∈ its → loc1 ≤ x) →
  (∀ x, loc1 ≤ x < end_ → x ∈ its) → loc1 ≤ end_ →
  scanForward its loc1 end_ = None.
Proof.
  intros Hs. revert loc1.
  induction its as [|x its IH]; intros loc1 Hlow Hrun Hb; [done|].
  apply inc_cons_inv in Hs as [Hs Hx]. cbn [scanForward].
  destruct (decide (loc1 = end_)) as [|Hne]; [done|].
  assert (x = loc1) as ->.
  { assert (loc1 ∈ x :: its) as [->|Hin]%elem_of_cons by (apply Hrun; lia);
      [done|].
    apply Hx in Hin. assert (loc1 ≤ x) by (apply Hlow; by left). lia. }
  rewrite decide_False by (by intros ?).
  apply IH; [done|..|lia].
  - intros z Hz. apply Hx in Hz. lia.
  - intros z Hz.
    assert (z ∈ loc1 :: its) as [->|Hin]%elem_of_cons by (apply Hrun; lia);
      [lia|done].
Qed.

(** X16. When the location drawn by [locateVacantLocus] is taken, the
    sites of the registry above it are consecutive up to a first gap [l]
    inside the range, and the registry holds a site greater than [l],
    then [l] is returned: a location of the range that the registry does
    not hold.  The registry is left as it is. *)
Theorem locateVacantLocus_forward beg end_ st l :
  let loc := randInt (draws st) (usub end_ beg) + beg in
  inc (m_mutants st) → loc ∈ m_mutants st →
  loc < l < end_ → l ∉ m_mutants st →
  (∀ x, loc < x < l → x ∈ m_mutants st) →
  (∃ y, y ∈ m_mutants st ∧ l < y) →
  locateVacantLocus randInt beg end_ st = (l, tick st).
Proof.
  intros loc Hs Hloc Hl Hvac Hrun [y [Hy Hly]]. unfold locateVacantLocus.
  fold loc. cbn [tick m_mutants]. unfold StdSet.mem.
  rewrite bool_decide_eq_true_2 by done. cbn [negb]. unfold scanAround.
  rewrite (scanForward_gap (after loc (m_mutants st)) (loc + 1) end_ l);
    [done|by apply inc_after|..|lia].
  - intros x [Hx _]%elem_of_after. lia.
  - intros x Hx. apply elem_of_after. split; [lia|]. apply Hrun. lia.
  - by intros [_ Hin]%elem_of_after.
  - exists y. split; [|done]. apply elem_of_after. split; [lia|done].
Qed.

(** X17. When the location drawn by [locateVacantLocus] is taken and so
    is every location above it in the range, the backward scan returns
    the location just below it without looking it up in the registry, so
    also when it is taken. *)
Theorem locateVacantLocus_backward_unchecked beg end_ st :
  let loc := randInt (draws st) (usub end_ beg) + beg in
  inc (m_mutants st) → loc ∈ m_mutants st →
  (∀ x, loc < x < end_ → x ∈ m_mutants st) →
  loc < end_ → 1 ≤ loc < ULONG_modulus → loc - 1 ≠ beg →
  locateVacantLocus randInt beg end_ st = (loc - 1, tick st).
Proof.
  intros loc Hs Hloc Hfull Hend Hpos Hbeg. unfold locateVacantLocus.
  fold loc. cbn [tick m_mutants]. unfold StdSet.mem.
  rewrite bool_decide_eq_true_2 by done. cbn [negb]. unfold scanAround.
  rewrite (scanForward_full (after loc (m_mutants st)) (loc + 1) end_);
    [|by apply inc_after|..|lia].
  - rewrite scanBackward_first.
    assert (usub loc 1 = loc - 1) as ->
      by (unfold usub; apply Z.mod_small; lia).
    by rewrite decide_False.
  - intros x [Hx _]%elem_of_after. lia.
  - intros x Hx. apply elem_of_after. split; [lia|]. apply Hfull. lia.
Qed.

End MutatorSearch.

(** ** InfSitesMutator: a full slot, and location 0 *)

Section MutatorEdges.
Import InfSitesMutator.

Variable noOutput : bool.

Lemma setSlot_same pop i p ch slot :
  slotAt pop i p ch slot → setSlot pop i p ch slot = pop.
Proof.
  intros (ind & copy & Hi & Hp & Hch). destruct pop as [pl nl sp inds g].
  unfold setSlot. simpl in *. f_equal.
  apply list_eq. intros k. destruct (decide (i = k)) as [<-|Hne];
    [|by rewrite list_lookup_alter_ne].
  rewrite list_lookup_alter_eq, Hi. simpl. f_equal.
  apply list_eq. intros k. destruct (decide (p = k)) as [<-|Hne];
    [|by rewrite list_lookup_alter_ne].
  rewrite list_lookup_alter_eq, Hp. simpl. f_equal.
  by apply list_insert_id.
Qed.

Lemma firstZero_lookup k l j :
  firstZero k l = Some j → l !! (j - k)%nat = Some 0.
Proof.
  revert k. induction l as [|a l IH]; intros k; simpl; [done|].
  case_decide as Ha.
  - intros [= <-]. by rewrite Nat.sub_diag, Ha.
  - intros Hf. pose proof (firstZero_bound _ _ _ Hf) as Hb.
    apply IH in Hf. by replace (j - k)%nat with (S (j - S k)) by lia.
Qed.

(** X18. When every entry of the slot holds a site (none of them the one
    to write), [apply] grows the chromosome by ten loci and writes the
    new site into the first of them: the slot becomes the old entries,
    the site, and nine empty entries; event 0 is put out. *)
Theorem place_grows_full_slot i p ch mutLoc st slot :
  slotAt (pop st) i p ch slot →
  length slot = numLoci (pop st) !!! ch → slot ≠ [] →
  Forall (λ a, a ≠ 0 ∧ a ≠ mutLoc) slot →
  let st' := place noOutput i p ch mutLoc st in
  getSlot (pop st') i p ch = slot ++ mutLoc :: replicate 9 0 ∧
  numLoci (pop st') !!! ch = (length slot + 10)%nat ∧
  out st' = out st ++ (if noOutput then [] else [(gen (pop st), mutLoc, i, 0)]).
Proof.
  intros Hslot Hlen Hne Hfull. unfold place.
  rewrite (slotAt_getSlot _ _ _ _ _ Hslot), <- Hlen.
  assert (slot !!! (length slot - 1)%nat ≠ 0) as Hlast.
  { rewrite Forall_forall in Hfull. apply Hfull.
    apply list_elem_of_lookup_total_2. destruct slot; [done|]. simpl. lia. }
  rewrite decide_True by done.
  rewrite (slotAt_getSlot _ _ _ _ _ (slotAt_addLoci _ _ _ _ 10 _ Hslot)).
  unfold placeInSlot. rewrite scanSlot_skip by done.
  change (replicate 10 0) with (0 :: replicate 9 0).
  cbn [scanSlot]. rewrite decide_True by done.
  rewrite Nat.add_0_l, insert_middle.
  assert (numLoci (pop st) !!! ch ≠ 0%nat) as Hnl.
  { rewrite <- Hlen. by destruct slot. }
  assert (ch < length (numLoci (pop st)))%nat as Hch.
  { destruct (decide (ch < length (numLoci (pop st)))%nat); [done|].
    rewrite list_lookup_total_alt, lookup_ge_None_2 in Hnl by lia. done. }
  unfold logLine.
  destruct noOutput; cbn [pop out set_pop setSlot numLoci addLoci gen];
    rewrite ?app_nil_r;
    (split; [eapply getSlot_setSlot; by apply slotAt_addLoci|]);
    (split; [|done]); by rewrite list_lookup_total_alter_eq, Hlen.
Qed.

(** X19. Location 0 cannot be recorded: written into a slot whose last
    entry is empty, it leaves the whole population as it was, and yet
    event 0 is put out as for any new site. *)
Theorem place_location_zero i p ch st slot :
  slotAt (pop st) i p ch slot →
  length slot = numLoci (pop st) !!! ch → slot ≠ [] →
  slot !!! (length slot - 1)%nat = 0 →
  let st' := place noOutput i p ch 0 st in
  pop st' = pop st ∧
  out st' = out st ++ (if noOutput then [] else [(gen (pop st), 0, i, 0)]).
Proof.
  intros Hslot Hlen Hne Hlast. unfold place.
  rewrite (slotAt_getSlot _ _ _ _ _ Hslot), <- Hlen.
  rewrite decide_False by (by intros ?).
  rewrite (slotAt_getSlot _ _ _ _ _ Hslot).
  assert (0 ∈ slot) as H0.
  { rewrite <- Hlast. apply list_elem_of_lookup_total_2.
    destruct slot; [done|]. simpl. lia. }
  destruct (firstZero_is_Some 0 slot H0) as [j Hj].
  unfold placeInSlot. rewrite (scanSlot_new 0 slot slot 0 j Hj) by done.
  assert (slot !! j = Some 0) as Hj0.
  { apply firstZero_lookup in Hj. by rewrite Nat.sub_0_r in Hj. }
  rewrite list_insert_id by done.
  unfold logLine, set_pop.
  destruct noOutput; simpl; rewrite ?app_nil_r, setSlot_same by done; done.
Qed.

End MutatorEdges.

(** ** InfSitesRecombinator: the offspring of free recombination *)

Section RecombinatorSlots.
Import InfSitesRecombinator.

Variable randBit : nat → bool.

Local Abbreviation inc := (StronglySorted Z.lt).

Lemma slotAt_setSlot_eq pop i p ch slot s :
  slotAt pop i p ch slot → slotAt (setSlot pop i p ch s) i p ch s.
Proof.
  intros (ind & copy & Hi & Hp & Hch). unfold slotAt, setSlot. simpl.
  eexists _, _. split; [|split].
  - rewrite list_lookup_alter_eq, Hi. reflexivity.
  - rewrite list_lookup_alter_eq, Hp. reflexivity.
  - apply list_lookup_insert_eq. by eapply lookup_lt_Some.
Qed.

Lemma slotAt_setSlot_ne pop i p ch ch' slot s :
  ch ≠ ch' → slotAt pop i p ch slot →
  slotAt (setSlot pop i p ch' s) i p ch slot.
Proof.
  intros Hne (ind & copy & Hi & Hp & Hch). unfold slotAt, setSlot. simpl.
  eexists _, _. split; [|split].
  - rewrite list_lookup_alter_eq, Hi. reflexivity.
  - rewrite list_lookup_alter_eq, Hp. reflexivity.
  - by rewrite list_lookup_insert_ne.
Qed.

Lemma slotAt_addLoci_ne pop i p ch ch' n slot :
  ch ≠ ch' → slotAt pop i p ch slot → slotAt (addLoci ch' n pop) i p ch slot.
Proof.
  intros Hne (ind & copy & Hi & Hp & Hch). unfold slotAt, addLoci. simpl.
  eexists _, _. split; [|split].
  - rewrite list_lookup_fmap, Hi. reflexivity.
  - rewrite list_lookup_fmap, Hp. reflexivity.
  - by rewrite list_lookup_alter_ne.
Qed.

Lemma numLoci_in_range (nl : list nat) ch :
  nl !!! ch ≠ 0%nat → (ch < length nl)%nat.
Proof.
  intros Hnl. destruct (decide (ch < length nl)%nat); [done|].
  rewrite list_lookup_total_alt, lookup_ge_None_2 in Hnl by lia. done.
Qed.

(** The sites written for chromosome [ch] when the coin flips start at
    draw [d], in a slot that has room for the sites counted. *)
Lemma transmitChrom_spec parent i p ch st slot :
  slotAt (offPop st) i p ch slot →
  length slot = numLoci (offPop st) !!! ch →
  (length (countParent parent ch) < length slot)%nat →
  let st' := transmitChrom randBit parent i p ch st in
  let alleles :=
    if decide (countParent parent ch = []) then []
    else (keep randBit (countParent parent ch) (draws st)).1 in
  (∃ k, slotAt (offPop st') i p ch (alleles ++ replicate (S k) 0) ∧
        length (alleles ++ replicate (S k) 0) = length slot) ∧
  numLoci (offPop st') = numLoci (offPop st) ∧
  ∀ ch' slot',
    ch' ≠ ch → slotAt (offPop st) i p ch' slot' →
    slotAt (offPop st') i p ch' slot'.
Proof.
  intros Hslot Hlen Hroom. unfold transmitChrom.
  rewrite (slotAt_getSlot _ _ _ _ _ Hslot).
  destruct (decide (countParent parent ch = [])) as [Hc|Hc]; cbn zeta.
  { cbn [offPop]. split; [|split; [done|]].
    - exists (length slot - 1)%nat.
      replace (S (length slot - 1)) with (length slot) by lia.
      split; [by eapply slotAt_setSlot_eq|].
      cbn [app]. by rewrite length_replicate.
    - intros ch' slot' Hch' Hs'. by apply slotAt_setSlot_ne. }
  pose proof (keep_length randBit (countParent parent ch) (draws st)) as Hkl.
  destruct (keep randBit (countParent parent ch) (draws st)) as [alleles d].
  cbn [fst offPop] in *.
  rewrite decide_False by lia. cbn [offPop].
  split; [|split; [done|]].
  - exists (length slot - length alleles - 1)%nat.
    replace (S (length slot - length alleles - 1))
      with (length slot - length alleles)%nat by lia.
    split; [by eapply slotAt_setSlot_eq|].
    rewrite length_app, length_replicate. lia.
  - intros ch' slot' Hch' Hs'. by apply slotAt_setSlot_ne.
Qed.

Lemma transmitGenotype0_fold parent i p chs st :
  NoDup chs →
  (∀ ch, ch ∈ chs →
     ∃ slot, slotAt (offPop st) i p ch slot ∧
             length slot = numLoci (offPop st) !!! ch ∧
             (length (countParent parent ch) < length slot)%nat) →
  let st' := foldl (λ st ch, transmitChrom randBit parent i p ch st) st chs in
  (∀ ch, ch ∈ chs →
     ∃ d k,
       slotAt (offPop st') i p ch
         ((if decide (countParent parent ch = []) then []
           else (keep randBit (countParent parent ch) d).1)
          ++ replicate (S k) 0)) ∧
  numLoci (offPop st') = numLoci (offPop st) ∧
  (∀ ch slot,
     ch ∉ chs → slotAt (offPop st) i p ch slot →
     slotAt (offPop st') i p ch slot).
Proof.
  intros Hnd. revert st. induction Hnd as [|c chs Hc Hnd IH]; intros st Hwf.
  { simpl. split; [by intros ch ?%elem_of_nil|done]. }
  cbn [foldl]. set (st1 := transmitChrom randBit parent i p c st).
  destruct (Hwf c) as (slot & Hslot & Hlen & Hroom); [by left|].
  destruct (transmitChrom_spec parent i p c st slot Hslot Hlen Hroom)
    as [(k & Hk & _) [Hnum Hothers]]. fold st1 in Hk, Hnum, Hothers.
  destruct (IH st1) as (IH1 & IH2 & IH3).
  { intros ch Hch. destruct (Hwf ch) as (s & Hs & Hl & Hr); [by right|].
    assert (ch ≠ c) as Hcc by (by intros ->).
    exists s. rewrite Hnum. split; [by apply Hothers|done]. }
  split; [|split; [congruence|]].
  - intros ch [->|Hch]%elem_of_cons; [|by apply IH1].
    exists (draws st), k. by apply IH3.
  - intros ch s Hch Hs.
    assert (ch ≠ c) as Hcc by (intros ->; apply Hch; by left).
    assert (ch ∉ chs) as Hch' by (intros ?; apply Hch; by right).
    apply IH3; [done|]. by apply Hothers.
Qed.

Lemma keep_spec cnt d :
  inc cnt.*1 →
  inc (keep randBit cnt d).1 ∧ ∀ x, x ∈ (keep randBit cnt d).1 → x ∈ cnt.*1.
Proof.
  revert d. induction cnt as [|[k c] cnt IH]; intros d Hs.
  { split; [constructor|done]. }
  cbn [fmap list_fmap fst] in Hs. apply inc_cons_inv in Hs as [Hs Hk].
  cbn [keep].
  assert (∀ d', 
    inc (k :: (keep randBit cnt d').1) ∧
    ∀ x, x ∈ k :: (keep randBit cnt d').1 → x ∈ ((k, c) :: cnt).*1) as Hcons.
  { intros d'. destruct (IH d' Hs) as [Hi He]. split.
    - apply inc_cons; [done|]. intros y Hy. by apply Hk, He.
    - intros x [->|Hx]%elem_of_cons; [by left|]. right. by apply He. }
  assert (∀ d',
    inc (keep randBit cnt d').1 ∧
    ∀ x, x ∈ (keep randBit cnt d').1 → x ∈ ((k, c) :: cnt).*1) as Hskip.
  { intros d'. destruct (IH d' Hs) as [Hi He]. split; [done|].
    intros x Hx. right. by apply He. }
  destruct (decide (c = 2%nat)).
  - specialize (Hcons d). by destruct (keep randBit cnt d).
  - destruct (randBit d); [|apply Hskip].
    specialize (Hcons (S d)). by destruct (keep randBit cnt (S d)).
Qed.

Lemma countUntilZero_spec geno cnt :
  inc cnt.*1 →
  inc (countUntilZero geno cnt).*1 ∧
  ∀ k, k ∈ (countUntilZero geno cnt).*1 → k ∈ cnt.*1 ∨ (k ∈ geno ∧ k ≠ 0).
Proof.
  revert cnt. induction geno as [|a geno IH]; intros cnt Hs; simpl.
  { split; [done|tauto]. }
  destruct (decide (a = 0)); [split; [done|tauto]|].
  destruct (IH (MutCounter.count a cnt)) as [Hi He]; [by apply count_inc|].
  split; [done|]. intros k [Hk|[Hk Hz]]%He.
  - apply count_keys in Hk as [->|Hk]; [|by left].
    right. split; [by left|done].
  - right. split; [by right|done].
Qed.

Lemma elem_of_genoPCh parent p ch x :
  x ∈ genoPCh parent p ch → x ∈ genoAll parent.
Proof.
  unfold genoPCh, genoAll. intros Hx.
  destruct (lookup_total_elem parent p) as [Hp|Hp];
    [|rewrite Hp in Hx; by apply elem_of_nil in Hx].
  destruct (lookup_total_elem (parent !!! p) ch) as [Hc|Hc];
    [|rewrite Hc in Hx; by apply elem_of_nil in Hx].
  apply list_elem_of_join. eexists. split; [done|].
  apply list_elem_of_join. by eexists.
Qed.

Lemma countParent_spec parent ch :
  inc (countParent parent ch).*1 ∧
  ∀ k, k ∈ (countParent parent ch).*1 → k ∈ genoAll parent ∧ k ≠ 0.
Proof.
  unfold countParent. case_decide.
  - destruct (countUntilZero_spec (genoAll parent) []) as [Hi He];
      [constructor|].
    split; [done|]. intros k [Hk|Hk]%He; [by apply elem_of_nil in Hk|done].
  - destruct (countUntilZero_spec (genoPCh parent 0 ch) []) as [Hi0 He0];
      [constructor|].
    destruct (countUntilZero_spec (genoPCh parent 1 ch) _ Hi0) as [Hi He].
    split; [done|]. intros k [Hk|[Hk Hz]]%He.
    + apply He0 in Hk as [Hk|[Hk Hz]]; [by apply elem_of_nil in Hk|].
      split; [by eapply elem_of_genoPCh|done].
    + split; [by eapply elem_of_genoPCh|done].
Qed.

Lemma countParent_multi_two parent ch x :
  numChromOf parent ≠ 1%nat →
  packed (genoPCh parent 0 ch) → packed (genoPCh parent 1 ch) →
  NoDup (sites (genoPCh parent 0 ch)) →
  NoDup (sites (genoPCh parent 1 ch)) →
  x ∈ sites (genoPCh parent 0 ch) → x ∈ sites (genoPCh parent 1 ch) →
  (x, 2%nat) ∈ countParent parent ch.
Proof.
  intros Hn Hp0 Hp1 Hd0 Hd1 Hx0 Hx1. unfold countParent.
  rewrite decide_False by done. rewrite !countUntilZero_packed by done.
  set (cnt0 := InfSitesSelector.countMutants (genoPCh parent 0 ch) []).
  destruct (countMutants_spec (genoPCh parent 0 ch) [])
    as (Hi0 & _ & Hg0); [constructor|]. fold cnt0 in Hi0, Hg0.
  destruct (countMutants_spec (genoPCh parent 1 ch) cnt0 Hi0)
    as (Hi & _ & Hg).
  apply get_pos_elem. rewrite Hg, Hg0. simpl. by rewrite !occ_NoDup_elem.
Qed.

(** The slots of the offspring copy after [transmitGenotype0]. *)
Lemma transmitGenotype0_slots_spec parent i p st ch :
  (∀ ch, (ch < numChromOf parent)%nat →
     ∃ slot, slotAt (offPop st) i p ch slot ∧
             length slot = numLoci (offPop st) !!! ch ∧
             (length (countParent parent ch) < length slot)%nat) →
  (ch < numChromOf parent)%nat →
  ∃ slot',
    slotAt (offPop (transmitGenotype0 randBit parent i p st)) i p ch slot' ∧
    packed slot' ∧ inc (sites slot') ∧ 0 ∈ slot' ∧
    ∀ x, x ∈ sites slot' → x ∈ genoAll parent.
Proof.
  intros Hwf Hch. unfold transmitGenotype0.
  destruct (transmitGenotype0_fold parent i p (seq 0 (numChromOf parent)) st)
    as (Hfold & _ & _).
  { apply NoDup_seq. }
  { intros c Hc%elem_of_seq. apply Hwf. lia. }
  destruct (Hfold ch) as (d & k & Hslot); [apply elem_of_seq; lia|].
  eexists. split; [exact Hslot|].
  destruct (countParent_spec parent ch) as [Hi He].
  destruct (keep_spec (countParent parent ch) d Hi) as [Hki Hke].
  set (alleles := if decide (countParent parent ch = []) then []
                  else (keep randBit (countParent parent ch) d).1).
  assert (inc alleles ∧ ∀ x, x ∈ alleles → x ∈ genoAll parent ∧ x ≠ 0)
    as [Hai Hae].
  { unfold alleles. case_decide.
    - split; [constructor|]. by intros x ?%elem_of_nil.
    - split; [done|]. intros x Hx. by apply He, Hke. }
  assert (Forall (λ x, x ≠ 0) alleles) as Hnz.
  { apply Forall_forall. intros x Hx. by apply Hae. }
  rewrite sites_app_zeros by done.
  split; [by apply packed_app_zeros|]. split; [done|]. split.
  - apply elem_of_app. right. by left.
  - intros x Hx. by apply Hae.
Qed.

(** X20. When every slot of the offspring copy has room for the sites
    counted on that chromosome of the parent and one empty entry (so that
    no chromosome is grown), then after [transmitGenotype0] every
    chromosome of the offspring copy is a well-formed slot whatever the
    coin flips: it is packed left, its sites are in strictly increasing
    order (so none is repeated), every one of them is a site of the
    parent, and at least one empty entry follows them. *)
Theorem transmitGenotype0_offspring_slots parent i p st ch :
  (∀ ch, (ch < numChromOf parent)%nat →
     ∃ slot, slotAt (offPop st) i p ch slot ∧
             length slot = numLoci (offPop st) !!! ch ∧
             (length (countParent parent ch) < length slot)%nat) →
  (ch < numChromOf parent)%nat →
  ∃ slot',
    slotAt (offPop (transmitGenotype0 randBit parent i p st)) i p ch slot' ∧
    packed slot' ∧ inc (sites slot') ∧ 0 ∈ slot' ∧
    ∀ x, x ∈ sites slot' → x ∈ genoAll parent.
Proof. apply transmitGenotype0_slots_spec. Qed.

(** X21. With several chromosomes, and room in every slot of the
    offspring copy for the sites counted on that chromosome of the parent
    and one empty entry (so that no chromosome is grown),
    [transmitGenotype0] writes a site that the parent carries on both
    copies of a chromosome to that chromosome of the offspring copy,
    whatever the coin flips. *)
Theorem transmitGenotype0_multi_keeps_shared parent i p st ch x :
  (∀ ch, (ch < numChromOf parent)%nat →
     ∃ slot, slotAt (offPop st) i p ch slot ∧
             length slot = numLoci (offPop st) !!! ch ∧
             (length (countParent parent ch) < length slot)%nat) →
  (ch < numChromOf parent)%nat → numChromOf parent ≠ 1%nat →
  packed (genoPCh parent 0 ch) → packed (genoPCh parent 1 ch) →
  NoDup (sites (genoPCh parent 0 ch)) →
  NoDup (sites (genoPCh parent 1 ch)) →
  x ∈ sites (genoPCh parent 0 ch) → x ∈ sites (genoPCh parent 1 ch) →
  x ∈ getSlot (offPop (transmitGenotype0 randBit parent i p st)) i p ch.
Proof.
  intros Hwf Hch Hn Hp0 Hp1 Hd0 Hd1 Hx0 Hx1. unfold transmitGenotype0.
  destruct (transmitGenotype0_fold parent i p (seq 0 (numChromOf parent)) st)
    as (Hfold & _ & _).
  { apply NoDup_seq. }
  { intros c Hc%elem_of_seq. apply Hwf. lia. }
  destruct (Hfold ch) as (d & k & Hslot); [apply elem_of_seq; lia|].
  rewrite (slotAt_getSlot _ _ _ _ _ Hslot).
  pose proof (countParent_multi_two parent ch x Hn Hp0 Hp1 Hd0 Hd1 Hx0 Hx1)
    as Hin.
  rewrite decide_False
    by (intros E; rewrite E in Hin; by apply elem_of_nil in Hin).
  apply elem_of_app. left. by apply keep_two.
Qed.

End RecombinatorSlots.

(** ** InfSitesRecombinator: recombination at a given rate *)

Section CrossoverFacts.
Import InfSitesRecombinator Crossover.

Variable m_ranges : list (Z * Z).
Variable randGeometric : nat → positive.
Variable randBit : nat → bool.

Lemma copyPiece_spec geno lo hi al c :
  ∃ new,
    (copyPiece geno lo hi al c).1 = al ++ new ∧
    (∀ a, a ∈ new → a ≠ 0 ∧ lo ≤ a < hi ∧ a ∈ geno) ∧
    (NoDup (sites geno) → NoDup new).
Proof.
  revert al c. induction geno as [|a geno IH]; intros al c; cbn [copyPiece].
  { exists []. rewrite app_nil_r. split; [done|].
    split; [by intros ? ?%elem_of_nil|constructor]. }
  destruct (decide (a = 0)) as [Ha|Ha].
  { exists []. rewrite app_nil_r. split; [done|].
    split; [by intros ? ?%elem_of_nil|constructor]. }
  assert (NoDup (sites (a :: geno)) →
          (a ∉ sites geno) ∧ NoDup (sites geno)) as Hnd.
  { unfold sites. rewrite filter_cons, decide_True by done.
    by intros ?%NoDup_cons. }
  destruct (bool_decide (a >= lo) && bool_decide (a < hi)) eqn:E.
  - destruct (IH (al ++ [a]) (InfSitesMutator.usub c 1))
      as (new & -> & Hnew & Hd).
    exists (a :: new). split; [by rewrite <- app_assoc|].
    apply andb_prop in E as [E1%bool_decide_eq_true E2%bool_decide_eq_true].
    split.
    + intros b [->|Hb]%elem_of_cons.
      * split; [done|]. split; [lia|by left].
      * destruct (Hnew b Hb) as (? & ? & ?). split; [done|].
        split; [done|by right].
    + intros [Hn1 Hn2]%Hnd. apply NoDup_cons. split; [|by apply Hd].
      intros Hin. apply Hn1. destruct (Hnew a Hin) as (? & _ & ?).
      by apply list_elem_of_filter.
  - destruct (IH al c) as (new & -> & Hnew & Hd).
    exists new. split; [done|]. split.
    + intros b Hb. destruct (Hnew b Hb) as (? & ? & ?). split; [done|].
      split; [done|by right].
    + intros [_ Hn2]%Hnd. by apply Hd.
Qed.

Lemma lastPiece_spec geno lo hi al :
  0 < lo →
  ∃ new,
    lastPiece geno lo hi al = al ++ new ∧
    (∀ a, a ∈ new → a ≠ 0 ∧ lo ≤ a < hi ∧ a ∈ geno) ∧
    (NoDup (sites geno) → NoDup new).
Proof.
  intros Hlo. revert al.
  induction geno as [|a geno IH]; intros al; cbn [lastPiece].
  { exists []. rewrite app_nil_r. split; [done|].
    split; [by intros ? ?%elem_of_nil|constructor]. }
  destruct (bool_decide (a >= lo) && bool_decide (a < hi)) eqn:E.
  - destruct (IH (al ++ [a])) as (new & -> & Hnew & Hd).
    exists (a :: new). split; [by rewrite <- app_assoc|].
    apply andb_prop in E as [E1%bool_decide_eq_true E2%bool_decide_eq_true].
    split.
    + intros b [->|Hb]%elem_of_cons.
      * split; [lia|]. split; [lia|by left].
      * destruct (Hnew b Hb) as (? & ? & ?). split; [done|].
        split; [done|by right].
    + unfold sites. rewrite filter_cons, decide_True by lia.
      intros [Hn1 Hn2]%NoDup_cons. apply NoDup_cons. split; [|by apply Hd].
      intros Hin. apply Hn1. destruct (Hnew a Hin) as (? & _ & ?).
      by apply list_elem_of_filter.
  - destruct (IH al) as (new & -> & Hnew & Hd).
    exists new. split; [done|]. split.
    + intros b Hb. destruct (Hnew b Hb) as (? & ? & ?). split; [done|].
      split; [done|by right].
    + intros Hn. apply Hd. unfold sites in *. rewrite filter_cons in Hn.
      case_decide; [by apply NoDup_cons in Hn as [_ ?]|done].
Qed.

(** What holds of the variables of the loop: the sites collected lie
    below the start of the next piece, are sites of the parent, and none
    is repeated. *)
Local Abbreviation collected parent ch r0 v :=
  ((∀ a, a ∈ alleles v →
      a ≠ 0 ∧ a < beg v + r0 ∧
      (a ∈ genoPCh parent 0 ch ∨ a ∈ genoPCh parent 1 ch)) ∧
   NoDup (alleles v) ∧ (p v = 0%nat ∨ p v = 1%nat) ∧ 0 ≤ beg v < end_ v).

Section Pieces.

Variable parent : Individual.
Variable ch : nat.
Variables r0 width : Z.
Variables minAllele maxAllele : Z * Z.

Hypothesis NoDup0 : NoDup (sites (genoPCh parent 0 ch)).
Hypothesis NoDup1 : NoDup (sites (genoPCh parent 1 ch)).

Lemma piece_collected v :
  collected parent ch r0 v →
  let v' := piece randGeometric parent ch r0 minAllele maxAllele v in
  collected parent ch r0 v' ∧ 0 < beg v' ∧ end_ v < end_ v'.
Proof.
  intros (Hal & Hnd & Hp & Hb). unfold piece.
  assert (NoDup (sites (genoPCh parent (p v) ch)) ∧
          ∀ a, a ∈ genoPCh parent (p v) ch →
               a ∈ genoPCh parent 0 ch ∨ a ∈ genoPCh parent 1 ch)
    as [Hndp Hsub].
  { destruct Hp as [-> | ->]; (split; [done|tauto]). }
  assert (((p v + 1) mod 2 = 0 ∨ (p v + 1) mod 2 = 1)%nat) as Hp'.
  { destruct Hp as [-> | ->]; [by right|by left]. }
  destruct (_ && _ && _).
  - destruct (copyPiece_spec (genoPCh parent (p v) ch) (beg v + r0)
                (end_ v + r0) (alleles v) (sel (p v) (cnt v)))
      as (new & Hcp & Hnew & Hd).
    destruct (copyPiece _ _ _ _ _) as [al c]. simpl in Hcp. subst al.
    cbn zeta. cbn [alleles Crossover.p beg end_].
    split; [|lia]. split; [|split; [|split; [done|lia]]].
    + intros a [Ha|Ha]%elem_of_app.
      * destruct (Hal a Ha) as (? & ? & ?). split; [done|]. split; [lia|done].
      * destruct (Hnew a Ha) as (? & ? & ?). split; [done|].
        split; [lia|by apply Hsub].
    + apply NoDup_app. split; [done|]. split; [|by apply Hd].
      intros a Ha Ha'. destruct (Hal a Ha) as (_ & ? & _).
      destruct (Hnew a Ha') as (_ & ? & _). lia.
  - cbn [alleles Crossover.p beg end_]. split; [|lia].
    split; [|split; [done|split; [done|lia]]].
    intros a Ha. destruct (Hal a Ha) as (? & ? & ?). split; [done|].
    split; [lia|done].
Qed.

(** The loop ends, and keeps what every pass keeps. *)
Lemma doWhile_invariant (J : Vars → Prop) fuel v :
  (∀ v, J v →
        let v' := piece randGeometric parent ch r0 minAllele maxAllele v in
        J v' ∧ 0 < beg v' ∧ end_ v < end_ v') →
  J v → (Z.to_nat (width - end_ v) ≤ fuel)%nat → (1 ≤ fuel)%nat →
  ∃ v', doWhile randGeometric fuel parent ch r0 width minAllele maxAllele v
          = Some v' ∧
        J v' ∧ 0 < beg v'.
Proof.
  intros Hstep. revert v.
  induction fuel as [|fuel IH]; intros v Hv Hf H1; [lia|].
  cbn [doWhile].
  destruct (Hstep v Hv) as (Hv' & Hb' & He').
  destruct (bool_decide (end_ _ < width) && _) eqn:E; [|by eexists].
  apply andb_prop in E as [E%bool_decide_eq_true _].
  apply IH; [done|lia|lia].
Qed.

Lemma doWhile_collected fuel v :
  collected parent ch r0 v →
  (Z.to_nat (width - end_ v) ≤ fuel)%nat → (1 ≤ fuel)%nat →
  ∃ v', doWhile randGeometric fuel parent ch r0 width minAllele maxAllele v
          = Some v' ∧
        collected parent ch r0 v' ∧ 0 < beg v'.
Proof.
  apply (doWhile_invariant (λ v, collected parent ch r0 v)).
  apply piece_collected.
Qed.

End Pieces.

Lemma setAlleles_spec i p ch alleles pop slot :
  slotAt pop i p ch slot → length slot = numLoci pop !!! ch → slot ≠ [] →
  let pop' := setAlleles i p ch alleles pop in
  (∃ k, slotAt pop' i p ch (alleles ++ replicate (S k) 0)) ∧
  ∀ ch' slot',
    ch' ≠ ch → slotAt pop i p ch' slot' →
    slotAt pop' i p ch' slot' ∧ numLoci pop' !!! ch' = numLoci pop !!! ch'.
Proof.
  intros Hslot Hlen Hne. unfold setAlleles.
  assert (length slot ≠ 0%nat) as Hlen0 by (by destruct slot).
  destruct (decide (numLoci pop !!! ch < length alleles + 1)%nat)
    as [Hgrow|Hfit].
  - set (n := (length alleles - numLoci pop !!! ch + 2)%nat).
    pose proof (slotAt_addLoci _ _ _ _ n _ Hslot) as Hslot1.
    rewrite (slotAt_getSlot _ _ _ _ _ Hslot1). split.
    + exists 1%nat.
      replace (length (slot ++ replicate n 0%Z) - length alleles)%nat
        with 2%nat by (rewrite length_app, length_replicate; lia).
      by eapply slotAt_setSlot_eq.
    + intros ch' slot' Hch' Hs'.
      split; [by apply slotAt_setSlot_ne, slotAt_addLoci_ne|].
      cbn [numLoci setSlot addLoci]. by rewrite list_lookup_total_alter_ne.
  - rewrite (slotAt_getSlot _ _ _ _ _ Hslot). split.
    + exists (length slot - length alleles - 1)%nat.
      replace (S (length slot - length alleles - 1))
        with (length slot - length alleles)%nat by lia.
      by eapply slotAt_setSlot_eq.
    + intros ch' slot' Hch' Hs'. split; [by apply slotAt_setSlot_ne|done].
Qed.

(** One chromosome: the loop ends, and the slot written is well formed
    and made of sites of the parent. *)
Lemma crossover_transmitChrom_spec parent i pl ch st slot r0 r1 :
  slotAt (offPop st) i pl ch slot →
  length slot = numLoci (offPop st) !!! ch → slot ≠ [] →
  m_ranges !! ch = Some (r0, r1) → 0 ≤ r0 →
  packed (genoPCh parent 0 ch) → packed (genoPCh parent 1 ch) →
  NoDup (sites (genoPCh parent 0 ch)) →
  NoDup (sites (genoPCh parent 1 ch)) →
  ∃ st',
    transmitChrom1 m_ranges randGeometric randBit parent i pl ch st = Some st' ∧
    (∃ slot',
       slotAt (offPop st') i pl ch slot' ∧ packed slot' ∧
       NoDup (sites slot') ∧
       ∀ x, x ∈ sites slot' →
            x ∈ genoPCh parent 0 ch ∨ x ∈ genoPCh parent 1 ch) ∧
    ∀ ch' slot',
      ch' ≠ ch → slotAt (offPop st) i pl ch' slot' →
      slotAt (offPop st') i pl ch' slot' ∧
      numLoci (offPop st') !!! ch' = numLoci (offPop st) !!! ch'.
Proof.
  intros Hslot Hlen Hne Hr Hr0 Hp0 Hp1 Hd0 Hd1. unfold transmitChrom1.
  rewrite (list_lookup_total_correct _ _ _ Hr). cbn [fst snd].
  set (end0 := Z.pos (randGeometric (draws st))).
  set (p0 := if randBit (S (draws st)) then 0%nat else 1%nat).
  assert (p0 = 0 ∨ p0 = 1)%nat as Hp by (unfold p0; destruct (randBit _); tauto).
  assert (∀ x, x ∈ sites (genoPCh parent p0 ch) →
               x ∈ genoPCh parent 0 ch ∨ x ∈ genoPCh parent 1 ch) as Hsub.
  { intros x [_ Hx]%list_elem_of_filter. destruct Hp as [-> | ->]; tauto. }
  case_bool_decide as Hw.
  { eexists. split; [done|]. cbn [offPop]. unfold copyChromosome. split.
    - exists (genoPCh parent p0 ch).
      split; [by eapply slotAt_setSlot_eq|].
      destruct Hp as [E|E]; rewrite E in *; done.
    - intros ch' slot' Hch' Hs'. split; [by apply slotAt_setSlot_ne|done]. }
  destruct (scanCopy (genoPCh parent 0 ch) 0 r1 r0) as [[cnt0 min0] max0].
  destruct (scanCopy (genoPCh parent 1 ch) 0 r1 r0) as [[cnt1 min1] max1].
  destruct (doWhile_collected parent ch r0 (r1 - r0)
              (InfSitesMutator.usub min0 r0, InfSitesMutator.usub min1 r0)
              (InfSitesMutator.usub max0 r0, InfSitesMutator.usub max1 r0)
              Hd0 Hd1 (Z.to_nat (r1 - r0))
              (mkVars [] (cnt0, cnt1) p0 0 end0 (S (S (draws st)))))
    as (v & -> & (Hal & Hnd & Hpv & Hb) & Hbeg).
  { cbn [alleles Crossover.p beg end_].
    split; [by intros ? ?%elem_of_nil|]. split; [constructor|].
    split; [done|]. unfold end0. lia. }
  { cbn [end_]. lia. }
  { unfold end0 in Hw. lia. }
  cbn [mbind option_bind].
  set (al := if _ || _ then _ else _).
  assert ((∀ a, a ∈ al → a ≠ 0 ∧
             (a ∈ genoPCh parent 0 ch ∨ a ∈ genoPCh parent 1 ch)) ∧
          NoDup al) as [Hal' Hnd'].
  { unfold al. destruct (_ || _).
    - destruct (lastPiece_spec (genoPCh parent (p v) ch) (beg v + r0) r1
                  (alleles v)) as (new & -> & Hnew & Hd); [lia|].
      split.
      + intros a [Ha|Ha]%elem_of_app.
        * destruct (Hal a Ha) as (? & _ & ?). done.
        * destruct (Hnew a Ha) as (? & _ & ?). split; [done|].
          destruct Hpv as [E|E]; rewrite E in *; tauto.
      + apply NoDup_app. split; [done|]. split.
        * intros a Ha Ha'. destruct (Hal a Ha) as (_ & ? & _).
          destruct (Hnew a Ha') as (_ & ? & _). lia.
        * apply Hd. destruct Hpv as [E|E]; rewrite E; done.
    - split; [|done]. intros a Ha. destruct (Hal a Ha) as (? & _ & ?). done. }
  eexists. split; [done|]. cbn [offPop].
  destruct (setAlleles_spec i pl ch al (offPop st) slot Hslot Hlen Hne)
    as [[k Hk] Hothers].
  split; [|done]. eexists. split; [exact Hk|].
  assert (Forall (λ x, x ≠ 0) al) as Hnz.
  { apply Forall_forall. intros x Hx. by apply Hal'. }
  rewrite sites_app_zeros by done.
  split; [by apply packed_app_zeros|]. split; [done|].
  intros x Hx. by apply Hal'.
Qed.

Lemma slotAt_fun pop i p ch slot slot' :
  slotAt pop i p ch slot → slotAt pop i p ch slot' → slot = slot'.
Proof.
  intros H1%slotAt_getSlot H2%slotAt_getSlot. congruence.
Qed.

Section ChromLoop.

Variable parent : Individual.
Variables i pl : nat.

(** What is assumed of a chromosome and what is shown of its slot. *)
Variable Pre : nat → Prop.
Variable Post : nat → Slot → Prop.

Hypothesis step : ∀ ch st slot,
  Pre ch → slotAt (offPop st) i pl ch slot →
  length slot = numLoci (offPop st) !!! ch → slot ≠ [] →
  ∃ st',
    transmitChrom1 m_ranges randGeometric randBit parent i pl ch st = Some st' ∧
    (∃ slot', slotAt (offPop st') i pl ch slot' ∧ Post ch slot') ∧
    ∀ ch' slot',
      ch' ≠ ch → slotAt (offPop st) i pl ch' slot' →
      slotAt (offPop st') i pl ch' slot' ∧
      numLoci (offPop st') !!! ch' = numLoci (offPop st) !!! ch'.

Lemma chromLoop_spec chs st :
  NoDup chs →
  (∀ ch, ch ∈ chs →
     (∃ slot, slotAt (offPop st) i pl ch slot ∧
              length slot = numLoci (offPop st) !!! ch ∧ slot ≠ []) ∧
     Pre ch) →
  ∃ st',
    chromLoop m_ranges randGeometric randBit parent i pl chs st = Some st' ∧
    (∀ ch, ch ∈ chs →
       ∃ slot', slotAt (offPop st') i pl ch slot' ∧ Post ch slot') ∧
    (∀ ch slot,
       ch ∉ chs → slotAt (offPop st) i pl ch slot →
       slotAt (offPop st') i pl ch slot ∧
       numLoci (offPop st') !!! ch = numLoci (offPop st) !!! ch).
Proof.
  intros Hnd. revert st. induction Hnd as [|c chs Hc Hnd IH]; intros st Hwf.
  { eexists. split; [done|]. split; [by intros ch ?%elem_of_nil|done]. }
  cbn [chromLoop].
  destruct (Hwf c) as ((slot & Hslot & Hlen & Hne) & Hpre); [by left|].
  destruct (step c st slot Hpre Hslot Hlen Hne)
    as (st1 & -> & (slot1 & Hs1 & Hgood) & Hothers).
  cbn [mbind option_bind].
  destruct (IH st1) as (st' & -> & IH1 & IH2).
  { intros ch Hch.
    destruct (Hwf ch) as ((s & Hs & Hl & Hn) & Hrest); [by right|].
    split; [|done].
    assert (ch ≠ c) as Hcc by (by intros ->).
    destruct (Hothers ch s Hcc Hs) as [Hs' Hn'].
    exists s. by rewrite Hn'. }
  eexists. split; [done|]. split.
  - intros ch [->|Hch]%elem_of_cons; [|by apply IH1].
    exists slot1. split; [by apply IH2|done].
  - intros ch s Hch Hs.
    assert (ch ≠ c) as Hcc by (intros ->; apply Hch; by left).
    assert (ch ∉ chs) as Hch' by (intros ?; apply Hch; by right).
    destruct (Hothers ch s Hcc Hs) as [Hsa Hna].
    destruct (IH2 ch s Hch' Hsa) as [Hsb Hnb]. split; [done|congruence].
Qed.

End ChromLoop.

(** X22. [transmitGenotype1] ends whatever the draws, and leaves on every
    chromosome of the offspring copy a slot that is packed left, holds no
    site twice and holds only sites that the parent carries on that
    chromosome; this for a parent whose slots are packed left without a
    repeated site, and ranges that do not start below 0. *)
Theorem transmitGenotype1_offspring_slots parent i pl st :
  (∀ ch, (ch < numChromOf parent)%nat →
     (∃ slot, slotAt (offPop st) i pl ch slot ∧
              length slot = numLoci (offPop st) !!! ch ∧ slot ≠ []) ∧
     (∃ r0 r1, m_ranges !! ch = Some (r0, r1) ∧ 0 ≤ r0) ∧
     packed (genoPCh parent 0 ch) ∧ packed (genoPCh parent 1 ch) ∧
     NoDup (sites (genoPCh parent 0 ch)) ∧
     NoDup (sites (genoPCh parent 1 ch))) →
  ∃ st',
    transmitGenotype1 m_ranges randGeometric randBit parent i pl st
      = Some st' ∧
    ∀ ch, (ch < numChromOf parent)%nat →
      ∃ slot',
        slotAt (offPop st') i pl ch slot' ∧ packed slot' ∧
        NoDup (sites slot') ∧
        ∀ x, x ∈ sites slot' →
             x ∈ genoPCh parent 0 ch ∨ x ∈ genoPCh parent 1 ch.
Proof.
  intros Hwf. unfold transmitGenotype1.
  destruct (chromLoop_spec parent i pl
              (λ ch, (∃ r0 r1, m_ranges !! ch = Some (r0, r1) ∧ 0 ≤ r0) ∧
                     packed (genoPCh parent 0 ch) ∧
                     packed (genoPCh parent 1 ch) ∧
                     NoDup (sites (genoPCh parent 0 ch)) ∧
                     NoDup (sites (genoPCh parent 1 ch)))
              (λ ch slot',
                 packed slot' ∧ NoDup (sites slot') ∧
                 ∀ x, x ∈ sites slot' →
                      x ∈ genoPCh parent 0 ch ∨ x ∈ genoPCh parent 1 ch)
              ) with (chs := seq 0 (numChromOf parent)) (st := st)
    as (st' & Hrun & Hgood & _).
  { intros ch s slot ((r0 & r1 & Hr & Hr0) & Hp0 & Hp1 & Hd0 & Hd1)
      Hslot Hlen Hne.
    by eapply crossover_transmitChrom_spec. }
  { apply NoDup_seq. }
  { intros c Hc%elem_of_seq. apply Hwf. lia. }
  exists st'. split; [done|]. intros ch Hch. apply Hgood.
  apply elem_of_seq. lia.
Qed.

(** *** A parent that carries the same sites on both copies *)

Lemma sites_zeros g : Forall (λ y, y = 0) g → sites g = [].
Proof.
  unfold sites. induction 1 as [|a g -> _ IH]; [done|].
  by rewrite filter_cons, decide_False by tauto.
Qed.

Lemma sites_cons_nonzero a g : a ≠ 0 → sites (a :: g) = a :: sites g.
Proof. intros Ha. unfold sites. by rewrite filter_cons, decide_True. Qed.

Lemma scanCopy_spec g c mn mx lo hi :
  packed g → (∀ a, a ∈ sites g → lo ≤ a < hi) →
  lo ≤ mn ≤ hi → lo ≤ mx ≤ hi →
  ∃ mn' mx',
    scanCopy g c mn mx = (c + Z.of_nat (length (sites g)), mn', mx') ∧
    lo ≤ mn' ≤ hi ∧ lo ≤ mx' ≤ hi ∧ mn' ≤ mn ∧ mx ≤ mx' ∧
    ∀ a, a ∈ sites g → mn' ≤ a ≤ mx'.
Proof.
  revert c mn mx.
  induction g as [|a g IH]; intros c mn mx Hp Hr Hmn Hmx; cbn [scanCopy].
  { exists mn, mx. simpl. rewrite Z.add_0_r.
    repeat (split; [done || lia|]). by intros ? ?%elem_of_nil. }
  simpl in Hp. destruct (decide (a = 0)) as [->|Ha].
  { rewrite (sites_zeros (0 :: g)) by (by constructor).
    exists mn, mx. simpl. rewrite Z.add_0_r.
    repeat (split; [done || lia|]). by intros ? ?%elem_of_nil. }
  rewrite sites_cons_nonzero in Hr by done. rewrite sites_cons_nonzero by done.
  assert (lo ≤ a < hi) as Hin by (apply Hr; by left).
  destruct (IH (c + 1) (if decide (a < mn) then a else mn)
               (if decide (a > mx) then a else mx))
    as (mn' & mx' & -> & H1 & H2 & H3 & H4 & H5);
    [done|intros; apply Hr; by right|case_decide; lia|case_decide; lia|].
  exists mn', mx'. split.
  { do 2 f_equal. cbn [length]. lia. }
  split; [done|]. split; [done|].
  split; [repeat case_decide; lia|]. split; [repeat case_decide; lia|].
  intros b [->|Hb]%elem_of_cons; [|by apply H5].
  repeat case_decide; lia.
Qed.

Lemma copyPiece_packed g lo hi al c :
  packed g →
  let new := filter (λ a, lo ≤ a ∧ a < hi) (sites g) in
  (copyPiece g lo hi al c).1 = al ++ new ∧
  (Z.of_nat (length new) ≤ c < InfSitesMutator.ULONG_modulus →
   (copyPiece g lo hi al c).2 = c - Z.of_nat (length new)).
Proof.
  revert al c. induction g as [|a g IH]; intros al c Hp; cbn [copyPiece].
  { simpl. rewrite app_nil_r. split; [done|]. intros _. lia. }
  simpl in Hp. destruct (decide (a = 0)) as [->|Ha].
  { rewrite (sites_zeros (0 :: g)) by (by constructor). simpl.
    rewrite app_nil_r. split; [done|]. intros _. lia. }
  rewrite sites_cons_nonzero by done. rewrite filter_cons.
  destruct (IH (al ++ [a]) (InfSitesMutator.usub c 1) Hp) as [IH1 IH2].
  destruct (IH al c Hp) as [IH3 IH4].
  destruct (decide (lo ≤ a ∧ a < hi)) as [Hin|Hout].
  - rewrite !bool_decide_eq_true_2 by lia. cbn [andb].
    split; [by rewrite IH1, <- app_assoc|].
    cbn [length]. intros Hc.
    assert (InfSitesMutator.usub c 1 = c - 1) as Hu
      by (unfold InfSitesMutator.usub; apply Z.mod_small; lia).
    rewrite IH2 by (rewrite Hu; lia). rewrite Hu. lia.
  - assert (bool_decide (a >= lo) && bool_decide (a < hi) = false) as ->.
    { apply andb_false_iff.
      destruct (decide (lo ≤ a));
        [right; apply bool_decide_eq_false_2; lia
        |left; apply bool_decide_eq_false_2; lia]. }
    done.
Qed.

Lemma lastPiece_exact g lo hi al :
  lastPiece g lo hi al = al ++ filter (λ a, lo ≤ a ∧ a < hi) g.
Proof.
  revert al. induction g as [|a g IH]; intros al; cbn [lastPiece].
  { by rewrite app_nil_r. }
  rewrite filter_cons. destruct (decide (lo ≤ a ∧ a < hi)) as [Hin|Hout].
  - rewrite !bool_decide_eq_true_2 by lia. cbn [andb].
    by rewrite IH, <- app_assoc.
  - assert (bool_decide (a >= lo) && bool_decide (a < hi) = false) as ->.
    { apply andb_false_iff.
      destruct (decide (lo ≤ a));
        [right; apply bool_decide_eq_false_2; lia
        |left; apply bool_decide_eq_false_2; lia]. }
    apply IH.
Qed.

(** Name every length, for [lia]. *)
Ltac name_lengths :=
  repeat match goal with
  | |- context [length ?l] =>
      let n := fresh "n" in set (n := length l) in *; clearbody n
  | H : context [length ?l] |- _ =>
      let n := fresh "n" in set (n := length l) in *; clearbody n
  end.

Lemma filter_split_length (l : list Z) lo hi :
  lo ≤ hi →
  length (filter (λ a, lo ≤ a) l) =
    (length (filter (λ a, (lo ≤ a ∧ a < hi)%Z) l) +
     length (filter (λ a, (hi ≤ a)%Z) l))%nat.
Proof.
  intros Hle. induction l as [|a l IH]; [done|].
  rewrite !filter_cons. repeat case_decide; cbn [length]; lia.
Qed.

Lemma NoDup_range_length (l : list Z) lo hi :
  NoDup l → (∀ a, a ∈ l → lo ≤ a < hi) → lo ≤ hi →
  Z.of_nat (length l) ≤ hi - lo.
Proof.
  intros Hnd Hr Hle.
  assert (l ⊆+ seqZ lo (hi - lo)) as Hsub.
  { apply NoDup_submseteq; [done|]. intros a Ha%Hr.
    apply elem_of_seqZ. lia. }
  apply submseteq_length in Hsub. rewrite length_seqZ in Hsub. lia.
Qed.

(** The sites of copy [q] from [b] on. *)
Local Abbreviation above parent ch b q :=
  (sitesFrom b (genoPCh parent q ch)).

(** Besides: every site below the start of the next piece has been
    collected, and the counter of a copy is at least the number of its
    sites that are not below that start. *)
Local Abbreviation all_collected parent ch r0 v :=
  (collected parent ch r0 v ∧
   (∀ a, a ∈ sites (genoPCh parent 0 ch) → a < beg v + r0 →
         a ∈ alleles v) ∧
   ∀ q, q = 0%nat ∨ q = 1%nat →
        Z.of_nat (length (above parent ch (beg v + r0) q)) ≤ sel q (cnt v) ∧
        sel q (cnt v) ≤ Z.of_nat (length (sites (genoPCh parent q ch)))).

Section PiecesSame.

Variable parent : Individual.
Variable ch : nat.
Variables r0 width : Z.
Variables minAllele maxAllele : Z * Z.

Hypothesis Packed0 : packed (genoPCh parent 0 ch).
Hypothesis Packed1 : packed (genoPCh parent 1 ch).
Hypothesis NoDup0 : NoDup (sites (genoPCh parent 0 ch)).
Hypothesis NoDup1 : NoDup (sites (genoPCh parent 1 ch)).
Hypothesis Same :
  ∀ a, a ∈ sites (genoPCh parent 0 ch) ↔ a ∈ sites (genoPCh parent 1 ch).
Hypothesis Small : ∀ q,
  q = 0%nat ∨ q = 1%nat →
  Z.of_nat (length (sites (genoPCh parent q ch)))
    < InfSitesMutator.ULONG_modulus.
Hypothesis Bounds : ∀ q a,
  q = 0%nat ∨ q = 1%nat → a ∈ sites (genoPCh parent q ch) →
  sel q minAllele ≤ a - r0 ≤ sel q maxAllele.

Lemma piece_all_collected v :
  all_collected parent ch r0 v →
  let v' := piece randGeometric parent ch r0 minAllele maxAllele v in
  all_collected parent ch r0 v' ∧ 0 < beg v' ∧ end_ v < end_ v'.
Proof.
  intros (Hcol & Hcomp & Hcnt).
  destruct (piece_collected parent ch r0 minAllele maxAllele NoDup0 NoDup1
              v Hcol) as (Hcol' & Hb' & He').
  cbn zeta. split; [|done]. split; [done|].
  destruct Hcol as (Hal & Hnd & Hp & Hb). clear Hcol' Hb' He'.
  set (g := genoPCh parent (p v) ch).
  assert (packed g ∧ ∀ a, a ∈ sites (genoPCh parent 0 ch) ↔ a ∈ sites g)
    as [Hpg Hsg].
  { unfold g. destruct Hp as [-> | ->]; (split; [done|]); [done|apply Same]. }
  assert (∀ q, q = 0%nat ∨ q = 1%nat →
            (length (above parent ch (end_ v + r0)%Z q) ≤
             length (above parent ch (beg v + r0)%Z q))%nat) as Hmono.
  { intros q Hq.
    unfold sitesFrom.
    rewrite (filter_split_length _ (beg v + r0) (end_ v + r0)) by lia. lia. }
  unfold sitesFrom in Hcnt |- *. unfold piece. fold g.
  destruct (bool_decide (sel (p v) (cnt v) > 0) &&
            bool_decide (end_ v >= sel (p v) minAllele) &&
            bool_decide (beg v <= sel (p v) maxAllele)) eqn:E.
  - destruct (copyPiece_packed g (beg v + r0) (end_ v + r0) (alleles v)
                (sel (p v) (cnt v)) Hpg) as [Hc1 Hc2].
    destruct (copyPiece _ _ _ _ _) as [al c]. cbn [fst snd] in Hc1, Hc2.
    cbn [alleles cnt beg]. subst al.
    pose proof (filter_split_length (sites g) (beg v + r0) (end_ v + r0)
                  ltac:(lia)) as Hsplit.
    destruct (Hcnt (p v) Hp) as [Hlo Hhi]. fold g in Hlo, Hhi.
    pose proof (Small (p v) Hp) as Hsm. fold g in Hsm.
    rewrite Hc2 in * by lia. clear Hc2.
    split.
    + intros a Ha Hlt. apply elem_of_app.
      destruct (decide (a < beg v + r0)); [left; by apply Hcomp|].
      right. apply list_elem_of_filter. split; [lia|by apply Hsg].
    + intros q Hq. specialize (Hmono q Hq).
      destruct (Hcnt q Hq) as [Hqlo Hqhi].
      subst g.
      destruct Hp as [Ep|Ep]; rewrite Ep in *; destruct Hq as [-> | ->];
        cbn [sel upd fst snd] in *; unfold sitesFrom in *; name_lengths; lia.
  - cbn [alleles cnt beg]. split.
    + intros a Ha Hlt.
      destruct (decide (a < beg v + r0)); [by apply Hcomp|].
      exfalso. apply Hsg in Ha.
      destruct (Hcnt (p v) Hp) as [Hlo _]. fold g in Hlo.
      assert (a ∈ filter (λ a, beg v + r0 ≤ a) (sites g)) as Hin
        by (apply list_elem_of_filter; split; [lia|done]).
      assert (0 < length (filter (λ a, (beg v + r0 ≤ a)%Z) (sites g)))%nat
        by (destruct (filter _ (sites g)); [by apply elem_of_nil in Hin
                                           |simpl; lia]).
      pose proof (Bounds (p v) a Hp Ha) as Hbd.
      rewrite !bool_decide_eq_true_2 in E by lia. done.
    + intros q Hq. specialize (Hmono q Hq).
      destruct (Hcnt q Hq) as [Hqlo Hqhi].
      unfold sitesFrom in *. name_lengths. lia.
Qed.

Lemma doWhile_all_collected fuel v :
  all_collected parent ch r0 v →
  (Z.to_nat (width - end_ v) ≤ fuel)%nat → (1 ≤ fuel)%nat →
  ∃ v', doWhile randGeometric fuel parent ch r0 width minAllele maxAllele v
          = Some v' ∧
        all_collected parent ch r0 v' ∧ 0 < beg v'.
Proof.
  apply (doWhile_invariant parent ch r0 width minAllele maxAllele
           (λ v, all_collected parent ch r0 v)).
  apply piece_all_collected.
Qed.

End PiecesSame.

Lemma crossover_transmitChrom_same parent i pl ch st slot r0 r1 :
  slotAt (offPop st) i pl ch slot →
  length slot = numLoci (offPop st) !!! ch → slot ≠ [] →
  m_ranges !! ch = Some (r0, r1) →
  0 ≤ r0 → r1 < InfSitesMutator.ULONG_modulus →
  packed (genoPCh parent 0 ch) → packed (genoPCh parent 1 ch) →
  NoDup (sites (genoPCh parent 0 ch)) →
  NoDup (sites (genoPCh parent 1 ch)) →
  (∀ a, a ∈ sites (genoPCh parent 0 ch) ↔ a ∈ sites (genoPCh parent 1 ch)) →
  (∀ a, a ∈ sites (genoPCh parent 0 ch) → r0 ≤ a < r1) →
  ∃ st',
    transmitChrom1 m_ranges randGeometric randBit parent i pl ch st = Some st' ∧
    ∃ slot',
      slotAt (offPop st') i pl ch slot' ∧
      ∀ x, x ∈ sites (genoPCh parent 0 ch) → x ∈ sites slot'.
Proof.
  intros Hslot Hlen Hne Hr Hr0 Hr1 Hp0 Hp1 Hd0 Hd1 Hsame Hrange.
  unfold transmitChrom1.
  rewrite (list_lookup_total_correct _ _ _ Hr). cbn [fst snd].
  set (end0 := Z.pos (randGeometric (draws st))).
  set (p0 := if randBit (S (draws st)) then 0%nat else 1%nat).
  assert (p0 = 0 ∨ p0 = 1)%nat as Hp by (unfold p0; destruct (randBit _); tauto).
  case_bool_decide as Hw.
  { eexists. split; [done|]. cbn [offPop]. unfold copyChromosome.
    exists (genoPCh parent p0 ch). split; [by eapply slotAt_setSlot_eq|].
    intros x Hx. destruct Hp as [-> | ->]; [done|by apply Hsame]. }
  assert (r0 < r1) as Hlt by (unfold end0 in Hw; lia).
  assert (∀ q a, q = 0%nat ∨ q = 1%nat →
                 a ∈ sites (genoPCh parent q ch) → r0 ≤ a < r1) as Hrange'.
  { intros q a [-> | ->] Ha; apply Hrange; [done|by apply Hsame]. }
  destruct (scanCopy_spec (genoPCh parent 0 ch) 0 r1 r0 r0 r1)
    as (min0 & max0 & -> & Hm0 & HM0 & _ & _ & Hb0);
    [done|intros a Ha; apply (Hrange' 0%nat); [by left|done]|lia|lia|].
  destruct (scanCopy_spec (genoPCh parent 1 ch) 0 r1 r0 r0 r1)
    as (min1 & max1 & -> & Hm1 & HM1 & _ & _ & Hb1);
    [done|intros a Ha; apply (Hrange' 1%nat); [by right|done]|lia|lia|].
  assert (∀ x, r0 ≤ x ≤ r1 → InfSitesMutator.usub x r0 = x - r0) as Hu.
  { intros x Hx. unfold InfSitesMutator.usub. apply Z.mod_small. lia. }
  rewrite !Hu by done.
  assert (∀ q, q = 0%nat ∨ q = 1%nat →
            Z.of_nat (length (sites (genoPCh parent q ch)))
              < InfSitesMutator.ULONG_modulus) as Hsmall.
  { intros q Hq.
    pose proof (NoDup_range_length (sites (genoPCh parent q ch)) r0 r1) as Hn.
    assert (NoDup (sites (genoPCh parent q ch))) as Hd
      by (destruct Hq as [-> | ->]; done).
    specialize (Hn Hd (λ a, Hrange' q a Hq)). lia. }
  destruct (doWhile_all_collected parent ch r0 (r1 - r0)
              (min0 - r0, min1 - r0) (max0 - r0, max1 - r0)
              Hp0 Hp1 Hd0 Hd1 Hsame Hsmall) with
      (fuel := Z.to_nat (r1 - r0))
      (v := mkVars [] (0 + Z.of_nat (length (sites (genoPCh parent 0 ch))),
                       0 + Z.of_nat (length (sites (genoPCh parent 1 ch))))
                   p0 0 end0 (S (S (draws st))))
    as (v & -> & ((Hal & Hnd & Hpv & Hb) & Hcomp & Hcnt) & Hbeg).
  { intros q a [-> | ->] Ha; cbn [sel fst snd].
    - specialize (Hb0 a Ha). lia.
    - specialize (Hb1 a Ha). lia. }
  { cbn [alleles Crossover.p beg end_ cnt].
    split; [|split].
    - split; [by intros ? ?%elem_of_nil|]. split; [constructor|].
      split; [done|]. unfold end0. lia.
    - intros a Ha Hlo. apply Hrange in Ha. lia.
    - intros q Hq. unfold sitesFrom.
      pose proof (length_filter (λ a, 0 + r0 ≤ a)
                    (sites (genoPCh parent q ch))) as Hf.
      destruct Hq as [-> | ->]; cbn [sel fst snd]; name_lengths; lia. }
  { cbn [end_]. lia. }
  { unfold end0 in Hw. lia. }
  cbn [mbind option_bind].
  set (al := if _ || _ then _ else _).
  assert (∀ x, x ∈ sites (genoPCh parent 0 ch) → x ∈ al) as Hall.
  { intros x Hx. unfold al.
    destruct (bool_decide _ || bool_decide _) eqn:E.
    - rewrite lastPiece_exact. apply elem_of_app.
      destruct (decide (x < beg v + r0)); [left; by apply Hcomp|].
      right. apply list_elem_of_filter.
      split; [specialize (Hrange x Hx); lia|].
      assert (x ∈ sites (genoPCh parent (p v) ch)) as Hin
        by (destruct Hpv as [-> | ->]; [done|by apply Hsame]).
      by apply list_elem_of_filter in Hin as [_ ?].
    - destruct (decide (x < beg v + r0)); [by apply Hcomp|].
      exfalso. apply orb_false_iff in E as [E1 _].
      apply bool_decide_eq_false in E1.
      destruct (Hcnt 0%nat) as [Hlo _]; [by left|]. cbn [sel] in Hlo.
      assert (x ∈ sitesFrom (beg v + r0) (genoPCh parent 0 ch)) as Hin
        by (apply list_elem_of_filter; split; [lia|done]).
      destruct (sitesFrom _ _); [by apply elem_of_nil in Hin|].
      simpl in Hlo. lia. }
  eexists. split; [done|]. cbn [offPop].
  destruct (setAlleles_spec i pl ch al (offPop st) slot Hslot Hlen Hne)
    as [[k Hk] _].
  eexists. split; [exact Hk|].
  intros x Hx. apply list_elem_of_filter.
  apply list_elem_of_filter in Hx as [Hz Hx'].
  split; [done|]. apply elem_of_app. left. apply Hall.
  by apply list_elem_of_filter.
Qed.

(** X23. For a parent that carries the same sites on both copies of
    every chromosome (each slot packed left, no site repeated, all sites
    inside the range of the chromosome), [transmitGenotype1] ends and
    gives the offspring copy exactly the sites of the parent on every
    chromosome, wherever the breakpoints fall: the shortcuts taken from
    the counters and from the least and greatest site lose none. *)
Theorem transmitGenotype1_same_sites parent i pl st :
  (∀ ch, (ch < numChromOf parent)%nat →
     (∃ slot, slotAt (offPop st) i pl ch slot ∧
              length slot = numLoci (offPop st) !!! ch ∧ slot ≠ []) ∧
     (∃ r0 r1, m_ranges !! ch = Some (r0, r1) ∧
               0 ≤ r0 ∧ r1 < InfSitesMutator.ULONG_modulus ∧
               ∀ a, a ∈ sites (genoPCh parent 0 ch) → r0 ≤ a < r1) ∧
     packed (genoPCh parent 0 ch) ∧ packed (genoPCh parent 1 ch) ∧
     NoDup (sites (genoPCh parent 0 ch)) ∧
     NoDup (sites (genoPCh parent 1 ch)) ∧
     ∀ a, a ∈ sites (genoPCh parent 0 ch) ↔
          a ∈ sites (genoPCh parent 1 ch)) →
  ∃ st',
    transmitGenotype1 m_ranges randGeometric randBit parent i pl st
      = Some st' ∧
    ∀ ch, (ch < numChromOf parent)%nat →
      ∃ slot',
        slotAt (offPop st') i pl ch slot' ∧
        ∀ x, x ∈ sites slot' ↔ x ∈ sites (genoPCh parent 0 ch).
Proof.
  intros Hwf. unfold transmitGenotype1.
  destruct (chromLoop_spec parent i pl
              (λ ch, (∃ r0 r1, m_ranges !! ch = Some (r0, r1) ∧
                        0 ≤ r0 ∧ r1 < InfSitesMutator.ULONG_modulus ∧
                        ∀ a, a ∈ sites (genoPCh parent 0 ch) → r0 ≤ a < r1) ∧
                     packed (genoPCh parent 0 ch) ∧
                     packed (genoPCh parent 1 ch) ∧
                     NoDup (sites (genoPCh parent 0 ch)) ∧
                     NoDup (sites (genoPCh parent 1 ch)) ∧
                     ∀ a, a ∈ sites (genoPCh parent 0 ch) ↔
                          a ∈ sites (genoPCh parent 1 ch))
              (λ ch slot',
                 ∀ x, x ∈ sites slot' ↔ x ∈ sites (genoPCh parent 0 ch)))
    with (chs := seq 0 (numChromOf parent)) (st := st)
    as (st' & Hrun & Hgood & _).
  { intros ch s slot ((r0 & r1 & Hr & Hr0 & Hr1 & Hrange) & Hp0 & Hp1 & Hd0
                      & Hd1 & Hsame) Hslot Hlen Hne.
    destruct (crossover_transmitChrom_spec parent i pl ch s slot r0 r1
                Hslot Hlen Hne Hr Hr0 Hp0 Hp1 Hd0 Hd1)
      as (st1 & Hrun1 & (slot1 & Hs1 & _ & _ & Hsub) & Hothers).
    destruct (crossover_transmitChrom_same parent i pl ch s slot r0 r1
                Hslot Hlen Hne Hr Hr0 Hr1 Hp0 Hp1 Hd0 Hd1 Hsame Hrange)
      as (st2 & Hrun2 & slot2 & Hs2 & Hall).
    rewrite Hrun1 in Hrun2. injection Hrun2 as <-.
    rewrite (slotAt_fun _ _ _ _ _ _ Hs2 Hs1) in Hall.
    exists st1. split; [done|]. split; [|done].
    exists slot1. split; [done|]. intros x. split; [|apply Hall].
    intros Hx. pose proof Hx as [Hz _]%list_elem_of_filter.
    destruct (Hsub x Hx) as [Hin|Hin].
    - by apply list_elem_of_filter.
    - apply Hsame. by apply list_elem_of_filter. }
  { apply NoDup_seq. }
  { intros c Hc%elem_of_seq. apply Hwf. lia. }
  exists st'. split; [done|]. intros ch Hch. apply Hgood.
  apply elem_of_seq. lia.
Qed.

End CrossoverFacts.

(** ** InfSitesRecombinator: one offspring from two parents *)

Section MatingFacts.
Import InfSitesRecombinator Crossover.

Variable m_ranges : list (Z * Z).
Variable randGeometric : nat → positive.
Variable randBit : nat → bool.

Local Abbreviation inc := (StronglySorted Z.lt).

Lemma slotAt_setSlot_other_copy pop i p p' ch ch' slot s :
  p' ≠ p → slotAt pop i p' ch' slot →
  slotAt (setSlot pop i p ch s) i p' ch' slot.
Proof.
  intros Hne (ind & copy & Hi & Hp & Hch). unfold slotAt, setSlot. simpl.
  eexists _, _. split; [|split].
  - rewrite list_lookup_alter_eq, Hi. reflexivity.
  - rewrite list_lookup_alter_ne by done. exact Hp.
  - done.
Qed.

(** Writing copy [p] in a slot that has room leaves the slots of another
    copy as they are. *)
Lemma transmitChrom_other_copy parent i p p' ch ch' st slot :
  p' ≠ p →
  (length (countParent parent ch) < numLoci (offPop st) !!! ch)%nat →
  slotAt (offPop st) i p' ch' slot →
  slotAt (offPop (InfSitesRecombinator.transmitChrom randBit parent i p ch st))
         i p' ch' slot.
Proof.
  intros Hne Hroom Hs. unfold InfSitesRecombinator.transmitChrom.
  destruct (decide (countParent parent ch = [])); cbn zeta.
  { by apply slotAt_setSlot_other_copy. }
  pose proof (keep_length randBit (countParent parent ch) (draws st)) as Hkl.
  destruct (keep randBit _ _) as [al d]. cbn [fst] in Hkl.
  rewrite decide_False by lia. by apply slotAt_setSlot_other_copy.
Qed.

Lemma transmitGenotype0_other_copy parent i p p' ch' chs st slot :
  NoDup chs → p' ≠ p →
  (∀ ch, ch ∈ chs →
     ∃ slot, slotAt (offPop st) i p ch slot ∧
             length slot = numLoci (offPop st) !!! ch ∧
             (length (countParent parent ch) < length slot)%nat) →
  slotAt (offPop st) i p' ch' slot →
  slotAt
    (offPop
       (foldl
          (λ st ch, InfSitesRecombinator.transmitChrom randBit parent i p ch st)
          st chs))
    i p' ch' slot.
Proof.
  intros Hnd Hne. revert st.
  induction Hnd as [|c chs Hc Hnd IH]; intros st Hwf Hs; cbn [foldl];
    [done|].
  destruct (Hwf c) as (sc & Hsc & Hlc & Hrc); [by left|].
  destruct (transmitChrom_spec randBit parent i p c st sc Hsc Hlc Hrc)
    as (_ & Hnum & Hothers).
  apply IH.
  - intros ch Hch. destruct (Hwf ch) as (s & Hs' & Hl & Hr); [by right|].
    assert (ch ≠ c) as Hcc by (by intros ->).
    exists s. rewrite Hnum. split; [by apply Hothers|done].
  - apply transmitChrom_other_copy; [done| |done]. by rewrite <- Hlc.
Qed.

(** X24. With rate 0.5, when the slots of copy 0 of the offspring have
    room for the sites counted on the mother and those of copy 1 for the
    sites counted on the father (one empty entry included, so that no
    chromosome is grown), [applyDuringMating] returns [true] and builds
    copy 0 of the offspring from the mother alone and copy 1 from the
    father alone: on every chromosome, the slot of copy 0 is packed left,
    its sites are in strictly increasing order and all of them are sites
    of the mother, and likewise copy 1 with the father. *)
Theorem applyDuringMating_free_recombination numChrom mom dad i st :
  (∀ ch, (ch < numChromOf mom)%nat →
     ∃ slot, slotAt (offPop st) i 0 ch slot ∧
             length slot = numLoci (offPop st) !!! ch ∧
             (length (countParent mom ch) < length slot)%nat) →
  (∀ ch, (ch < numChromOf dad)%nat →
     ∃ slot, slotAt (offPop st) i 1 ch slot ∧
             length slot = numLoci (offPop st) !!! ch ∧
             (length (countParent dad ch) < length slot)%nat) →
  ∃ st',
    applyDuringMating m_ranges randGeometric randBit (1 / 2)%R
      true numChrom mom dad i st = Some (true, st') ∧
    (∀ ch, (ch < numChromOf mom)%nat →
       ∃ slot', slotAt (offPop st') i 0 ch slot' ∧ packed slot' ∧
                inc (sites slot') ∧
                ∀ x, x ∈ sites slot' → x ∈ genoAll mom) ∧
    (∀ ch, (ch < numChromOf dad)%nat →
       ∃ slot', slotAt (offPop st') i 1 ch slot' ∧ packed slot' ∧
                inc (sites slot') ∧
                ∀ x, x ∈ sites slot' → x ∈ genoAll dad).
Proof.
  intros Hwf0 Hwf1. unfold applyDuringMating. cbn [negb].
  rewrite decide_False by lra. rewrite decide_True by done.
  eexists. split; [done|].
  set (st1 := transmitGenotype0 randBit mom i 0 st).
  assert (∀ ch, ch ∈ seq 0 (numChromOf mom) →
            ∃ slot, slotAt (offPop st) i 0 ch slot ∧
                    length slot = numLoci (offPop st) !!! ch ∧
                    (length (countParent mom ch) < length slot)%nat)
    as Hwf0s.
  { intros ch Hch%elem_of_seq. apply Hwf0. lia. }
  destruct (transmitGenotype0_fold randBit mom i 0%nat
              (seq 0 (numChromOf mom)) st (NoDup_seq _ _) Hwf0s)
    as (_ & Hnum1 & _).
  fold (transmitGenotype0 randBit mom i 0 st) in Hnum1. fold st1 in Hnum1.
  assert (∀ ch, (ch < numChromOf dad)%nat →
            ∃ slot, slotAt (offPop st1) i 1 ch slot ∧
                    length slot = numLoci (offPop st1) !!! ch ∧
                    (length (countParent dad ch) < length slot)%nat)
    as Hwf1'.
  { intros ch Hch. destruct (Hwf1 ch Hch) as (slot & Hs & Hl & Hr).
    exists slot. rewrite Hnum1. split; [|done].
    by apply (transmitGenotype0_other_copy mom i 0%nat 1%nat ch
                (seq 0 (numChromOf mom)) st slot (NoDup_seq _ _)). }
  split.
  - intros ch Hch.
    destruct (transmitGenotype0_slots_spec randBit mom i 0%nat st ch
                Hwf0 Hch) as (slot0 & Hs0 & Hp & Hi & _ & Hsub).
    fold st1 in Hs0. exists slot0. split; [|done].
    apply (transmitGenotype0_other_copy dad i 1%nat 0%nat ch
             (seq 0 (numChromOf dad)) st1 slot0 (NoDup_seq _ _));
      [done| |done].
    intros c Hc%elem_of_seq. apply Hwf1'. lia.
  - intros ch Hch.
    destruct (transmitGenotype0_slots_spec randBit dad i 1%nat st1 ch
                Hwf1' Hch) as (slot1 & Hs1 & Hp & Hi & _ & Hsub).
    by exists slot1.
Qed.

End MatingFacts.

(** ** InfSitesMutator: the slots stay tidy *)

Section MutatorTidy.
Import InfSitesMutator.

Variable m_ranges : list (Z * Z).
Variable m_model : Z.
Variable noOutput : bool.
Variable subPops : list nat.
Variable randGeometric : nat → positive.
Variable randInt : nat → Z → Z.

Lemma tidy_setSlot pop i p ch s :
  tidy pop → packed s → NoDup (sites s) → tidy (setSlot pop i p ch s).
Proof.
  intros Ht Hp Hd ind' copy' slot' Hind Hc Hs. unfold setSlot in Hind.
  simpl in Hind.
  apply elem_of_alter_inv in Hind as [Hind|(ind & Hind & ->)];
    [by eapply Ht|].
  apply elem_of_alter_inv in Hc as [Hc|(copy & Hc & ->)]; [by eapply Ht|].
  apply elem_of_insert_inv in Hs as [->|Hs]; [done|by eapply Ht].
Qed.

Lemma tidy_addLoci pop ch n : tidy pop → tidy (addLoci ch n pop).
Proof.
  intros Ht ind' copy' slot' Hind Hc Hs. unfold addLoci in Hind.
  simpl in Hind.
  apply list_elem_of_fmap in Hind as (ind & -> & Hind).
  apply list_elem_of_fmap in Hc as (copy & -> & Hc).
  apply elem_of_alter_inv in Hs as [Hs|(slot & Hs & ->)]; [by eapply Ht|].
  destruct (Ht ind copy slot Hind Hc Hs) as [Hp Hd].
  destruct (packed_decomp slot Hp) as (ss & k & -> & Hss).
  rewrite <- app_assoc, <- replicate_add.
  rewrite sites_app_zeros in Hd by done. rewrite sites_app_zeros by done.
  split; [by apply packed_app_zeros|done].
Qed.

Lemma tidy_getSlot pop i p ch :
  tidy pop →
  packed (getSlot pop i p ch) ∧ NoDup (sites (getSlot pop i p ch)).
Proof.
  intros Ht. unfold getSlot, genoPCh.
  assert (packed [] ∧ NoDup (sites [])) as Hnil
    by (split; [done|constructor]).
  destruct (lookup_total_elem (individuals pop) i) as [Hi|Hi];
    [|by rewrite Hi].
  destruct (lookup_total_elem (individuals pop !!! i) p) as [Hp|Hp];
    [|by rewrite Hp].
  destruct (lookup_total_elem ((individuals pop !!! i) !!! p) ch) as [Hc|Hc];
    [|by rewrite Hc].
  by eapply Ht.
Qed.

Lemma firstZero_None k l : Forall (λ a, a ≠ 0) l → firstZero k l = None.
Proof.
  intros H. revert k. induction H as [|a l Ha _ IH]; intros k; [done|].
  simpl. by rewrite decide_False.
Qed.

(** The scan of a tidy slot leaves a tidy slot. *)
Lemma placeInSlot_tidy geno mutLoc :
  packed geno → NoDup (sites geno) →
  packed (placeInSlot geno mutLoc).1 ∧
  NoDup (sites (placeInSlot geno mutLoc).1).
Proof.
  intros Hp Hd.
  destruct (decide (mutLoc ∈ sites geno)) as [Hin|Hin].
  - destruct (decide (0 ∈ geno)) as [H0|H0].
    { destruct (placeInSlot_back_spec geno mutLoc Hp Hd Hin H0)
        as (slot' & -> & Hp' & _ & _ & Hd' & _). done. }
    destruct (packed_decomp geno Hp) as (ss & n & -> & Hss).
    destruct n as [|n];
      [|exfalso; apply H0, elem_of_app; right; by left].
    simpl in *. rewrite app_nil_r in *.
    rewrite sites_nonzero in Hin, Hd by done.
    assert (mutLoc ≠ 0) as Hz by (rewrite Forall_forall in Hss; by apply Hss).
    apply list_elem_of_split in Hin as (l1 & l2 & ->).
    apply NoDup_app in Hd as (Hd1 & Hd12 & Hd2).
    apply Forall_app in Hss as [Hss1 Hss2].
    apply Forall_cons in Hss2 as [_ Hss2].
    assert (Forall (λ a, a ≠ 0 ∧ a ≠ mutLoc) l1) as Hl1.
    { rewrite Forall_forall in Hss1. apply Forall_forall. intros a Ha.
      split; [by apply Hss1|]. intros ->. apply (Hd12 _ Ha). by left. }
    rewrite placeInSlot_back by done. unfold backMutation.
    rewrite drop_S_middle, firstZero_None by done. simpl.
    assert (Forall (λ a, a ≠ 0) (l1 ++ mutLoc :: l2)) as Hall
      by (apply Forall_app; split; [done|by constructor]).
    split.
    + rewrite <- (app_nil_r (l1 ++ _)). by apply (packed_app_zeros _ 0).
    + rewrite sites_nonzero by done. apply NoDup_app.
      split; [done|]. split; done.
  - destruct (packed_decomp geno Hp) as (ss & n & -> & Hss).
    rewrite sites_app_zeros in Hin, Hd by done.
    assert (Forall (λ a, a ≠ 0 ∧ a ≠ mutLoc) ss) as Hl1.
    { rewrite Forall_forall in Hss. apply Forall_forall. intros a Ha.
      split; [by apply Hss|]. by intros ->. }
    unfold placeInSlot. rewrite scanSlot_skip by done.
    destruct n as [|n]; simpl.
    { rewrite app_nil_r, sites_nonzero by done. split; [|done].
      rewrite <- (app_nil_r ss). by apply (packed_app_zeros _ 0). }
    rewrite insert_middle.
    destruct (decide (mutLoc = 0)) as [->|Hz].
    + change (0 :: replicate n 0) with (replicate (S n) 0).
      rewrite sites_app_zeros by done. split; [by apply packed_app_zeros|done].
    + assert (Forall (λ a, a ≠ 0) (ss ++ [mutLoc])) as Hall
        by (apply Forall_app; split; [done|by constructor]).
      replace (ss ++ mutLoc :: replicate n 0)
        with ((ss ++ [mutLoc]) ++ replicate n 0) by (by rewrite <- app_assoc).
      rewrite sites_app_zeros by done. split; [by apply packed_app_zeros|].
      apply NoDup_app. split; [done|]. split; [|apply NoDup_singleton].
      intros a Ha ->%list_elem_of_singleton. done.
Qed.

Lemma tidy_place i p ch mutLoc st :
  tidy (pop st) → tidy (pop (place noOutput i p ch mutLoc st)).
Proof.
  intros Ht. unfold place.
  set (pop1 := if decide (_ ≠ 0) then addLoci ch 10 (pop st) else pop st).
  assert (tidy pop1) as Ht1
    by (unfold pop1; case_decide; [by apply tidy_addLoci|done]).
  destruct (tidy_getSlot pop1 i p ch Ht1) as [Hp Hd].
  pose proof (placeInSlot_tidy _ mutLoc Hp Hd) as [Hp' Hd'].
  destruct (placeInSlot _ _) as [geno' event]. simpl in Hp', Hd'.
  assert (tidy (setSlot pop1 i p ch geno')) by by apply tidy_setSlot.
  unfold logLine. destruct event; [destruct noOutput|]; done.
Qed.

Lemma tidy_mutateAt i p ch mutLoc st :
  m_model ≠ 2 → tidy (pop st) →
  tidy (pop (mutateAt m_ranges m_model noOutput randInt i p ch mutLoc st)).
Proof.
  intros Hm Ht. unfold mutateAt. rewrite decide_False by done.
  by apply tidy_place.
Qed.

(** X25. In the infinite-alleles mode ([m_model] not 2)
    [InfSitesMutator::apply] keeps the slots tidy whatever the draws:
    when every slot of the population is packed left and holds no site
    twice before the call, the call returns [true] and every slot, also
    of a chromosome that has been grown, is packed left and holds no site
    twice afterwards. *)
Theorem apply_keeps_slots_tidy pop0 mutants d :
  m_model ≠ 2 → tidy pop0 →
  ∃ st',
    apply m_ranges m_model noOutput subPops randGeometric randInt
      pop0 mutants d = Some (true, st') ∧
    tidy (pop st').
Proof.
  intros Hm.
  apply (apply_invariant m_ranges m_model noOutput subPops randGeometric
           randInt (λ st, tidy (pop st))).
  - done.
  - intros i loc st. by apply tidy_mutateAt.
Qed.

End MutatorTidy.

(** ** Concrete instances *)

Section SelectorInstances.
Import InfSitesSelector.

Lemma getFitnessValue_list_stored_witness :
  let '(sf, st') :=
    getFitnessValue 0 [0%R; (1 / 10)%R] func_none no_gamma 7 st_empty in
  m_selFactory st' !! 7 = Some sf ∧
  (∀ k, k ≠ 7 → m_selFactory st' !! k = m_selFactory st_empty !! k) ∧
  m_newMutants st' = m_newMutants st_empty ++ [7].
Proof.
  apply (getFitnessValue_list_stored 0 [0%R; (1 / 10)%R] func_none no_gamma
           7 st_empty).
  done.
Defined.

Lemma getFitnessValue_list_value_witness :
  let '(sf, st') :=
    getFitnessValue 0 [0%R; (1 / 10)%R] func_none no_gamma 7 st_empty in
  if decide (0 = 0) then
    sf = ((1 / 10)%R, (1 / 2)%R) ∧ draws st' = draws st_empty
  else
    sf = (no_gamma (draws st_empty) (1 / 10)%R (nth 0 [] 0%R), (1 / 2)%R) ∧
    draws st' = S (draws st_empty).
Proof.
  apply (getFitnessValue_list_value 0 [0%R; (1 / 10)%R] func_none no_gamma
           0 (1 / 10)%R [] 7 st_empty).
  - reflexivity.
  - intros H. lia.
Defined.

Lemma indFitness_no_site_witness :
  indFitness 0 [] func_dom no_gamma ADDITIVE [0; 0; 0; 0] st_half =
    (1%R, st_half).
Proof.
  apply (indFitness_no_site 0 [] func_dom no_gamma ADDITIVE [0; 0; 0; 0]
           st_half).
  repeat constructor.
Defined.

Lemma st_half_cached a :
  a ∈ [5; 7; 0] ++ [7; 0; 0] → a ≠ 0 → is_Some (m_selFactory st_half !! a).
Proof.
  intros Ha Hz. destruct (st_half_lookup a Ha Hz) as [s ->]. by eexists.
Qed.

Lemma indFitness_cached_state_witness :
  (indFitness 0 [] func_dom no_gamma MULTIPLICATIVE
     ([5; 7; 0] ++ [7; 0; 0]) st_half).2 = st_half.
Proof.
  apply (indFitness_cached_state 0 [] func_dom no_gamma MULTIPLICATIVE
           ([5; 7; 0] ++ [7; 0; 0]) st_half).
  apply st_half_cached.
Defined.

Lemma general_forms_permutation_witness :
  randomSelMulFitnessExt 0 [] func_draw no_gamma [5; 7; 0] st_empty =
    randomSelMulFitnessExt 0 [] func_draw no_gamma [7; 5; 0] st_empty ∧
  randomSelAddFitnessExt 0 [] func_draw no_gamma [5; 7; 0] st_empty =
    randomSelAddFitnessExt 0 [] func_draw no_gamma [7; 5; 0] st_empty ∧
  randomSelExpFitnessExt 0 [] func_draw no_gamma [5; 7; 0] st_empty =
    randomSelExpFitnessExt 0 [] func_draw no_gamma [7; 5; 0] st_empty.
Proof.
  apply (general_forms_permutation 0 [] func_draw no_gamma
           [5; 7; 0] [7; 5; 0] st_empty).
  apply perm_swap.
Defined.

Lemma apply_function_writes_nothing_witness :
  let '(ok, fs, out, st') :=
    apply 0 [] func_dom no_gamma ADDITIVE false pop_fixed5 st_empty in
  m_selFactory st' = m_selFactory st_empty ∧ m_newMutants st' = [] ∧ out = [].
Proof.
  apply (apply_function_writes_nothing 0 [] func_dom no_gamma ADDITIVE false
           pop_fixed5 st_empty).
  reflexivity.
Defined.

End SelectorInstances.

Section MutatorInstances.
Import InfSitesMutator.

Lemma mutation_lands_in_its_range_witness :
  ∃ p ch mutLoc b e,
    mapLoc ranges_two 13 = (p, ch, mutLoc) ∧
    mutate ranges_two 2 false int1 0 13 st_mut =
      mutateAt ranges_two 2 false int1 0 p ch mutLoc st_mut ∧
    (p < ploidy (pop st_mut))%nat ∧ ranges_two !! ch = Some (b, e) ∧
    b ≤ mutLoc < e.
Proof.
  apply (mutation_lands_in_its_range ranges_two 2 false int1 0 13 st_mut).
  - repeat constructor.
  - vm_compute. split; discriminate.
Defined.

Lemma mapLoc_injective_witness : mapLoc ranges_two 13 ≠ mapLoc ranges_two 33.
Proof.
  apply (mapLoc_injective ranges_two 2 13 33).
  - repeat constructor.
  - vm_compute. split; discriminate.
  - vm_compute. split; discriminate.
  - discriminate.
Defined.

Lemma apply_other_model_ignores_registry_witness :
  ∃ st',
    apply [(0, 5)] 1 false [0%nat] geo3 int1 pop_mut [1] 0
      = Some (true, st') ∧
    m_mutants st' = [1] ∧ saturated st' = false ∧
    Forall (λ l : Line, l.2 = 0 ∨ l.2 = 1) (out st') ∧
    (false = true → out st' = []).
Proof.
  apply (apply_other_model_ignores_registry [(0, 5)] false [0%nat] geo3 int1
           1 pop_mut [1] 0).
  discriminate.
Defined.

Lemma locateVacantLocus_forward_witness :
  locateVacantLocus int1 0 5 st_gap = (3, tick st_gap).
Proof.
  apply (locateVacantLocus_forward int1 0 5 st_gap 3).
  - repeat constructor.
  - set_solver.
  - split; reflexivity.
  - set_solver.
  - intros x Hx. change (1 < x < 3) in Hx.
    assert (x = 2) as -> by lia. set_solver.
  - exists 4. split; [set_solver|reflexivity].
Defined.

Lemma locateVacantLocus_backward_unchecked_witness :
  locateVacantLocus int3 0 5 st_taken = (3 - 1, tick st_taken) ∧
  3 - 1 ∈ m_mutants st_taken.
Proof.
  split; [|set_solver].
  apply (locateVacantLocus_backward_unchecked int3 0 5 st_taken).
  - repeat constructor.
  - set_solver.
  - intros x Hx. change (3 < x < 5) in Hx.
    assert (x = 4) as -> by lia. set_solver.
  - reflexivity.
  - split; [discriminate|reflexivity].
  - discriminate.
Defined.

Lemma place_grows_full_slot_witness :
  let st' := place false 0 0 0 3 st_full in
  getSlot (pop st') 0 0 0 = [1; 2] ++ 3 :: replicate 9 0 ∧
  numLoci (pop st') !!! 0%nat = (length [1; 2] + 10)%nat ∧
  out st' = out st_full ++ [(gen (pop st_full), 3, 0%nat, 0)].
Proof.
  apply (place_grows_full_slot false 0 0 0 3 st_full [1; 2]).
  - eexists _, _. split; [reflexivity|]. split; reflexivity.
  - reflexivity.
  - discriminate.
  - repeat constructor; discriminate.
Defined.

Lemma place_location_zero_witness :
  let st' := place false 0 0 0 0 st_mut in
  pop st' = pop st_mut ∧
  out st' = out st_mut ++ [(gen (pop st_mut), 0, 0%nat, 0)].
Proof.
  apply (place_location_zero false 0 0 0 st_mut [1; 0; 0]).
  - eexists _, _. split; [reflexivity|]. split; reflexivity.
  - reflexivity.
  - discriminate.
  - reflexivity.
Defined.

Lemma pop_mut_tidy : tidy pop_mut.
Proof.
  intros ind copy slot Hind Hc Hs. simpl in Hind.
  apply list_elem_of_singleton in Hind as ->.
  apply elem_of_cons in Hc as [->|Hc];
    [|apply list_elem_of_singleton in Hc as ->];
    apply list_elem_of_singleton in Hs as ->.
  - split; [simpl; repeat constructor|].
    assert (sites [1; 0; 0] = [1]) as -> by (by vm_compute).
    apply NoDup_singleton.
  - split; [simpl; repeat constructor|].
    assert (sites [0; 0; 0] = []) as -> by (by vm_compute). constructor.
Qed.

Lemma apply_keeps_slots_tidy_witness :
  ∃ st',
    apply [(0, 5)] 1 false [0%nat] geo3 int1 pop_mut [1] 0
      = Some (true, st') ∧
    tidy (pop st').
Proof.
  apply (apply_keeps_slots_tidy [(0, 5)] 1 false [0%nat] geo3 int1
           pop_mut [1] 0).
  - discriminate.
  - apply pop_mut_tidy.
Defined.

End MutatorInstances.

Section RecombinatorInstances.
Import InfSitesRecombinator Crossover.

Lemma off_two_chrom_wf p ch :
  (p < 2)%nat → (ch < 2)%nat →
  ∃ slot, slotAt off_two_chrom 0 p ch slot ∧
          length slot = numLoci off_two_chrom !!! ch ∧ slot ≠ [].
Proof.
  intros Hp Hch. exists [9; 9; 9].
  destruct p as [|[|p]]; [..|lia]; (destruct ch as [|[|ch]]; [..|lia]);
    (split; [eexists _, _; split; [reflexivity|]; split; reflexivity|]);
    split; [reflexivity|discriminate| reflexivity|discriminate
           |reflexivity|discriminate| reflexivity|discriminate].
Qed.

Lemma off_two_chrom_room p ch :
  (p < 2)%nat → (ch < 2)%nat →
  ∃ slot, slotAt off_two_chrom 0 p ch slot ∧
          length slot = numLoci off_two_chrom !!! ch ∧
          (length (countParent parent_two_chrom ch) < length slot)%nat.
Proof.
  intros Hp Hch. destruct (off_two_chrom_wf p ch Hp Hch) as (slot & Hs & Hl & _).
  exists slot. split; [done|]. split; [done|]. rewrite Hl.
  destruct ch as [|[|ch]]; [..|lia]; vm_compute; lia.
Qed.

Lemma parent_two_chrom_slots p ch :
  (p < 2)%nat → (ch < 2)%nat →
  packed (genoPCh parent_two_chrom p ch) ∧
  NoDup (sites (genoPCh parent_two_chrom p ch)) ∧
  ∀ a, a ∈ sites (genoPCh parent_two_chrom p ch) →
       ch = 0%nat ∧ a = 5.
Proof.
  intros Hp Hch.
  destruct p as [|[|p]]; [..|lia]; (destruct ch as [|[|ch]]; [..|lia]).
  all: split; [simpl; repeat constructor|].
  all: match goal with
       | |- context [sites ?g] =>
           let r := eval vm_compute in (sites g) in
           assert (sites g = r) as -> by (by vm_compute)
       end.
  all: split; [repeat constructor; set_solver|].
  all: intros a Ha; set_solver.
Qed.

Lemma transmitGenotype0_offspring_slots_witness :
  ∃ slot',
    slotAt (offPop (transmitGenotype0 tails parent_two_chrom 0 0
                      (mkState off_two_chrom 0))) 0 0 0 slot' ∧
    packed slot' ∧ StronglySorted Z.lt (sites slot') ∧ 0 ∈ slot' ∧
    ∀ x, x ∈ sites slot' → x ∈ genoAll parent_two_chrom.
Proof.
  apply (transmitGenotype0_offspring_slots tails parent_two_chrom 0 0
           (mkState off_two_chrom 0) 0).
  - intros ch Hch. apply off_two_chrom_room; [lia|exact Hch].
  - cbv. lia.
Defined.

Lemma transmitGenotype0_multi_keeps_shared_witness :
  5 ∈ getSlot (offPop (transmitGenotype0 tails parent_two_chrom 0 0
                         (mkState off_two_chrom 0))) 0 0 0.
Proof.
  apply (transmitGenotype0_multi_keeps_shared tails parent_two_chrom 0 0
           (mkState off_two_chrom 0) 0 5).
  - intros ch Hch. apply off_two_chrom_room; [lia|exact Hch].
  - cbv. lia.
  - discriminate.
  - apply (parent_two_chrom_slots 0 0); lia.
  - apply (parent_two_chrom_slots 1 0); lia.
  - apply (parent_two_chrom_slots 0 0); lia.
  - apply (parent_two_chrom_slots 1 0); lia.
  - assert (sites (genoPCh parent_two_chrom 0 0) = [5]) as ->
      by (by vm_compute). set_solver.
  - assert (sites (genoPCh parent_two_chrom 1 0) = [5]) as ->
      by (by vm_compute). set_solver.
Defined.

Lemma ranges_two_lookup ch :
  (ch < 2)%nat →
  ∃ r0 r1, ranges_two !! ch = Some (r0, r1) ∧ 0 ≤ r0 ∧
           r1 < InfSitesMutator.ULONG_modulus ∧
           ∀ a, a ∈ sites (genoPCh parent_two_chrom 0 ch) → r0 ≤ a < r1.
Proof.
  intros Hch. destruct ch as [|[|ch]]; [..|lia].
  - exists 0, 10. split; [done|]. split; [done|]. split; [done|].
    intros a Ha. destruct (parent_two_chrom_slots 0 0) as (_ & _ & H); [lia..|].
    destruct (H a Ha) as [_ ->]. lia.
  - exists 10, 20. split; [done|]. split; [done|]. split; [done|].
    intros a Ha. destruct (parent_two_chrom_slots 0 1) as (_ & _ & H); [lia..|].
    destruct (H a Ha) as [? _]. lia.
Qed.

Lemma transmitGenotype1_offspring_slots_witness :
  ∃ st',
    transmitGenotype1 ranges_two geo3 tails parent_two_chrom 0 0
      (mkState off_two_chrom 0) = Some st' ∧
    ∀ ch, (ch < numChromOf parent_two_chrom)%nat →
      ∃ slot',
        slotAt (offPop st') 0 0 ch slot' ∧ packed slot' ∧
        NoDup (sites slot') ∧
        ∀ x, x ∈ sites slot' →
             x ∈ genoPCh parent_two_chrom 0 ch ∨
             x ∈ genoPCh parent_two_chrom 1 ch.
Proof.
  apply (transmitGenotype1_offspring_slots ranges_two geo3 tails
           parent_two_chrom 0 0 (mkState off_two_chrom 0)).
  intros ch Hch. change (ch < 2)%nat in Hch.
  split; [apply off_two_chrom_wf; [lia|exact Hch]|].
  split.
  { destruct (ranges_two_lookup ch Hch) as (r0 & r1 & H1 & H2 & _).
    by exists r0, r1. }
  split; [apply (parent_two_chrom_slots 0 ch); lia|].
  split; [apply (parent_two_chrom_slots 1 ch); lia|].
  split; [apply (parent_two_chrom_slots 0 ch); lia
         |apply (parent_two_chrom_slots 1 ch); lia].
Defined.

Lemma parent_two_chrom_same ch a :
  a ∈ sites (genoPCh parent_two_chrom 0 ch) ↔
  a ∈ sites (genoPCh parent_two_chrom 1 ch).
Proof.
  destruct ch as [|[|ch]]; [done|done|].
  assert (genoPCh parent_two_chrom 0 (S (S ch)) = []) as ->
    by (unfold genoPCh; by rewrite list_lookup_total_alt).
  assert (genoPCh parent_two_chrom 1 (S (S ch)) = []) as ->
    by (unfold genoPCh; by rewrite list_lookup_total_alt).
  done.
Qed.

Lemma transmitGenotype1_same_sites_witness :
  ∃ st',
    transmitGenotype1 ranges_two geo3 tails parent_two_chrom 0 0
      (mkState off_two_chrom 0) = Some st' ∧
    ∀ ch, (ch < numChromOf parent_two_chrom)%nat →
      ∃ slot',
        slotAt (offPop st') 0 0 ch slot' ∧
        ∀ x, x ∈ sites slot' ↔ x ∈ sites (genoPCh parent_two_chrom 0 ch).
Proof.
  apply (transmitGenotype1_same_sites ranges_two geo3 tails
           parent_two_chrom 0 0 (mkState off_two_chrom 0)).
  intros ch Hch. change (ch < 2)%nat in Hch.
  split; [apply off_two_chrom_wf; [lia|exact Hch]|].
  split; [by apply ranges_two_lookup|].
  split; [apply (parent_two_chrom_slots 0 ch); lia|].
  split; [apply (parent_two_chrom_slots 1 ch); lia|].
  split; [apply (parent_two_chrom_slots 0 ch); lia|].
  split; [apply (parent_two_chrom_slots 1 ch); lia|].
  apply parent_two_chrom_same.
Defined.

Lemma applyDuringMating_free_recombination_witness :
  ∃ st',
    applyDuringMating ranges_two geo3 tails (1 / 2)%R
      true 2 parent_two_chrom parent_two_chrom 0 (mkState off_two_chrom 0)
      = Some (true, st') ∧
    (∀ ch, (ch < numChromOf parent_two_chrom)%nat →
       ∃ slot', slotAt (offPop st') 0 0 ch slot' ∧ packed slot' ∧
                StronglySorted Z.lt (sites slot') ∧
                ∀ x, x ∈ sites slot' → x ∈ genoAll parent_two_chrom) ∧
    (∀ ch, (ch < numChromOf parent_two_chrom)%nat →
       ∃ slot', slotAt (offPop st') 0 1 ch slot' ∧ packed slot' ∧
                StronglySorted Z.lt (sites slot') ∧
                ∀ x, x ∈ sites slot' → x ∈ genoAll parent_two_chrom).
Proof.
  apply (applyDuringMating_free_recombination ranges_two geo3 tails 2
           parent_two_chrom parent_two_chrom 0 (mkState off_two_chrom 0)).
  - intros ch Hch. apply off_two_chrom_room; [lia|exact Hch].
  - intros ch Hch. apply off_two_chrom_room; [lia|exact Hch].
Defined.

End RecombinatorInstances.
